(** * A shallow embedding of the llmem storage core

    Strings are modelled as [String.string] over ASCII; [toLowerCase] and the
    regular expression [/\s+/] are modelled on the ASCII range.  JavaScript
    numbers used as scores are modelled as rationals [Q]: the code only adds
    and multiplies them, so each score is the exact value of the expression
    the code evaluates.  Thrown exceptions are modelled by the [result] type. *)

From Stdlib Require Import String Ascii List QArith Lia Bool Sorted Permutation Arith Lqa.
Import ListNotations.

Open Scope Q_scope.
Open Scope string_scope.
Set Warnings "-register-all".

(** ** Results: a computation either returns or throws. *)
Inductive result (A : Type) : Type :=
| Ok (a : A)
| Err (e : string).
Arguments Ok {A} a.
Arguments Err {A} e.

Definition bind {A B} (r : result A) (f : A -> result B) : result B :=
  match r with Ok a => f a | Err e => Err e end.

Notation "x <- r ;; k" := (bind r (fun x => k)) (at level 61, r at next level, right associativity).

(** ** Strings (ASCII model of the JavaScript string methods used) *)

(** [String.prototype.toLowerCase] on ASCII. *)
Definition lower_ascii (c : ascii) : ascii :=
  let n := nat_of_ascii c in
  if andb (Nat.leb 65 n) (Nat.leb n 90) then ascii_of_nat (n + 32) else c.

Fixpoint toLowerCase (s : string) : string :=
  match s with
  | EmptyString => EmptyString
  | String c s' => String (lower_ascii c) (toLowerCase s')
  end.

Fixpoint startsWith (s p : string) : bool :=
  match p, s with
  | EmptyString, _ => true
  | String a p', String b s' => Ascii.eqb a b && startsWith s' p'
  | String _ _, EmptyString => false
  end.

(** [s.includes(p)] *)
Fixpoint includes (s p : string) : bool :=
  startsWith s p ||
  match s with
  | EmptyString => false
  | String _ s' => includes s' p
  end.

(** The character class [\s], on ASCII: tab, line feed, vertical tab,
    form feed, carriage return and space. *)
Definition is_ws (c : ascii) : bool :=
  let n := nat_of_ascii c in
  Nat.eqb n 32 || (Nat.leb 9 n && Nat.leb n 13).

(** [s.split(/\s+/)]: the pieces between maximal runs of whitespace; a
    leading or trailing run yields an empty first or last piece.  [in_ws]
    records that the previous character was whitespace. *)
Fixpoint split_go (s : string) (in_ws : bool) : list string :=
  match s with
  | EmptyString => [EmptyString]
  | String c s' =>
      if is_ws c then
        let r := split_go s' true in
        if in_ws then r else EmptyString :: r
      else
        match split_go s' false with
        | h :: t => String c h :: t
        | [] => [String c EmptyString]
        end
  end.

Definition split_ws (s : string) : list string := split_go s false.

(** [xs.join(sep)] *)
Fixpoint join (sep : string) (xs : list string) : string :=
  match xs with
  | [] => EmptyString
  | [x] => x
  | x :: xs' => append x (append sep (join sep xs'))
  end.

(** ** Data model (src/unnamed/part_001, models/context.ts) *)

(** [expires: z.string().datetime().nullable().optional()] *)
Inductive Nullish : Type :=
| Undefined
| Null
| Defined (s : string).

Record ContextMetadata : Type := {
  id : string;
  title : string;
  type : string;
  tags : list string;
  created : string;
  updated : string;
  expires : Nullish;
  relations : list string
}.

Record Context : Type := {
  metadata : ContextMetadata;
  content : string;
  filepath : option string
}.

Definition ctx_id (c : Context) : string := id (metadata c).

(** ** Hybrid search (src/src/storage/hybrid-search.ts) *)

Inductive MatchType : Type := exact | semantic | hybrid.

Record SearchResult : Type := {
  context : Context;
  score : Q;
  matchType : MatchType
}.

Definition res_id (r : SearchResult) : string := ctx_id (context r).

Module VectorStore.
(** [VectorSearchResult] of vector-store.ts: a context with its similarity. *)
Record VectorSearchResult : Type := {
  context : Context;
  score : Q
}.
End VectorStore.

(** The per-context body of the loop of [performTextSearch]: the final
    [score] and [hasMatch]. *)
Definition scoreContext (query : string) (ctx : Context) : Q * bool :=
  let queryLower := toLowerCase query in
  let md := metadata ctx in
  let titleMatch := includes (toLowerCase (title md)) queryLower in
  let '(score0, hasMatch0) := if titleMatch then (0 + 1, true) else (0, false) in
  let contentMatch := includes (toLowerCase (content ctx)) queryLower in
  let '(score1, hasMatch1) :=
    if contentMatch then (score0 + (8 # 10), true) else (score0, hasMatch0) in
  let tagMatch := existsb (fun tag => includes (toLowerCase tag) queryLower) (tags md) in
  let '(score2, hasMatch2) :=
    if tagMatch then (score1 + (6 # 10), true) else (score1, hasMatch1) in
  let queryWords := split_ws (toLowerCase query) in
  let contextText :=
    toLowerCase (append (title md) (append " "%string (append (content ctx)
                   (append " "%string (join " "%string (tags md)))))) in
  let wordMatches :=
    filter (fun word => Nat.ltb 2 (String.length word) && includes contextText word)
      queryWords in
  let '(score3, hasMatch3) :=
    if Nat.ltb 0 (List.length wordMatches) then
      (score2 + (inject_Z (Z.of_nat (List.length wordMatches))
                  / inject_Z (Z.of_nat (List.length queryWords))) * (4 # 10), true)
    else (score2, hasMatch2) in
  (score3, hasMatch3).

Fixpoint performTextSearch (query : string) (allContexts : list Context)
  : list SearchResult :=
  match allContexts with
  | [] => []
  | ctx :: rest =>
      let '(s, hasMatch) := scoreContext query ctx in
      if hasMatch
      then {| context := ctx; score := s; matchType := exact |}
             :: performTextSearch query rest
      else performTextSearch query rest
  end.

(** A JavaScript [Map] keyed by strings: insertion-ordered, [set] on an
    existing key replaces the value in place. *)
Fixpoint map_get {V} (k : string) (m : list (string * V)) : option V :=
  match m with
  | [] => None
  | (k', v) :: m' => if String.eqb k k' then Some v else map_get k m'
  end.

Fixpoint map_set {V} (k : string) (v : V) (m : list (string * V)) : list (string * V) :=
  match m with
  | [] => [(k, v)]
  | (k', v') :: m' => if String.eqb k k' then (k, v) :: m' else (k', v') :: map_set k v m'
  end.

(** The body of the loop over [vectorResults] in [combineResults]. *)
Definition addVectorResult (semanticWeight : Q) (combinedMap : list (string * SearchResult))
  (r : VectorStore.VectorSearchResult) : list (string * SearchResult) :=
  map_set (ctx_id (VectorStore.context r))
    {| context := VectorStore.context r;
       score := VectorStore.score r * semanticWeight;
       matchType := semantic |} combinedMap.

(** The body of the loop over [textResults] in [combineResults]. *)
Definition addTextResult (exactMatchBoost : Q) (combinedMap : list (string * SearchResult))
  (r : SearchResult) : list (string * SearchResult) :=
  let i := res_id r in
  match map_get i combinedMap with
  | Some existing =>
      map_set i {| context := context r;
                   score := score existing + score r * exactMatchBoost;
                   matchType := hybrid |} combinedMap
  | None =>
      map_set i {| context := context r;
                   score := score r * exactMatchBoost;
                   matchType := exact |} combinedMap
  end.

Definition combineResults (vectorResults : list VectorStore.VectorSearchResult)
  (textResults : list SearchResult) (semanticWeight exactMatchBoost : Q)
  : list SearchResult :=
  let combinedMap := fold_left (addVectorResult semanticWeight) vectorResults [] in
  let combinedMap := fold_left (addTextResult exactMatchBoost) textResults combinedMap in
  map snd combinedMap.

(** [Array.prototype.sort] with comparator [(a, b) => b.score - a.score]:
    a stable sort, modelled as a stable insertion sort. *)
Definition cmp_score (a b : SearchResult) : Q := score b - score a.

Fixpoint insert_by (x : SearchResult) (l : list SearchResult) : list SearchResult :=
  match l with
  | [] => [x]
  | y :: l' => if Qle_bool (cmp_score x y) 0 then x :: y :: l' else y :: insert_by x l'
  end.

Fixpoint sort_by_score (l : list SearchResult) : list SearchResult :=
  match l with
  | [] => []
  | x :: l' => insert_by x (sort_by_score l')
  end.

Record SearchOptions : Type := {
  opt_limit : option nat;
  opt_semanticWeight : option Q;
  opt_exactMatchBoost : option Q
}.

Definition getD {A} (d : A) (o : option A) : A :=
  match o with Some a => a | None => d end.

Section HybridSearch.
(** [this.vectorStore.searchSimilar(query, k)]: the semantic channel, an
    external capability that returns hits or throws. *)
Variable searchSimilar : string -> nat -> result (list VectorStore.VectorSearchResult).

Definition search (query : string) (allContexts : list Context) (options : SearchOptions)
  : result (list SearchResult) :=
  let limit := getD 10%nat (opt_limit options) in
  let semanticWeight := getD (7 # 10) (opt_semanticWeight options) in
  let exactMatchBoost := getD (3 # 10) (opt_exactMatchBoost options) in
  match searchSimilar query (limit * 2) with
  | Ok vectorResults =>
      let textResults := performTextSearch query allContexts in
      let hybridResults :=
        combineResults vectorResults textResults semanticWeight exactMatchBoost in
      Ok (firstn limit (sort_by_score hybridResults))
  | Err _ =>
      let textResults := performTextSearch query allContexts in
      Ok (firstn limit textResults)
  end.
End HybridSearch.

(** ** The fusion rule as the spec states it

    For an id, the first semantic hit and the first text hit carrying it. *)
Fixpoint find_semantic (i : string) (vr : list VectorStore.VectorSearchResult) : option Q :=
  match vr with
  | [] => None
  | r :: vr' =>
      if String.eqb i (ctx_id (VectorStore.context r)) then Some (VectorStore.score r)
      else find_semantic i vr'
  end.

Fixpoint find_text (i : string) (tr : list SearchResult) : option Q :=
  match tr with
  | [] => None
  | r :: tr' => if String.eqb i (res_id r) then Some (score r) else find_text i tr'
  end.

Definition fused_entry (vr : list VectorStore.VectorSearchResult) (tr : list SearchResult)
  (semanticWeight exactMatchBoost : Q) (i : string) : option (Q * MatchType) :=
  match find_semantic i vr, find_text i tr with
  | Some s, Some t => Some (s * semanticWeight + t * exactMatchBoost, hybrid)
  | Some s, None => Some (s * semanticWeight, semantic)
  | None, Some t => Some (t * exactMatchBoost, exact)
  | None, None => None
  end.

(** Descending order of scores. *)
Definition score_desc (a b : SearchResult) : Prop := score b <= score a.



(** ** Markdown codec (src/src/storage/markdown-parser.ts, models/context.ts)

    A persisted file is modelled at the level gray-matter exposes it: the
    front-matter object and the body.  [matter.stringify(content, data)]
    writes [data] as YAML between [---] lines and then the body, ending it
    with a newline; [matter(text)] gives back the object and the body.  The
    values written here are strings, arrays of strings and null, which
    js-yaml writes and reads back unchanged. *)

Section Codec.
Local Open Scope nat_scope.
Local Open Scope string_scope.

Inductive json : Type :=
| JNull
| JStr (s : string)
| JNum (z : Z)
| JBool (b : bool)
| JArr (xs : list json)
| JObj (kvs : list (string * json)).

Record MatterFile : Type := {
data : list (string * json);
body : string
}.

Fixpoint lookup (k : string) (o : list (string * json)) : option json :=
match o with
| [] => None
| (k', v) :: o' => if String.eqb k k' then Some v else lookup k o'
end.

Fixpoint string_rev (s : string) : string :=
match s with
| EmptyString => EmptyString
| String c s' => append (string_rev s') (String c EmptyString)
end.

Fixpoint trimStart (s : string) : string :=
match s with
| EmptyString => EmptyString
| String c s' => if is_ws c then trimStart s' else s
end.

Definition trimEnd (s : string) : string := string_rev (trimStart (string_rev s)).

(** [String.prototype.trim] *)
Definition trim (s : string) : string := trimStart (trimEnd s).

Definition newline_char : ascii := ascii_of_nat 10.

Fixpoint endsWithNewline (s : string) : bool :=
match s with
| EmptyString => false
| String c EmptyString => Ascii.eqb c newline_char
| String _ s' => endsWithNewline s'
end.

(** gray-matter's [newline(str)]: append a newline unless there is one. *)
Definition ensure_newline (s : string) : string :=
if endsWithNewline s then s else append s (String newline_char EmptyString).

(** *** Digits and the two string formats zod checks *)

Definition digit_of (c : ascii) : option nat :=
let n := nat_of_ascii c in
if andb (Nat.leb 48 n) (Nat.leb n 57) then Some (n - 48) else None.

Definition is_hex (c : ascii) : bool :=
let n := nat_of_ascii c in
(Nat.leb 48 n && Nat.leb n 57) || (Nat.leb 65 n && Nat.leb n 70)
|| (Nat.leb 97 n && Nat.leb n 102).

(** Read exactly [k] characters satisfying [ok]. *)
Fixpoint take_class (ok : ascii -> bool) (k : nat) (s : string) : option (string * string) :=
match k with
| O => Some (EmptyString, s)
| S k' =>
    match s with
    | String c s' =>
        if ok c then
          match take_class ok k' s' with
          | Some (w, rest) => Some (String c w, rest)
          | None => None
          end
        else None
    | EmptyString => None
    end
end.

Definition expect (c : ascii) (s : string) : option string :=
match s with
| String c' s' => if Ascii.eqb c c' then Some s' else None
| EmptyString => None
end.

Definition is_digit (c : ascii) : bool :=
match digit_of c with Some _ => true | None => false end.

(** [z.string().uuid()]: [8-4-4-4-12] hexadecimal digits. *)
Definition is_uuid (s : string) : bool :=
match take_class is_hex 8 s with
| Some (_, s) =>
match expect "-"%char s with
| Some s =>
match take_class is_hex 4 s with
| Some (_, s) =>
match expect "-"%char s with
| Some s =>
match take_class is_hex 4 s with
| Some (_, s) =>
match expect "-"%char s with
| Some s =>
match take_class is_hex 4 s with
| Some (_, s) =>
match expect "-"%char s with
| Some s =>
match take_class is_hex 12 s with
| Some (_, EmptyString) => true
| _ => false
end
| None => false end
| None => false end
| None => false end
| None => false end
| None => false end
| None => false end
| None => false end
| None => false end.

Fixpoint digits_value (w : string) (acc : nat) : nat :=
match w with
| EmptyString => acc
| String c w' =>
    digits_value w' (acc * 10 + match digit_of c with Some d => d | None => 0 end)
end.

(** Read the fraction digits [\d+] up to the closing [Z]. *)
Fixpoint take_digits (s : string) : string * string :=
match s with
| String c s' =>
    if is_digit c then let '(w, rest) := take_digits s' in (String c w, rest)
    else (EmptyString, s)
| EmptyString => (EmptyString, EmptyString)
end.

Record DateTime : Type := {
dt_year : nat; dt_month : nat; dt_day : nat;
dt_hour : nat; dt_minute : nat; dt_second : nat;
dt_fraction : string
}.

(** The shape [YYYY-MM-DDTHH:mm:ss(.d+)?Z] read into its fields. *)
Definition read_datetime (s : string) : option DateTime :=
match take_class is_digit 4 s with
| Some (y, s) =>
match expect "-"%char s with Some s =>
match take_class is_digit 2 s with Some (mo, s) =>
match expect "-"%char s with Some s =>
match take_class is_digit 2 s with Some (d, s) =>
match expect "T"%char s with Some s =>
match take_class is_digit 2 s with Some (h, s) =>
match expect ":"%char s with Some s =>
match take_class is_digit 2 s with Some (mi, s) =>
match expect ":"%char s with Some s =>
match take_class is_digit 2 s with Some (se, s) =>
  let dt f := {| dt_year := digits_value y 0; dt_month := digits_value mo 0;
                 dt_day := digits_value d 0; dt_hour := digits_value h 0;
                 dt_minute := digits_value mi 0; dt_second := digits_value se 0;
                 dt_fraction := f |} in
  match s with
  | String "Z"%char EmptyString => Some (dt EmptyString)
  | String "."%char s =>
      let '(f, rest) := take_digits s in
      match f, rest with
      | String _ _, String "Z"%char EmptyString => Some (dt f)
      | _, _ => None
      end
  | _ => None
  end
| None => None end | None => None end | None => None end | None => None end
| None => None end | None => None end | None => None end | None => None end
| None => None end | None => None end | None => None end.

(** [z.string().datetime()] (zod's default: UTC [Z] suffix, any precision). *)
Definition is_datetime (s : string) : bool :=
match read_datetime s with Some _ => true | None => false end.

Definition leap (y : nat) : bool :=
(Nat.eqb (y mod 4) 0 && negb (Nat.eqb (y mod 100) 0)) || Nat.eqb (y mod 400) 0.

Definition days_in_month (y m : nat) : nat :=
match m with
| 2 => if leap y then 29 else 28
| 4 | 6 | 9 | 11 => 30
| _ => 31
end.

Definition calendar_valid (d : DateTime) : bool :=
Nat.leb 1 (dt_month d) && Nat.leb (dt_month d) 12 &&
Nat.leb 1 (dt_day d) && Nat.leb (dt_day d) (days_in_month (dt_year d) (dt_month d)) &&
Nat.ltb (dt_hour d) 24 && Nat.ltb (dt_minute d) 60 && Nat.ltb (dt_second d) 60.

Definition digit_char (n : nat) : ascii := ascii_of_nat (48 + n mod 10).

(** The last [k] decimal digits of [n], most significant first. *)
Fixpoint pad_digits (k n : nat) : string :=
match k with
| O => EmptyString
| S k' => append (pad_digits k' (n / 10)) (String (digit_char n) EmptyString)
end.

(** The milliseconds of a fraction: its first three digits, padded. *)
Definition millis_of (f : string) : string :=
let fix go k f :=
  match k with
  | O => EmptyString
  | S k' =>
      match f with
      | String c f' => String c (go k' f')
      | EmptyString => String "0"%char (go k' EmptyString)
      end
  end in
go 3 f.

(** [Date.prototype.toISOString]: [YYYY-MM-DDTHH:mm:ss.sssZ]. *)
Definition format_iso (d : DateTime) : string :=
append (pad_digits 4 (dt_year d)) (append "-" (append (pad_digits 2 (dt_month d))
(append "-" (append (pad_digits 2 (dt_day d)) (append "T"
(append (pad_digits 2 (dt_hour d)) (append ":" (append (pad_digits 2 (dt_minute d))
(append ":" (append (pad_digits 2 (dt_second d))
(append "." (append (millis_of (dt_fraction d)) "Z")))))))))))).

(** [new Date(s).toISOString()] for [s] of the zod datetime shape: a
  calendar date-time is rewritten in the [toISOString] format; anything
  else is an [Err] (an invalid date throws [RangeError]; shapes JavaScript
  would still read otherwise are outside this model). *)
Definition toISOString (s : string) : result string :=
match read_datetime s with
| Some d => if calendar_valid d then Ok (format_iso d) else Err "RangeError: Invalid time value"
| None => Err "RangeError: Invalid time value"
end.

(** *** [ContextMetadataSchema.parse] *)

Definition zod_string (v : json) : result string :=
match v with JStr s => Ok s | _ => Err "ZodError: expected string" end.

Definition zod_check (ok : string -> bool) (v : json) : result string :=
match v with
| JStr s => if ok s then Ok s else Err "ZodError: invalid string"
| _ => Err "ZodError: expected string"
end.

Fixpoint zod_array (item : json -> result string) (xs : list json) : result (list string) :=
match xs with
| [] => Ok []
| x :: xs' =>
    match item x, zod_array item xs' with
    | Ok s, Ok ss => Ok (s :: ss)
    | Err e, _ => Err e
    | _, Err e => Err e
    end
end.

(** [z.array(item).default([])] *)
Definition zod_array_default (item : json -> result string) (v : option json)
: result (list string) :=
match v with
| None => Ok []
| Some (JArr xs) => zod_array item xs
| Some _ => Err "ZodError: expected array"
end.

(** [z.string().datetime().nullable().optional()] *)
Definition zod_expires (v : option json) : result Nullish :=
match v with
| None => Ok Undefined
| Some JNull => Ok Null
| Some (JStr s) => if is_datetime s then Ok (Defined s) else Err "ZodError: invalid datetime"
| Some _ => Err "ZodError: expected string"
end.

Definition required (k : string) (o : list (string * json)) : result json :=
match lookup k o with Some v => Ok v | None => Err "ZodError: required" end.

Definition ContextMetadataSchema_parse (o : list (string * json)) : result ContextMetadata :=
i <- bind (required "id" o) (zod_check is_uuid) ;;
t <- bind (required "title" o) zod_string ;;
ty <- bind (required "type" o) zod_string ;;
tg <- zod_array_default zod_string (lookup "tags" o) ;;
cr <- bind (required "created" o) (zod_check is_datetime) ;;
up <- bind (required "updated" o) (zod_check is_datetime) ;;
ex <- zod_expires (lookup "expires" o) ;;
rel <- zod_array_default (zod_check is_uuid) (lookup "relations" o) ;;
Ok {| id := i; title := t; type := ty; tags := tg; created := cr; updated := up;
      expires := ex; relations := rel |}.

(** [MarkdownParser.parse] *)
Definition parse (file : MatterFile) (fp : option string) : result Context :=
md <- ContextMetadataSchema_parse (data file) ;;
Ok {| metadata := md; content := trim (body file); filepath := fp |}.

(** [MarkdownParser.stringify] *)
Definition stringify (ctx : Context) : result MatterFile :=
let md := metadata ctx in
cr <- toISOString (created md) ;;
up <- toISOString (updated md) ;;
ex <- match expires md with
      | Defined s => if String.eqb s "" then Ok JNull
                     else bind (toISOString s) (fun x => Ok (JStr x))
      | _ => Ok JNull
      end ;;
Ok {| data := [("id", JStr (id md)); ("title", JStr (title md)); ("type", JStr (type md));
               ("tags", JArr (map JStr (tags md))); ("created", JStr cr);
               ("updated", JStr up); ("expires", ex);
               ("relations", JArr (map JStr (relations md)))];
      body := ensure_newline (content ctx) |}.

End Codec.


(** ** Entity store (src/unnamed/part_000: [ContextStore]) *)

(** [Partial<ContextMetadata>]: [None] is an absent key. *)
Record PartialMetadata : Type := {
  p_id : option string;
  p_title : option string;
  p_type : option string;
  p_tags : option (list string);
  p_created : option string;
  p_updated : option string;
  p_expires : option Nullish;
  p_relations : option (list string)
}.

(** [Partial<Context>] *)
Record PartialContext : Type := {
  u_metadata : option PartialMetadata;
  u_content : option string;
  u_filepath : option string
}.

Definition no_metadata : PartialMetadata :=
  {| p_id := None; p_title := None; p_type := None; p_tags := None; p_created := None;
     p_updated := None; p_expires := None; p_relations := None |}.

(** [{ ...md, ...p }] *)
Definition spread_metadata (md : ContextMetadata) (p : PartialMetadata) : ContextMetadata :=
  {| id := getD (id md) (p_id p); title := getD (title md) (p_title p);
     type := getD (type md) (p_type p); tags := getD (tags md) (p_tags p);
     created := getD (created md) (p_created p); updated := getD (updated md) (p_updated p);
     expires := getD (expires md) (p_expires p);
     relations := getD (relations md) (p_relations p) |}.

Definition with_updated (md : ContextMetadata) (now : string) : ContextMetadata :=
  {| id := id md; title := title md; type := type md; tags := tags md; created := created md;
     updated := now; expires := expires md; relations := relations md |}.

Definition with_filepath (c : Context) (fp : option string) : Context :=
  {| metadata := metadata c; content := content c; filepath := fp |}.

(** JavaScript truthiness of an optional string. *)
Definition truthy (o : option string) : bool :=
  match o with Some s => negb (String.eqb s "") | None => false end.

(** [s.endsWith(suffix)] *)
Definition endsWith (s suffix : string) : bool :=
  startsWith (string_rev s) (string_rev suffix).

(** *** File names (generateFilepath) *)

Definition is_lower_alnum (c : ascii) : bool :=
  let n := nat_of_ascii c in
  (Nat.leb 97 n && Nat.leb n 122) || (Nat.leb 48 n && Nat.leb n 57).

(** [s.replace(/[^a-z0-9]+/g, '-')] *)
Fixpoint replace_non_alnum (s : string) (in_run : bool) : string :=
  match s with
  | EmptyString => EmptyString
  | String c s' =>
      if is_lower_alnum c then String c (replace_non_alnum s' false)
      else if in_run then replace_non_alnum s' true
      else String "-" (replace_non_alnum s' true)
  end.

Fixpoint strip_leading (ch : ascii) (s : string) : string :=
  match s with
  | String c s' => if Ascii.eqb c ch then strip_leading ch s' else s
  | EmptyString => EmptyString
  end.

(** [s.replace(/^c+|c+$/g, '')] *)
Definition strip_both (ch : ascii) (s : string) : string :=
  string_rev (strip_leading ch (string_rev (strip_leading ch s))).

(** [s.replace(/\.\./g, '')] *)
Fixpoint remove_dotdot (s : string) : string :=
  match s with
  | String "." (String "." s') => remove_dotdot s'
  | String c s' => String c (remove_dotdot s')
  | EmptyString => EmptyString
  end.

(** [s.split(sep)] for a one-character separator. *)
Fixpoint split_on (sep : ascii) (s : string) : list string :=
  match s with
  | EmptyString => [EmptyString]
  | String c s' =>
      if Ascii.eqb c sep then EmptyString :: split_on sep s'
      else match split_on sep s' with
           | [] => [String c EmptyString]
           | w :: ws => String c w :: ws
           end
  end.

(** One segment of Node's [normalizeString]: empty and [.] segments are
    dropped; [..] removes the last kept segment unless that is [..] itself
    or there is none, in which case it is kept only above the root of a
    relative path. [stack] holds the kept segments, last first. *)
Definition norm_seg (allowAboveRoot : bool) (stack : list string) (seg : string) : list string :=
  if String.eqb seg "" || String.eqb seg "." then stack
  else if String.eqb seg ".." then
    match stack with
    | top :: rest =>
        if String.eqb top ".." then (if allowAboveRoot then ".." :: stack else stack) else rest
    | [] => if allowAboveRoot then [".."] else []
    end
  else seg :: stack.

(** [normalizeString(path, allowAboveRoot, '/', ...)] *)
Definition normalizeString (allowAboveRoot : bool) (p : string) : string :=
  join "/" (rev (fold_left (norm_seg allowAboveRoot) (split_on "/" p) [])).

(** [path.posix.normalize] *)
Definition normalize (p : string) : string :=
  if String.eqb p "" then "." else
  let isAbsolute := startsWith p "/" in
  let trailingSeparator := endsWith p "/" in
  let r := normalizeString (negb isAbsolute) p in
  if String.eqb r "" then
    (if isAbsolute then "/" else if trailingSeparator then "./" else ".")
  else
    let r' := if trailingSeparator then append r "/" else r in
    if isAbsolute then String "/" r' else r'.

(** [path.posix.join]: the non-empty arguments joined with [/], then
    normalised; [.] when every argument is empty. *)
Definition path_join (segs : list string) : string :=
  match filter (fun s => negb (String.eqb s "")) segs with
  | [] => "."
  | ne => normalize (join "/" ne)
  end.

Section Store.
Variable storePath : string.

Definition generateFilepath (ctx : Context) (customDirectory : option string) : string :=
  let md := metadata ctx in
  let sanitizedTitle :=
    substring 0 50 (strip_both "-" (replace_non_alnum (toLowerCase (title md)) false)) in
  let filename := append sanitizedTitle (append "-" (append (substring 0 8 (id md)) ".md")) in
  let directory := if truthy customDirectory then getD "" customDirectory else type md in
  let sanitizedDir := remove_dotdot (strip_both "/" directory) in
  path_join [storePath; "contexts"; sanitizedDir; filename].
End Store.

(** [MarkdownParser.createNewContext] *)
Definition createNewContext (title0 content0 type0 : string)
  (additionalMetadata : option PartialMetadata) (uuid now : string) : Context :=
  {| metadata :=
       spread_metadata
         {| id := uuid; title := title0; type := type0; tags := []; created := now;
            updated := now; expires := Undefined; relations := [] |}
         (getD no_metadata additionalMetadata);
     content := content0; filepath := None |}.

(** *** The file tree and the store monad

    The tree under [contexts/] is the list of its files in the order
    [walkDirectory] visits them, each with its front matter and body. *)
Definition Files := list (string * MatterFile).

Definition M (A : Type) : Type := Files -> result (A * Files).

Definition ret {A} (a : A) : M A := fun st => Ok (a, st).

Definition mbind {A B} (m : M A) (k : A -> M B) : M B :=
  fun st => match m st with Ok (a, st') => k a st' | Err e => Err e end.

Notation "x <~ m ;; k" := (mbind m (fun x => k)) (at level 61, m at next level, right associativity).

Definition lift {A} (r : result A) : M A :=
  fun st => match r with Ok a => Ok (a, st) | Err e => Err e end.

(** [try { m } catch (error) { console.warn(...) }] around a call returning nothing. *)
Definition try_warn (m : M unit) : M unit :=
  fun st => match m st with Ok p => Ok p | Err _ => Ok (tt, st) end.

(** A call to an external service (the semantic index, git) with the given outcome. *)
Definition external (outcome : result unit) : M unit := lift outcome.

Fixpoint file_at (path : string) (fs : Files) : option MatterFile :=
  match fs with
  | [] => None
  | (p, f) :: fs' => if String.eqb path p then Some f else file_at path fs'
  end.

Fixpoint put_file (path : string) (f : MatterFile) (fs : Files) : Files :=
  match fs with
  | [] => [(path, f)]
  | (p, f') :: fs' => if String.eqb path p then (p, f) :: fs' else (p, f') :: put_file path f fs'
  end.

Fixpoint remove_file (path : string) (fs : Files) : Files :=
  match fs with
  | [] => []
  | (p, f) :: fs' => if String.eqb path p then fs' else (p, f) :: remove_file path fs'
  end.

(** [readFile(path, 'utf-8')] *)
Definition readFile (path : string) : M MatterFile :=
  fun st => match file_at path st with
            | Some f => Ok (f, st)
            | None => Err "ENOENT: no such file or directory"
            end.

(** [writeFile(path, text, 'utf-8')] (after [mkdir -p] of its directory) *)
Definition writeFile (path : string) (f : MatterFile) : M unit :=
  fun st => Ok (tt, put_file path f st).

(** [unlink(path)] *)
Definition unlink (path : string) : M unit :=
  fun st => match file_at path st with
            | Some _ => Ok (tt, remove_file path st)
            | None => Err "ENOENT: no such file or directory"
            end.

(** [writeContext] *)
Definition writeContext (path : string) (ctx : Context) : M unit :=
  f <~ lift (stringify ctx) ;; writeFile path f.

(** [findContextFile]: the walk keeps the last matching file. *)
Definition findContextFile (i : string) : M (option string) :=
  fun st =>
    Ok (fold_left (fun found (pf : string * MatterFile) =>
          let '(path, file) := pf in
          if endsWith path ".md" && includes path (substring 0 8 i) then
            match parse file None with
            | Ok c => if String.eqb (id (metadata c)) i then Some path else found
            | Err _ => found
            end
          else found) st None, st).

Definition read (i : string) : M (option Context) :=
  fp <~ findContextFile i ;;
  match fp with
  | None => ret None
  | Some path =>
      f <~ readFile path ;;
      c <~ lift (parse f (Some path)) ;;
      ret (Some c)
  end.

Section Operations.
Variable storePath : string.
Variable autoCommit : bool.

(** [gitStore.add(filepath); gitStore.commit(message)] with the outcome [commit]. *)
Definition git_add_commit (commit : result unit) : M unit :=
  if autoCommit then external commit else ret tt.

(** [ContextStore.create]; [uuid] and [now] are [uuidv4()] and the clock. *)
Definition create (title0 content0 type0 : string) (metadata0 : option PartialMetadata)
  (directory : option string) (uuid now : string) (index commit : result unit)
  : M Context :=
  let context0 := createNewContext title0 content0 type0 metadata0 uuid now in
  let fp := generateFilepath storePath context0 directory in
  _ <~ writeContext fp context0 ;;
  _ <~ try_warn (external index) ;;
  _ <~ git_add_commit commit ;;
  ret (with_filepath context0 (Some fp)).

(** [ContextStore.update] *)
Definition update (i : string) (updates : PartialContext) (now : string)
  (index commit : result unit) : M (option Context) :=
  existing <~ read i ;;
  match existing with
  | None => ret None
  | Some ex =>
      match filepath ex with
      | None => ret None
      | Some fp =>
          let updated0 :=
            {| metadata := with_updated
                 (spread_metadata (metadata ex) (getD no_metadata (u_metadata updates))) now;
               content := if truthy (u_content updates)
                          then getD "" (u_content updates) else content ex;
               filepath := filepath ex |} in
          _ <~ writeContext fp updated0 ;;
          _ <~ try_warn (external index) ;;
          _ <~ git_add_commit commit ;;
          ret (Some updated0)
      end
  end.

(** [ContextStore.delete] *)
Definition delete (i : string) (index commit : result unit) : M bool :=
  fp <~ findContextFile i ;;
  match fp with
  | None => ret false
  | Some path =>
      context0 <~ read i ;;
      _ <~ unlink path ;;
      _ <~ try_warn (external index) ;;
      _ <~ (match context0 with Some _ => git_add_commit commit | None => ret tt end) ;;
      ret true
  end.
End Operations.

(** [list(filter)] *)
Record ListFilter : Type := {
  f_type : option string;
  f_tags : option (list string)
}.

Definition passes (filter : option ListFilter) (c : Context) : bool :=
  match filter with
  | None => true
  | Some fl =>
      (if truthy (f_type fl) then String.eqb (type (metadata c)) (getD "" (f_type fl)) else true)
      && match f_tags fl with
         | Some ((_ :: _) as ts) => forallb (fun t => existsb (String.eqb t) (tags (metadata c))) ts
         | _ => true
         end
  end.

(** What [passes] accepts, read as a proposition: a non-empty filter type
    must equal the context's type, an absent or empty one filters nothing;
    every required tag must be present, an absent or empty tag list filters
    nothing. *)
Definition filter_holds (filter : option ListFilter) (c : Context) : Prop :=
  match filter with
  | None => True
  | Some fl =>
      (forall ty, f_type fl = Some ty -> ty <> "" -> type (metadata c) = ty) /\
      (forall t, In t (getD [] (f_tags fl)) -> In t (tags (metadata c)))
  end.

Section Listing.
(** [new Date(s).getTime()] for the timestamps of parsed entities. *)
Variable getTime : string -> Z.

Definition ctx_time (c : Context) : Z := getTime (updated (metadata c)).

(** [contexts.sort((a, b) => getTime(b) - getTime(a))], a stable sort. *)
Fixpoint insert_by_time (x : Context) (l : list Context) : list Context :=
  match l with
  | [] => [x]
  | y :: l' => if Z.leb (ctx_time y - ctx_time x) 0 then x :: y :: l'
               else y :: insert_by_time x l'
  end.

Fixpoint sort_by_time (l : list Context) : list Context :=
  match l with
  | [] => []
  | x :: l' => insert_by_time x (sort_by_time l')
  end.

Definition collect (filter : option ListFilter) (st : Files) : list Context :=
  fold_left (fun acc (pf : string * MatterFile) =>
    let '(path, file) := pf in
    if endsWith path ".md" then
      match parse file (Some path) with
      | Ok c => if passes filter c then app acc [c] else acc
      | Err _ => acc
      end
    else acc) st [].

Definition list_contexts (filter : option ListFilter) : M (list Context) :=
  fun st => Ok (sort_by_time (collect filter st), st).

End Listing.

(** ** Summaries ([MarkdownParser.extractSummary]) *)

(** A line terminator for the [m] flag of a regular expression: line feed
    or carriage return. *)
Definition is_line_term (c : ascii) : bool :=
  Ascii.eqb c newline_char || Ascii.eqb c (ascii_of_nat 13).

Fixpoint hashes (k : nat) : string :=
  match k with
  | O => EmptyString
  | S k' => String "#" (hashes k')
  end.

(** The scan of [replace(/^#+\s+/gm, '')]: [HStart] and [HMid] are the
    positions at and after a line start; [HHash k] has read [k] hashes at
    a line start; [HWs nl] has read the whitespace of a match, [nl] telling
    whether its last character ends a line. *)
Inductive HdrState : Type :=
| HStart
| HMid
| HHash (k : nat)
| HWs (nl : bool).

Definition hdr_plain (bol : bool) (c : ascii) : HdrState * string :=
  if bol && Ascii.eqb c "#" then (HHash 1, EmptyString)
  else (if is_line_term c then HStart else HMid, String c EmptyString).

Definition hdr_step (st : HdrState) (c : ascii) : HdrState * string :=
  match st with
  | HStart => hdr_plain true c
  | HMid => hdr_plain false c
  | HHash k =>
      if Ascii.eqb c "#" then (HHash (S k), EmptyString)
      else if is_ws c then (HWs (is_line_term c), EmptyString)
      else (HMid, append (hashes k) (String c EmptyString))
  | HWs nl => if is_ws c then (HWs (is_line_term c), EmptyString) else hdr_plain nl c
  end.

Fixpoint strip_headers_go (st : HdrState) (s : string) : string :=
  match s with
  | EmptyString => match st with HHash k => hashes k | _ => EmptyString end
  | String c s' => let (st', out) := hdr_step st c in append out (strip_headers_go st' s')
  end.

(** [s.replace(/^#+\s+/gm, '')] *)
Definition strip_headers (s : string) : string := strip_headers_go HStart s.

(** The text before the first [stop] and the text after it. *)
Fixpoint take_until (stop : ascii) (s : string) : option (string * string) :=
  match s with
  | EmptyString => None
  | String c s' =>
      if Ascii.eqb c stop then Some (EmptyString, s')
      else match take_until stop s' with
           | Some (w, r) => Some (String c w, r)
           | None => None
           end
  end.

(** After a [[], the rest of [\[([^\]]+)\]\([^)]+\)]: the group and the
    text after the match. *)
Definition match_link (s : string) : option (string * string) :=
  match take_until "]" s with
  | Some (grp, String c rest) =>
      if String.eqb grp "" then None
      else if Ascii.eqb c "(" then
        match take_until ")" rest with
        | Some (url, tl) => if String.eqb url "" then None else Some (grp, tl)
        | None => None
        end
      else None
  | _ => None
  end.

Fixpoint links_go (fuel : nat) (s : string) : string :=
  match fuel with
  | O => s
  | S fuel' =>
      match s with
      | EmptyString => EmptyString
      | String c s' =>
          if Ascii.eqb c "[" then
            match match_link s' with
            | Some (grp, tl) => append grp (links_go fuel' tl)
            | None => String c (links_go fuel' s')
            end
          else String c (links_go fuel' s')
      end
  end.

(** [s.replace(/\[([^\]]+)\]\([^)]+\)/g, '$1')]; every step consumes a
    character, so the length of [s] is enough fuel. *)
Definition remove_links (s : string) : string := links_go (String.length s) s.

Definition is_fmt (c : ascii) : bool :=
  Ascii.eqb c "*" || Ascii.eqb c "_" || Ascii.eqb c "~" || Ascii.eqb c "`".

(** [s.replace(/[*_~`]/g, '')] *)
Fixpoint remove_fmt (s : string) : string :=
  match s with
  | EmptyString => EmptyString
  | String c s' => if is_fmt c then remove_fmt s' else String c (remove_fmt s')
  end.

(** [s.replace(/\n+/g, ' ')] *)
Fixpoint nl_to_space (s : string) (in_run : bool) : string :=
  match s with
  | EmptyString => EmptyString
  | String c s' =>
      if Ascii.eqb c newline_char then
        if in_run then nl_to_space s' true else String " " (nl_to_space s' true)
      else String c (nl_to_space s' false)
  end.

(** [s.lastIndexOf(ch)], [-1] when absent. *)
Fixpoint lastIndexOf (s : string) (ch : ascii) : Z :=
  match s with
  | EmptyString => (-1)%Z
  | String c s' =>
      let r := lastIndexOf s' ch in
      if (0 <=? r)%Z then (r + 1)%Z else if Ascii.eqb c ch then 0%Z else (-1)%Z
  end.

(** The [plainText] of [extractSummary]. *)
Definition plainText (content : string) : string :=
  trim (nl_to_space (remove_fmt (remove_links (strip_headers content))) false).

(** [MarkdownParser.extractSummary(content, maxLength)], for an integral
    [maxLength] (the default is 200); [substring] clamps a negative end
    to 0. *)
Definition extractSummary (content : string) (maxLength : Z) : string :=
  let plain := plainText content in
  if (Z.of_nat (String.length plain) <=? maxLength)%Z then plain
  else
    let truncated := substring 0 (Z.to_nat (maxLength - 3)) plain in
    let lastSpaceIndex := lastIndexOf truncated " " in
    if (0 <? lastSpaceIndex)%Z
    then append (substring 0 (Z.to_nat lastSpaceIndex) truncated) "..."
    else append truncated "...".

(** ** File watcher (src/src/storage/file-watcher.ts) *)

(** The class [[a-f0-9]]. *)
Definition is_lower_hex (c : ascii) : bool :=
  let n := nat_of_ascii c in
  (Nat.leb 48 n && Nat.leb n 57) || (Nat.leb 97 n && Nat.leb n 102).

(** [filename.match(/-([a-f0-9]{8})\.md$/)]: the pattern has a fixed length
    of 12 and is anchored at the end, so only the last 12 characters can
    match; the result is the captured group. *)
Definition short_id_match (filename : string) : option string :=
  let n := String.length filename in
  if Nat.leb 12 n then
    match substring (n - 12) 12 filename with
    | String c rest =>
        if Ascii.eqb c "-" then
          match take_class is_lower_hex 8 rest with
          | Some (w, tl) => if String.eqb tl ".md" then Some w else None
          | None => None
          end
        else None
    | EmptyString => None
    end
  else None.

(** [FileWatcher.handleFileDelete]: the short id it extracts from the
    deleted path (and only logs; nothing is removed from the index). *)
Definition handleFileDelete (filepath : string) : option string :=
  if endsWith filepath ".md"
  then short_id_match (last (split_on "/" filepath) EmptyString)
  else None.

(** ** Replication (src/src/storage/remote-git-store.ts: [pull]) *)

(** The working tree of the store, relative to its root: path and text of
    every file, tracked or not. *)
Definition Tree := list (string * string).

(** What git and the clock answer during one [pull()]; the working tree
    git leaves behind is part of the answer. *)
Record GitOutcomes : Type := {
  g_ensure : result unit;             (* ensureInitialized() *)
  g_fetch : result unit;              (* git.fetch('origin', 'main') *)
  g_behind : result nat;              (* (await git.status()).behind *)
  g_pull : result Tree;               (* git.pull('origin', 'main'): the merged tree *)
  g_stopped : Tree;                   (* the working tree when git.pull throws *)
  g_conflicted : result (list string);  (* (await git.status()).conflicted *)
  g_clock : string -> string;         (* new Date().toISOString() when backing up a file *)
  g_theirs : string -> result string; (* git.checkout(['--theirs', f]) *)
  g_add : result unit;                (* git.add('.') *)
  g_commit : result unit;             (* git.commit(...) *)
  g_reset : result unit;              (* git.reset(['--hard', 'origin/main']) *)
  g_remote : Tree                     (* the tracked files of origin/main *)
}.

(** Computations on the working tree; a throw keeps the effects made
    before it. *)
Definition G (A : Type) : Type := Tree -> result A * Tree.

Definition gret {A} (a : A) : G A := fun t => (Ok a, t).

Definition gbind {A B} (m : G A) (k : A -> G B) : G B :=
  fun t => match m t with (Ok a, t') => k a t' | (Err e, t') => (Err e, t') end.

Notation "x <+ m ;; k" := (gbind m (fun x => k)) (at level 61, m at next level, right associativity).

Definition glift {A} (r : result A) : G A := fun t => (r, t).

(** [try { m } catch (error) { h }] *)
Definition gcatch {A} (m : G A) (h : string -> G A) : G A :=
  fun t => match m t with (Ok a, t') => (Ok a, t') | (Err e, t') => h e t' end.

(** [s.replace(/[:.]/g, '-')] *)
Fixpoint replace_colon_dot (s : string) : string :=
  match s with
  | EmptyString => EmptyString
  | String c s' =>
      String (if Ascii.eqb c ":" || Ascii.eqb c "." then "-"%char else c) (replace_colon_dot s')
  end.

(** [s.replace(/\//g, '_')] *)
Fixpoint replace_slash (s : string) : string :=
  match s with
  | EmptyString => EmptyString
  | String c s' => String (if Ascii.eqb c "/" then "_"%char else c) (replace_slash s')
  end.

(** The [backupFile] of [backupConflictedFile] for [filepath]. *)
Definition backup_path (o : GitOutcomes) (filepath : string) : string :=
  path_join [".llmem"; "conflicts"; replace_colon_dot (g_clock o filepath);
             replace_slash filepath].

(** [backupConflictedFile]: a failing [copyFile] is caught and logged. *)
Definition backupConflictedFile (o : GitOutcomes) (filepath : string) : G unit :=
  fun t => match map_get filepath t with
           | Some v => (Ok tt, map_set (backup_path o filepath) v t)
           | None => (Ok tt, t)
           end.

Definition checkout_theirs (o : GitOutcomes) (filepath : string) : G unit :=
  fun t => match g_theirs o filepath with
           | Ok v => (Ok tt, map_set filepath v t)
           | Err e => (Err e, t)
           end.

(** [resolveFileConflict]: errors are caught and logged. *)
Definition resolveFileConflict (o : GitOutcomes) (filepath : string) : G unit :=
  gcatch (_ <+ backupConflictedFile o filepath ;; checkout_theirs o filepath)
         (fun _ => gret tt).

(** [for (const file of conflicted) await h(file)] *)
Fixpoint for_each (h : string -> G unit) (files : list string) : G unit :=
  match files with
  | [] => gret tt
  | f :: fs => _ <+ h f ;; for_each h fs
  end.

(** The internal dot-directory is ignored by git, so [reset --hard] keeps it. *)
Definition is_internal (p : string) : bool := startsWith p ".llmem/".

Definition git_reset_hard (o : GitOutcomes) : G unit :=
  fun t => match g_reset o with
           | Ok _ => (Ok tt, app (filter (fun pf => is_internal (fst pf)) t) (g_remote o))
           | Err e => (Err e, t)
           end.

(** [resolveConflictsAutomatically] *)
Definition resolveConflictsAutomatically (o : GitOutcomes) : G unit :=
  gcatch (conflicted <+ glift (g_conflicted o) ;;
          match conflicted with
          | [] => gret tt
          | _ :: _ =>
              _ <+ for_each (resolveFileConflict o) conflicted ;;
              _ <+ glift (g_add o) ;;
              glift (g_commit o)
          end)
         (fun _ => git_reset_hard o).

(** The merge attempt: on failure git leaves [g_stopped]. *)
Definition git_pull (o : GitOutcomes) : G unit :=
  fun t => match g_pull o with
           | Ok t' => (Ok tt, t')
           | Err e => (Err e, g_stopped o)
           end.

(** [RemoteGitStore.pull] *)
Definition pull (remoteConfigured : bool) (o : GitOutcomes) : G unit :=
  if negb remoteConfigured then gret tt else
  gcatch (_ <+ glift (g_ensure o) ;;
          _ <+ glift (g_fetch o) ;;
          behind <+ glift (g_behind o) ;;
          if Nat.ltb 0 behind
          then gcatch (git_pull o) (fun _ => resolveConflictsAutomatically o)
          else gret tt)
         (fun _ => gret tt).

(** ** Sample entities used by the witnesses and counterexamples below *)

Definition sample_metadata (i t : string) (tg : list string) : ContextMetadata :=
  {| id := i; title := t; type := "knowledge"; tags := tg;
     created := "2024-01-01T00:00:00.000Z"; updated := "2024-01-01T00:00:00.000Z";
     expires := Undefined; relations := [] |}.

Definition sample_context (i t body : string) : Context :=
  {| metadata := sample_metadata i t []; content := body; filepath := None |}.

Definition ctx_alpha : Context :=
  sample_context "550e8400-e29b-41d4-a716-446655440000" "Tokyo notes" "ramen list".
Definition ctx_beta : Context :=
  sample_context "550e8400-e29b-41d4-a716-446655440001" "Osaka" "castle and tokyo trip".

(** A semantic channel that returns [ctx_alpha] with similarity 0.9. *)
Definition semantic_alpha : string -> nat -> result (list VectorStore.VectorSearchResult) :=
  fun _ _ => Ok [{| VectorStore.context := ctx_alpha; VectorStore.score := 9 # 10 |}].

(** A semantic channel that throws. *)
Definition semantic_down : string -> nat -> result (list VectorStore.VectorSearchResult) :=
  fun _ _ => Err "connection refused".

Definition default_options : SearchOptions :=
  {| opt_limit := None; opt_semanticWeight := None; opt_exactMatchBoost := None |}.

Definition ctx_roundtrip_sample : Context :=
  {| metadata :=
       {| id := "550e8400-e29b-41d4-a716-446655440000"; title := "Trip"; type := "travel";
          tags := ["japan"]; created := "2024-01-01T00:00:00Z";
          updated := "2024-01-01T00:00:00Z"; expires := Undefined; relations := [] |};
     content := "  plans "; filepath := None |}.

(** A front matter that is valid except possibly for its [relations]. *)
Definition frontmatter_with_relations (rels : list json) : list (string * json) :=
  [("id", JStr "550e8400-e29b-41d4-a716-446655440000"); ("title", JStr "Trip");
   ("type", JStr "travel"); ("tags", JArr []);
   ("created", JStr "2024-01-01T00:00:00.000Z"); ("updated", JStr "2024-01-01T00:00:00.000Z");
   ("relations", JArr rels)].

(** A store holding one entity file. *)
Definition sample_id : string := "550e8400-e29b-41d4-a716-446655440000".
Definition sample_path : string := "/store/contexts/travel/trip-550e8400.md".
Definition sample_now : string := "2024-06-01T12:00:00.000Z".

Definition store_sample : Files :=
  [(sample_path, {| data := frontmatter_with_relations []; body := "plans" ++ String newline_char "" |})].

(** A second UUID, held by no file of [store_sample]. *)
Definition fresh_id : string := "123e4567-e89b-42d3-a456-426614174000".

(** The entity [read sample_id] finds in [store_sample]. *)
Definition ex_sample : Context :=
  {| metadata :=
       {| id := sample_id; title := "Trip"; type := "travel"; tags := [];
          created := "2024-01-01T00:00:00.000Z"; updated := "2024-01-01T00:00:00.000Z";
          expires := Undefined; relations := [] |};
     content := "plans"; filepath := Some sample_path |}.

(** [{ metadata: { title: 'x' } }] *)
Definition update_title_x : PartialContext :=
  {| u_metadata := Some {| p_id := None; p_title := Some "x"; p_type := None; p_tags := None;
                           p_created := None; p_updated := None; p_expires := None;
                           p_relations := None |};
     u_content := None; u_filepath := None |}.

(** [{ metadata: { id: ..., created: ... } }] *)
Definition update_id_created : PartialContext :=
  {| u_metadata := Some {| p_id := Some "550e8400-e29b-41d4-a716-446655440001"; p_title := None;
                           p_type := None; p_tags := None;
                           p_created := Some "2023-05-05T00:00:00.000Z"; p_updated := None;
                           p_expires := None; p_relations := None |};
     u_content := None; u_filepath := None |}.

(** A working tree with one entity file, and two answers of git to a pull
    while local and remote both changed that file. *)
Definition file_a : string := "contexts/notes/a-550e8400.md".
Definition local_tree : Tree := [(file_a, "local")].

(** git refuses to merge divergent branches ([pull.rebase] unset). *)
Definition o_refused : GitOutcomes :=
  {| g_ensure := Ok tt; g_fetch := Ok tt; g_behind := Ok 1%nat;
     g_pull := Err "fatal: Need to specify how to reconcile divergent branches.";
     g_stopped := local_tree; g_conflicted := Ok [];
     g_clock := fun _ => "2024-06-01T12:00:00.000Z"; g_theirs := fun _ => Ok "remote";
     g_add := Ok tt; g_commit := Ok tt; g_reset := Ok tt; g_remote := [(file_a, "remote")] |}.

(** The fetch brings nothing new: the branch is not behind. *)
Definition o_up_to_date : GitOutcomes :=
  {| g_ensure := Ok tt; g_fetch := Ok tt; g_behind := Ok 0%nat;
     g_pull := Ok [(file_a, "remote")]; g_stopped := local_tree; g_conflicted := Ok [];
     g_clock := fun _ => "2024-06-01T12:00:00.000Z"; g_theirs := fun _ => Ok "remote";
     g_add := Ok tt; g_commit := Ok tt; g_reset := Ok tt; g_remote := [(file_a, "remote")] |}.

(** git merges and stops on a content conflict in [file_a]. *)
Definition o_conflict : GitOutcomes :=
  {| g_ensure := Ok tt; g_fetch := Ok tt; g_behind := Ok 1%nat;
     g_pull := Err "CONFLICT (content): Merge conflict in contexts/notes/a-550e8400.md";
     g_stopped := [(file_a, "<<<<<<< HEAD local ======= remote >>>>>>> origin/main")];
     g_conflicted := Ok [file_a];
     g_clock := fun _ => "2024-06-01T12:00:00.000Z"; g_theirs := fun _ => Ok "remote";
     g_add := Ok tt; g_commit := Ok tt; g_reset := Ok tt; g_remote := [(file_a, "remote")] |}.

(** A modify/delete conflict on [file_a] (the remote deleted it, so it has
    no "theirs" version) next to a content conflict on [file_b]. *)
Definition file_b : string := "contexts/notes/b-123e4567.md".

Definition o_deleted_theirs : GitOutcomes :=
  {| g_ensure := Ok tt; g_fetch := Ok tt; g_behind := Ok 2%nat;
     g_pull := Err "CONFLICT (modify/delete): contexts/notes/a-550e8400.md deleted in origin/main";
     g_stopped := [(file_a, "local"); (file_b, "<<<<<<< HEAD b ======= remote b >>>>>>> origin/main")];
     g_conflicted := Ok [file_a; file_b];
     g_clock := fun _ => "2024-06-01T12:00:00.000Z";
     g_theirs := fun f => if String.eqb f file_a
                          then Err "error: path 'contexts/notes/a-550e8400.md' does not have their version"
                          else Ok "remote b";
     g_add := Ok tt; g_commit := Ok tt; g_reset := Ok tt; g_remote := [(file_b, "remote b")] |}.

Ltac nodup_strings :=
  repeat constructor; simpl; intuition discriminate.

(** ** Auxiliary notions used in the proofs *)

(** Every entry of the combined map is stored under the id of its context. *)
Definition keyed (m : list (string * SearchResult)) : Prop :=
  forall k v, In (k, v) m -> k = res_id v.

(** The ids of the semantic hits. *)
Definition vec_ids (vr : list VectorStore.VectorSearchResult) : list string :=
  map (fun r => ctx_id (VectorStore.context r)) vr.

Definition proj (e : SearchResult) : Q * MatchType := (score e, matchType e).

(** A string made of decimal digits only. *)
Fixpoint all_digits (w : string) : bool :=
  match w with
  | EmptyString => true
  | String c w' => is_digit c && all_digits w'
  end.

(** [list()]'s order: [a] comes before [b] when [b] is not newer. *)
Definition newer_first (getTime : string -> Z) (a b : Context) : Prop :=
  (getTime (updated (metadata b)) <= getTime (updated (metadata a)))%Z.

(** Every character of [s] satisfies [ok]. *)
Fixpoint all_chars (ok : ascii -> bool) (s : string) : bool :=
  match s with
  | EmptyString => true
  | String c s' => ok c && all_chars ok s'
  end.

(** The characters of a sanitised title: [[a-z0-9-]]. *)
Definition is_slug_char (c : ascii) : bool := is_lower_alnum c || Ascii.eqb c "-".

(** The file [p] holds the entity [i] as [findContextFile] tests it: a
    [.md] path containing the first 8 characters of [i], whose front matter
    parses with id exactly [i]. *)
Definition names_entity (i p : string) (f : MatterFile) : Prop :=
  endsWith p ".md" = true /\ includes p (substring 0 8 i) = true /\
  exists c, parse f None = Ok c /\ id (metadata c) = i.

(** The same test as a boolean on a walked entry. *)
Definition matches_id (i : string) (pf : string * MatterFile) : bool :=
  endsWith (fst pf) ".md" && includes (fst pf) (substring 0 8 i) &&
  match parse (snd pf) None with
  | Ok c => String.eqb (id (metadata c)) i
  | Err _ => false
  end.

(** The step of a walk that remembers the key of the last entry passing [g]. *)
Definition last_step {A} (g : A -> bool) (key : A -> string) (found : option string) (x : A)
  : option string :=
  if g x then Some (key x) else found.

(** * Lemmas *)

(** ** The insertion-ordered map *)

Lemma map_get_set {V} (k k' : string) (v : V) m :
  map_get k (map_set k' v m) = if String.eqb k k' then Some v else map_get k m.
Proof.
  induction m as [|[k0 v0] m IH]; simpl.
  - reflexivity.
  - destruct (String.eqb k' k0) eqn:E1.
    + apply String.eqb_eq in E1; subst k0. simpl.
      destruct (String.eqb k k'); reflexivity.
    + simpl. rewrite IH.
      destruct (String.eqb k k') eqn:E2; [|reflexivity].
      apply String.eqb_eq in E2; subst k'.
      rewrite E1. reflexivity.
Qed.

Lemma in_map_set {V} (k k' : string) (v v' : V) m :
  In (k, v) (map_set k' v' m) -> (k = k' /\ v = v') \/ In (k, v) m.
Proof.
  induction m as [|[k0 v0] m IH]; simpl.
  - intros [H|[]]. injection H as -> ->. auto.
  - destruct (String.eqb k' k0) eqn:E; simpl.
    + intros [H|H]; [injection H as -> ->; auto|auto].
    + intros [H|H]; [auto|]. destruct (IH H); auto.
Qed.

Lemma keys_map_set {V} (k : string) (v : V) m :
  forall x, In x (map fst (map_set k v m)) <-> x = k \/ In x (map fst m).
Proof.
  induction m as [|[k0 v0] m IH]; intro x; simpl.
  - intuition congruence.
  - destruct (String.eqb k k0) eqn:E; simpl.
    + apply String.eqb_eq in E; subst k0. intuition congruence.
    + rewrite IH. intuition congruence.
Qed.

Lemma nodup_map_set {V} (k : string) (v : V) m :
  NoDup (map fst m) -> NoDup (map fst (map_set k v m)).
Proof.
  induction m as [|[k0 v0] m IH]; simpl; intro Hnd.
  - constructor; [intros []|constructor].
  - inversion Hnd as [|? ? Hnin Hnd']; subst.
    destruct (String.eqb k k0) eqn:E; simpl.
    + apply String.eqb_eq in E; subst k0. constructor; assumption.
    + constructor; [|apply IH; assumption].
      rewrite keys_map_set. intros [H|H]; [|contradiction].
      subst k0. rewrite String.eqb_refl in E. discriminate.
Qed.

Lemma map_get_in {V} (k : string) (v : V) m :
  NoDup (map fst m) -> In (k, v) m -> map_get k m = Some v.
Proof.
  induction m as [|[k0 v0] m IH]; simpl; [intros _ []|].
  intros Hnd [H|H].
  - injection H as -> ->. rewrite String.eqb_refl. reflexivity.
  - inversion Hnd as [|? ? Hnin Hnd']; subst.
    destruct (String.eqb k k0) eqn:E.
    + apply String.eqb_eq in E; subst k0.
      exfalso. apply Hnin. apply (in_map fst _ (k, v)). exact H.
    + apply IH; assumption.
Qed.

Lemma map_get_some_in {V} (k : string) (v : V) m :
  map_get k m = Some v -> In (k, v) m.
Proof.
  induction m as [|[k0 v0] m IH]; simpl; [discriminate|].
  destruct (String.eqb k k0) eqn:E.
  - apply String.eqb_eq in E; subst k0. intro H; injection H as ->. auto.
  - auto.
Qed.

Lemma keyed_map_set k v m : k = res_id v -> keyed m -> keyed (map_set k v m).
Proof.
  intros Hk Hm k' v' Hin. destruct (in_map_set _ _ _ _ _ Hin) as [[-> ->]|H]; auto.
Qed.

(** ** [combineResults] *)

Lemma find_semantic_none i vr : ~ In i (vec_ids vr) -> find_semantic i vr = None.
Proof.
  induction vr as [|r vr IH]; simpl; [reflexivity|].
  intro H. destruct (String.eqb i (ctx_id (VectorStore.context r))) eqn:E.
  - apply String.eqb_eq in E. exfalso. auto.
  - apply IH. auto.
Qed.

Lemma find_text_none i tr : ~ In i (map res_id tr) -> find_text i tr = None.
Proof.
  induction tr as [|r tr IH]; simpl; [reflexivity|].
  intro H. destruct (String.eqb i (res_id r)) eqn:E.
  - apply String.eqb_eq in E. exfalso. auto.
  - apply IH. auto.
Qed.

Lemma fold_vector_get sw i vr m :
  NoDup (vec_ids vr) ->
  option_map proj (map_get i (fold_left (addVectorResult sw) vr m)) =
  match find_semantic i vr with
  | Some s => Some (s * sw, semantic)
  | None => option_map proj (map_get i m)
  end.
Proof.
  revert m. induction vr as [|r vr IH]; intros m Hnd; simpl; [reflexivity|].
  inversion Hnd as [|? ? Hnin Hnd']; subst.
  rewrite IH by assumption. unfold addVectorResult. rewrite map_get_set.
  destruct (String.eqb i (ctx_id (VectorStore.context r))) eqn:E.
  - apply String.eqb_eq in E; subst i. rewrite find_semantic_none by assumption.
    reflexivity.
  - reflexivity.
Qed.

Lemma fold_text_get eb i tr m :
  NoDup (map res_id tr) ->
  option_map proj (map_get i (fold_left (addTextResult eb) tr m)) =
  match find_text i tr with
  | Some t =>
      match option_map proj (map_get i m) with
      | Some (s, _) => Some (s + t * eb, hybrid)
      | None => Some (t * eb, exact)
      end
  | None => option_map proj (map_get i m)
  end.
Proof.
  revert m. induction tr as [|r tr IH]; intros m Hnd; simpl; [reflexivity|].
  inversion Hnd as [|? ? Hnin Hnd']; subst.
  rewrite IH by assumption. unfold addTextResult.
  destruct (String.eqb i (res_id r)) eqn:E.
  - apply String.eqb_eq in E; subst i. rewrite find_text_none by assumption.
    destruct (map_get (res_id r) m) as [e|] eqn:Hg;
      rewrite map_get_set, String.eqb_refl; simpl; rewrite ?Hg; reflexivity.
  - destruct (map_get (res_id r) m); rewrite map_get_set, E; reflexivity.
Qed.

Lemma fold_vector_inv sw vr m :
  NoDup (map fst m) -> keyed m ->
  NoDup (map fst (fold_left (addVectorResult sw) vr m)) /\
  keyed (fold_left (addVectorResult sw) vr m).
Proof.
  revert m. induction vr as [|r vr IH]; intros m Hnd Hk; simpl; [auto|].
  apply IH; unfold addVectorResult.
  - apply nodup_map_set; assumption.
  - apply keyed_map_set; [reflexivity|assumption].
Qed.

Lemma fold_text_inv eb tr m :
  NoDup (map fst m) -> keyed m ->
  NoDup (map fst (fold_left (addTextResult eb) tr m)) /\
  keyed (fold_left (addTextResult eb) tr m).
Proof.
  revert m. induction tr as [|r tr IH]; intros m Hnd Hk; simpl; [auto|].
  apply IH; unfold addTextResult; destruct (map_get (res_id r) m).
  all: first [apply nodup_map_set; assumption | apply keyed_map_set; [reflexivity|assumption]].
Qed.

Lemma nodup_values_ids (m : list (string * SearchResult)) :
  NoDup (map fst m) -> keyed m -> NoDup (map res_id (map snd m)).
Proof.
  intros Hnd Hk. replace (map res_id (map snd m)) with (map fst m); [assumption|].
  rewrite map_map. apply map_ext_in. intros [k v] Hin. apply (Hk k v Hin).
Qed.

(** The combined output, entry by entry: each id occurs once and carries the
    score and match type of the fusion rule. *)
Lemma combineResults_spec vr tr sw eb :
  NoDup (vec_ids vr) -> NoDup (map res_id tr) ->
  let out := combineResults vr tr sw eb in
  NoDup (map res_id out) /\
  (forall r, In r out -> fused_entry vr tr sw eb (res_id r) = Some (proj r)) /\
  (forall i p, fused_entry vr tr sw eb i = Some p ->
     exists r, In r out /\ res_id r = i /\ proj r = p).
Proof.
  intros Hv Ht out.
  set (m1 := fold_left (addVectorResult sw) vr []).
  set (m2 := fold_left (addTextResult eb) tr m1).
  assert (Hget : forall i, option_map proj (map_get i m2) = fused_entry vr tr sw eb i).
  { intro i. unfold m2, m1. rewrite fold_text_get by assumption.
    rewrite fold_vector_get by assumption. unfold fused_entry. simpl.
    destruct (find_semantic i vr), (find_text i tr); reflexivity. }
  destruct (fold_vector_inv sw vr [] ltac:(constructor) ltac:(intros ? ? [])) as [Hn1 Hk1].
  destruct (fold_text_inv eb tr m1 Hn1 Hk1) as [Hn2 Hk2].
  fold m2 in Hn2, Hk2.
  assert (Hout : out = map snd m2) by reflexivity.
  split; [|split].
  - rewrite Hout. apply nodup_values_ids; assumption.
  - intros r Hr. rewrite Hout in Hr. apply in_map_iff in Hr as [[k v] [Hv' Hin]].
    simpl in Hv'; subst v. rewrite <- Hget. rewrite (Hk2 k r Hin) in Hin.
    rewrite (map_get_in _ _ _ Hn2 Hin). reflexivity.
  - intros i p Hp. rewrite <- Hget in Hp.
    destruct (map_get i m2) as [e|] eqn:He; [|discriminate].
    injection Hp as <-. apply map_get_some_in in He.
    exists e. repeat split.
    + rewrite Hout. apply (in_map snd _ (i, e)). exact He.
    + symmetry. apply (Hk2 i e He).
Qed.

(** ** The stable sort *)

Lemma insert_by_perm x l : Permutation (insert_by x l) (x :: l).
Proof.
  induction l as [|y l IH]; simpl; [auto|].
  destruct (Qle_bool (cmp_score x y) 0); [auto|].
  eapply perm_trans; [apply perm_skip, IH|apply perm_swap].
Qed.

Lemma sort_by_score_perm l : Permutation (sort_by_score l) l.
Proof.
  induction l as [|x l IH]; simpl; [auto|].
  eapply perm_trans; [apply insert_by_perm|auto].
Qed.

Lemma cmp_score_le x y : Qle_bool (cmp_score x y) 0 = true <-> score y <= score x.
Proof.
  unfold cmp_score. rewrite Qle_bool_iff. split; intro H; lra.
Qed.

Lemma insert_by_sorted x l :
  Sorted score_desc l -> Sorted score_desc (insert_by x l).
Proof.
  induction 1 as [|y l Hs IH Hhd]; simpl.
  - repeat constructor.
  - destruct (Qle_bool (cmp_score x y) 0) eqn:E.
    + constructor; [constructor; assumption|]. constructor.
      apply cmp_score_le. exact E.
    + assert (Hyx : score_desc y x).
      { unfold score_desc. destruct (Qlt_le_dec (score x) (score y)) as [H|H].
        - apply Qlt_le_weak. exact H.
        - apply cmp_score_le in H. congruence. }
      constructor; [exact IH|].
      destruct l as [|z l']; simpl in *.
      * constructor. exact Hyx.
      * destruct (Qle_bool (cmp_score x z) 0); constructor;
          [exact Hyx|inversion Hhd; assumption].
Qed.

Lemma sort_by_score_sorted l : Sorted score_desc (sort_by_score l).
Proof.
  induction l as [|x l IH]; simpl; [constructor|]. apply insert_by_sorted, IH.
Qed.

Lemma firstn_sorted {A} (R : A -> A -> Prop) n l : Sorted R l -> Sorted R (firstn n l).
Proof.
  revert l. induction n as [|n IH]; intros l Hs; simpl; [constructor|].
  destruct l as [|x l]; [constructor|].
  inversion Hs as [|? ? Hs' Hhd]; subst. constructor; [apply IH; exact Hs'|].
  destruct n, l as [|y l]; simpl; constructor. inversion Hhd; assumption.
Qed.

(** ** [performTextSearch] keeps contexts, in corpus order, all as [exact] *)

Lemma performTextSearch_in q corpus r :
  In r (performTextSearch q corpus) ->
  In (context r) corpus /\ matchType r = exact /\
  scoreContext q (context r) = (score r, true).
Proof.
  induction corpus as [|c corpus IH]; simpl; [intros []|].
  destruct (scoreContext q c) as [s b] eqn:Hs.
  destruct b; [intros [<-|H]; simpl; [auto|]|]; intros; try (destruct IH as (? & ? & ?); auto).
  all: auto.
Qed.

Lemma performTextSearch_nodup q corpus :
  NoDup (map ctx_id corpus) -> NoDup (map res_id (performTextSearch q corpus)).
Proof.
  induction corpus as [|c corpus IH]; simpl; intro Hnd; [constructor|].
  inversion Hnd as [|? ? Hnin Hnd']; subst.
  destruct (scoreContext q c) as [s b]. destruct b; [|auto].
  simpl. constructor; [|auto].
  intro Hin. apply in_map_iff in Hin as [r [Hr Hin]].
  apply performTextSearch_in in Hin as (Hc & _). apply Hnin.
  unfold res_id in Hr; simpl in Hr. rewrite <- Hr. apply in_map. exact Hc.
Qed.

(** * Claims *)

(** C1. Hybrid fusion.  When the semantic channel returns the hits [vr]
    (each id at most once) over a corpus of distinct ids, the fused list
    holds each id once: with [s * semanticWeight + t * exactMatchBoost] and
    [hybrid] when both channels hit, [s * semanticWeight] and [semantic] for a
    semantic-only hit, [t * exactMatchBoost] and [exact] for a text-only hit;
    and [search] returns the first [limit] entries of a descending sort of it,
    so a descending list of at most [limit] entries (defaults 10, 0.7, 0.3). *)
Theorem search_hybrid_fusion searchSimilar query allContexts options vr :
  let limit := getD 10%nat (opt_limit options) in
  let semanticWeight := getD (7 # 10) (opt_semanticWeight options) in
  let exactMatchBoost := getD (3 # 10) (opt_exactMatchBoost options) in
  searchSimilar query (limit * 2)%nat = Ok vr ->
  NoDup (vec_ids vr) ->
  NoDup (map ctx_id allContexts) ->
  let textResults := performTextSearch query allContexts in
  let fused := combineResults vr textResults semanticWeight exactMatchBoost in
  NoDup (map res_id fused) /\
  (forall r, In r fused ->
     fused_entry vr textResults semanticWeight exactMatchBoost (res_id r) = Some (proj r)) /\
  (forall i p, fused_entry vr textResults semanticWeight exactMatchBoost i = Some p ->
     exists r, In r fused /\ res_id r = i /\ proj r = p) /\
  exists out sorted,
    search searchSimilar query allContexts options = Ok out /\
    Permutation sorted fused /\ Sorted score_desc sorted /\
    out = firstn limit sorted /\
    Sorted score_desc out /\ (length out <= limit)%nat.
Proof.
  intros limit sw eb Hvec Hnv Hnc tr fused.
  destruct (combineResults_spec vr tr sw eb Hnv (performTextSearch_nodup _ _ Hnc))
    as (H1 & H2 & H3).
  split; [exact H1|]. split; [exact H2|]. split; [exact H3|].
  exists (firstn limit (sort_by_score fused)), (sort_by_score fused).
  unfold search. fold limit sw eb. rewrite Hvec.
  repeat split.
  - apply sort_by_score_perm.
  - apply sort_by_score_sorted.
  - apply firstn_sorted, sort_by_score_sorted.
  - rewrite length_firstn. apply Nat.le_min_l.
Qed.

Lemma search_hybrid_fusion_witness :
  semantic_alpha "tokyo" (10 * 2)%nat =
    Ok [{| VectorStore.context := ctx_alpha; VectorStore.score := 9 # 10 |}] /\
  NoDup (vec_ids [{| VectorStore.context := ctx_alpha; VectorStore.score := 9 # 10 |}]) /\
  NoDup (map ctx_id [ctx_alpha; ctx_beta]) /\
  exists out, search semantic_alpha "tokyo" [ctx_alpha; ctx_beta] default_options = Ok out /\
    Sorted score_desc out /\ (length out <= 10)%nat.
Proof.
  assert (Hv : semantic_alpha "tokyo" (10 * 2)%nat =
    Ok [{| VectorStore.context := ctx_alpha; VectorStore.score := 9 # 10 |}]) by reflexivity.
  assert (Hn1 : NoDup (vec_ids [{| VectorStore.context := ctx_alpha; VectorStore.score := 9 # 10 |}]))
    by nodup_strings.
  assert (Hn2 : NoDup (map ctx_id [ctx_alpha; ctx_beta])) by nodup_strings.
  split; [exact Hv|]. split; [exact Hn1|]. split; [exact Hn2|].
  destruct (search_hybrid_fusion semantic_alpha "tokyo" [ctx_alpha; ctx_beta] default_options
              _ Hv Hn1 Hn2) as (_ & _ & _ & out & sorted & Hs & _ & _ & _ & Hso & Hl).
  exists out. auto.
Defined.

(** C10. When the semantic channel throws, [search] returns the first
    [limit] text hits in corpus order, without sorting them by score; so a
    text hit scoring above every returned entry can be cut off by the limit. *)
Theorem search_fallback_unsorted_prefix :
  (forall searchSimilar query allContexts options,
     match searchSimilar query (getD 10%nat (opt_limit options) * 2)%nat%nat with
     | Err _ =>
         search searchSimilar query allContexts options =
         Ok (firstn (getD 10%nat (opt_limit options)) (performTextSearch query allContexts))
     | Ok _ => True
     end) /\
  exists query allContexts options out r,
    search semantic_down query allContexts options = Ok out /\
    In r (performTextSearch query allContexts) /\ ~ In r out /\
    Forall (fun r' => score r' < score r) out.
Proof.
  split.
  - intros ss q corpus opts. unfold search.
    destruct (ss q (getD 10%nat (opt_limit opts) * 2)%nat); reflexivity.
  - set (opts := {| opt_limit := Some 1%nat; opt_semanticWeight := None;
                    opt_exactMatchBoost := None |}).
    exists "tokyo"%string, [ctx_beta; ctx_alpha], opts.
    exists [{| context := ctx_beta; score := 0 + (8 # 10) + 1 * (4 # 10); matchType := exact |}].
    exists {| context := ctx_alpha; score := 0 + 1 + 1 * (4 # 10); matchType := exact |}.
    split; [vm_compute; reflexivity|]. split; [vm_compute; auto|]. split.
    + simpl. intros [H|[]]. discriminate H.
    + repeat constructor.
Qed.

(** ** The codec *)

Section CodecLemmas.
Local Open Scope nat_scope.
Local Open Scope string_scope.

Lemma all_digits_app a b : all_digits (append a b) = all_digits a && all_digits b.
Proof. induction a as [|c a IH]; simpl; [reflexivity|]. rewrite IH, andb_assoc. reflexivity. Qed.

Lemma digit_char_digit n : is_digit (digit_char n) = true.
Proof.
unfold is_digit, digit_of, digit_char.
assert (H : n mod 10 < 10) by (apply Nat.mod_upper_bound; lia).
rewrite nat_ascii_embedding by lia.
replace (Nat.leb 48 (48 + n mod 10)) with true by (symmetry; apply Nat.leb_le; lia).
replace (Nat.leb (48 + n mod 10) 57) with true by (symmetry; apply Nat.leb_le; lia).
reflexivity.
Qed.

Lemma pad_digits_digits k n : all_digits (pad_digits k n) = true.
Proof.
revert n. induction k as [|k IH]; intro n; cbn [pad_digits]; [reflexivity|].
rewrite all_digits_app, IH. cbn [all_digits]. rewrite digit_char_digit. reflexivity.
Qed.

Lemma length_append (a b : string) : String.length (append a b) = String.length a + String.length b.
Proof. induction a as [|c a IH]; simpl; [reflexivity|]. rewrite IH. reflexivity. Qed.

Lemma pad_digits_length k n : String.length (pad_digits k n) = k.
Proof.
revert n. induction k as [|k IH]; intro n; cbn [pad_digits]; [reflexivity|].
rewrite length_append, IH. cbn [String.length]. lia.
Qed.

Lemma take_digits_class w rest :
all_digits w = true -> take_class is_digit (String.length w) (append w rest) = Some (w, rest).
Proof.
induction w as [|c w IH]; simpl; [reflexivity|].
intro H. apply andb_prop in H as [Hc Hw]. rewrite Hc, IH by exact Hw. reflexivity.
Qed.

Lemma take_pad k n rest :
take_class is_digit k (append (pad_digits k n) rest) = Some (pad_digits k n, rest).
Proof.
rewrite <- (pad_digits_length k n) at 1. apply take_digits_class, pad_digits_digits.
Qed.

Lemma take_digits_all s : all_digits (fst (take_digits s)) = true.
Proof.
induction s as [|c s IH]; simpl; [reflexivity|].
destruct (is_digit c) eqn:Hc; [|reflexivity].
destruct (take_digits s) as [w r]. simpl in *. rewrite Hc, IH. reflexivity.
Qed.

Ltac destruct_in H :=
repeat match type of H with
       | context [match ?x with _ => _ end] => destruct x eqn:?
       end.

Lemma read_datetime_fraction s d :
read_datetime s = Some d -> all_digits (dt_fraction d) = true.
Proof.
unfold read_datetime. intro H. destruct_in H; try discriminate;
  injection H as <-; cbn [dt_fraction]; try reflexivity.
all: match goal with
     | E : take_digits ?t = (?f, _) |- all_digits ?f = true =>
         pose proof (take_digits_all t) as Hd; rewrite E in Hd; exact Hd
     end.
Qed.

Lemma millis_of_shape f :
all_digits f = true ->
exists a b c, millis_of f = String a (String b (String c EmptyString)) /\
  is_digit a = true /\ is_digit b = true /\ is_digit c = true.
Proof.
intro Hf.
destruct f as [|a [|b [|c f]]]; simpl in *;
  repeat match goal with H : _ && _ = true |- _ => apply andb_prop in H as [? ?] end;
  eexists _, _, _; repeat split; eauto.
Qed.

Lemma format_iso_datetime d :
all_digits (dt_fraction d) = true -> is_datetime (format_iso d) = true.
Proof.
intro Hf.
destruct (millis_of_shape (dt_fraction d) Hf) as (a & b & c & Hm & Ha & Hb & Hc).
unfold is_datetime, read_datetime, format_iso. cbv beta.
repeat (rewrite take_pad; cbn -[pad_digits millis_of take_class take_digits digits_value]).
rewrite Hm. cbn -[take_class take_digits].
cbn [take_digits]. rewrite Ha, Hb, Hc. reflexivity.
Qed.

(** The output of [toISOString] passes [z.string().datetime()]. *)
Lemma toISOString_datetime s t : toISOString s = Ok t -> is_datetime t = true.
Proof.
unfold toISOString. destruct (read_datetime s) as [d|] eqn:Hr; [|discriminate].
destruct (calendar_valid d); [|discriminate]. intro H. injection H as <-.
apply format_iso_datetime, (read_datetime_fraction _ _ Hr).
Qed.

Lemma string_rev_snoc s c : string_rev (append s (String c EmptyString)) = String c (string_rev s).
Proof. induction s as [|a s IH]; simpl; [reflexivity|]. rewrite IH. reflexivity. Qed.

(** gray-matter's trailing newline is removed again by [trim]. *)
Lemma trim_ensure_newline s : trim (ensure_newline s) = trim s.
Proof.
unfold ensure_newline. destruct (endsWithNewline s); [reflexivity|].
unfold trim, trimEnd. rewrite string_rev_snoc. reflexivity.
Qed.

Lemma zod_array_strings xs : zod_array zod_string (map JStr xs) = Ok xs.
Proof. induction xs as [|x xs IH]; simpl; [reflexivity|]. rewrite IH. reflexivity. Qed.

Lemma zod_array_uuids xs :
forallb is_uuid xs = true -> zod_array (zod_check is_uuid) (map JStr xs) = Ok xs.
Proof.
induction xs as [|x xs IH]; simpl; [reflexivity|].
intro H. apply andb_prop in H as [Hx Hxs]. rewrite Hx, IH by exact Hxs. reflexivity.
Qed.

Lemma zod_array_rejects item xs x e :
In x xs -> item x = Err e -> exists e', zod_array item xs = Err e'.
Proof.
induction xs as [|y xs IH]; simpl; [intros []|].
intros [->|Hin] Hx.
- rewrite Hx. eauto.
- destruct (IH Hin Hx) as [e' He']. rewrite He'.
  destruct (item y); eauto.
Qed.

Lemma zod_array_accepts item xs ys :
zod_array item xs = Ok ys -> Forall (fun y => exists x, In x xs /\ item x = Ok y) ys.
Proof.
revert ys. induction xs as [|x xs IH]; simpl; intros ys H.
- injection H as <-. constructor.
- destruct (item x) eqn:Hx, (zod_array item xs) eqn:Hxs; try discriminate.
  injection H as <-. constructor; [eauto|].
  eapply Forall_impl; [|apply IH; reflexivity]. simpl. firstorder.
Qed.

End CodecLemmas.

(** C8 (counterexample).  [parse(stringify(e))] does not give back [e]: a
    [created] of [2024-01-01T00:00:00Z] (a valid zod datetime) comes back as
    [2024-01-01T00:00:00.000Z], an absent [expires] comes back as [null], and
    the content comes back trimmed. *)
Lemma parse_stringify_not_identity :
  match bind (stringify ctx_roundtrip_sample) (fun f => parse f None) with
  | Ok e =>
      created (metadata e) <> created (metadata ctx_roundtrip_sample) /\
      expires (metadata e) <> expires (metadata ctx_roundtrip_sample) /\
      content e <> content ctx_roundtrip_sample
  | Err _ => False
  end.
Proof. vm_compute. repeat split; discriminate. Qed.

(** C8 (amended).  For an entity whose id and relations are UUIDs and whose
    timestamps are calendar date-times of the zod datetime form,
    [parse(stringify(e))] succeeds and gives back [id], [title], [type], [tags]
    and [relations] unchanged, [created] and [updated] as their
    [toISOString] forms, [expires] as its [toISOString] form or [null] when it
    is absent, null or empty, and the content trimmed. *)
Theorem parse_stringify_roundtrip (ctx : Context) (c u : string) (x : Nullish) :
  let md := metadata ctx in
  is_uuid (id md) = true ->
  forallb is_uuid (relations md) = true ->
  toISOString (created md) = Ok c ->
  toISOString (updated md) = Ok u ->
  match expires md with
  | Defined s => (s = ""%string /\ x = Null) \/
                 (s <> ""%string /\ exists y, toISOString s = Ok y /\ x = Defined y)
  | _ => x = Null
  end ->
  bind (stringify ctx) (fun f => parse f None) =
  Ok {| metadata := {| id := id md; title := title md; type := type md; tags := tags md;
                       created := c; updated := u; expires := x;
                       relations := relations md |};
        content := trim (content ctx); filepath := None |}.
Proof.
  intros md Hid Hrel Hc Hu Hx.
  unfold stringify. fold md. rewrite Hc, Hu. cbn [bind].
  assert (Hex : exists j, (match expires md with
               | Defined s => if String.eqb s "" then Ok JNull
                              else bind (toISOString s) (fun y => Ok (JStr y))
               | _ => Ok JNull end) = Ok j /\ zod_expires (Some j) = Ok x).
  { destruct (expires md) as [| |s].
    - exists JNull. subst x. auto.
    - exists JNull. subst x. auto.
    - destruct Hx as [[-> ->]|[Hne [y [Hy ->]]]].
      + exists JNull. auto.
      + exists (JStr y). apply String.eqb_neq in Hne. rewrite Hne, Hy. split; [reflexivity|].
        simpl. rewrite (toISOString_datetime _ _ Hy). reflexivity. }
  destruct Hex as [j [Hj Hzj]]. rewrite Hj. cbn [bind].
  unfold parse, ContextMetadataSchema_parse, required.
  cbn -[is_uuid is_datetime trim zod_array zod_expires ensure_newline].
  rewrite Hid, (toISOString_datetime _ _ Hc), (toISOString_datetime _ _ Hu).
  cbn [bind]. rewrite zod_array_strings. cbn [bind]. rewrite Hzj. cbn [bind].
  rewrite (zod_array_uuids _ Hrel). cbn [bind]. rewrite trim_ensure_newline. reflexivity.
Qed.

Lemma parse_stringify_roundtrip_witness :
  is_uuid (id (metadata ctx_roundtrip_sample)) = true /\
  forallb is_uuid (relations (metadata ctx_roundtrip_sample)) = true /\
  toISOString (created (metadata ctx_roundtrip_sample)) = Ok "2024-01-01T00:00:00.000Z" /\
  toISOString (updated (metadata ctx_roundtrip_sample)) = Ok "2024-01-01T00:00:00.000Z" /\
  bind (stringify ctx_roundtrip_sample) (fun f => parse f None) =
  Ok {| metadata := {| id := "550e8400-e29b-41d4-a716-446655440000"; title := "Trip";
                       type := "travel"; tags := ["japan"];
                       created := "2024-01-01T00:00:00.000Z";
                       updated := "2024-01-01T00:00:00.000Z"; expires := Null;
                       relations := [] |};
        content := "plans"; filepath := None |}.
Proof.
  assert (H1 : is_uuid (id (metadata ctx_roundtrip_sample)) = true) by reflexivity.
  assert (H2 : forallb is_uuid (relations (metadata ctx_roundtrip_sample)) = true)
    by reflexivity.
  assert (H3 : toISOString (created (metadata ctx_roundtrip_sample)) =
               Ok "2024-01-01T00:00:00.000Z") by reflexivity.
  assert (H4 : toISOString (updated (metadata ctx_roundtrip_sample)) =
               Ok "2024-01-01T00:00:00.000Z") by reflexivity.
  split; [exact H1|]. split; [exact H2|]. split; [exact H3|]. split; [exact H4|].
  exact (parse_stringify_roundtrip ctx_roundtrip_sample _ _ Null H1 H2 H3 H4 eq_refl).
Defined.

Lemma bind_ok {A B} (r : result A) (f : A -> result B) b :
  bind r f = Ok b -> exists a, r = Ok a /\ f a = Ok b.
Proof. destruct r; simpl; [eauto|discriminate]. Qed.

Lemma bind_err {A B} (r : result A) (f : A -> result B) e :
  r = Err e -> bind r f = Err e.
Proof. intros ->. reflexivity. Qed.

(** C9 (counterexample).  Parsing a file whose [relations] lists the
    non-UUID string [not-a-uuid] fails with a validation error. *)
Lemma parse_rejects_non_uuid_relation :
  exists e, parse {| data := frontmatter_with_relations [JStr "not-a-uuid"]; body := "x" |} None
            = Err e.
Proof. eexists. vm_compute. reflexivity. Qed.

(** C9 (amended).  [relations] is validated as a list of UUID-shaped
    strings: whatever [parse] accepts has only UUIDs there, and a file
    listing a non-UUID string in [relations] is rejected. *)
Theorem parse_relations_uuid_checked (file : MatterFile) (fp : option string) :
  (forall ctx, parse file fp = Ok ctx -> forallb is_uuid (relations (metadata ctx)) = true) /\
  (forall xs s, lookup "relations" (data file) = Some (JArr xs) -> In (JStr s) xs ->
     is_uuid s = false -> exists e, parse file fp = Err e).
Proof.
  split.
  - intros ctx H. unfold parse in H.
    apply bind_ok in H as [md [Hmd H]]. injection H as <-. simpl.
    unfold ContextMetadataSchema_parse in Hmd.
    do 8 (apply bind_ok in Hmd as [? [? Hmd]]).
    injection Hmd as <-. simpl.
    match goal with
    | E : zod_array_default (zod_check is_uuid) _ = Ok ?rel |- forallb is_uuid ?rel = true =>
        rename E into Hrel
    end.
    destruct (lookup "relations" (data file)) as [[]|]; simpl in Hrel;
      try discriminate; [|injection Hrel as <-; reflexivity].
    apply zod_array_accepts in Hrel. apply forallb_forall. intros y Hy.
    rewrite Forall_forall in Hrel. destruct (Hrel y Hy) as [v [_ Hv]].
    destruct v; simpl in Hv; try discriminate.
    destruct (is_uuid s) eqn:Hs; [|discriminate]. injection Hv as <-. exact Hs.
  - intros xs s Hl Hin Hs.
    assert (Hz : exists e, zod_array_default (zod_check is_uuid) (lookup "relations" (data file))
                           = Err e).
    { rewrite Hl. simpl. apply (zod_array_rejects _ _ _ "ZodError: invalid string" Hin).
      simpl. rewrite Hs. reflexivity. }
    destruct Hz as [e He].
    unfold parse, ContextMetadataSchema_parse.
    destruct (bind (required "id" (data file)) (zod_check is_uuid)) as [?|e1]; simpl; [|eauto].
    destruct (bind (required "title" (data file)) zod_string) as [?|e1]; simpl; [|eauto].
    destruct (bind (required "type" (data file)) zod_string) as [?|e1]; simpl; [|eauto].
    destruct (zod_array_default zod_string (lookup "tags" (data file))) as [?|e1];
      simpl; [|eauto].
    destruct (bind (required "created" (data file)) (zod_check is_datetime)) as [?|e1];
      simpl; [|eauto].
    destruct (bind (required "updated" (data file)) (zod_check is_datetime)) as [?|e1];
      simpl; [|eauto].
    destruct (zod_expires (lookup "expires" (data file))) as [?|e1]; simpl; [|eauto].
    rewrite He. simpl. eauto.
Qed.

Lemma parse_relations_uuid_checked_witness :
  lookup "relations" (data {| data := frontmatter_with_relations [JStr "not-a-uuid"];
                              body := "x" |}) = Some (JArr [JStr "not-a-uuid"]) /\
  In (JStr "not-a-uuid") [JStr "not-a-uuid"] /\ is_uuid "not-a-uuid" = false /\
  exists e, parse {| data := frontmatter_with_relations [JStr "not-a-uuid"]; body := "x" |} None
            = Err e.
Proof.
  assert (H1 : lookup "relations" (data {| data := frontmatter_with_relations [JStr "not-a-uuid"];
                              body := "x" |}) = Some (JArr [JStr "not-a-uuid"])) by reflexivity.
  assert (H2 : In (JStr "not-a-uuid") [JStr "not-a-uuid"]) by (left; reflexivity).
  assert (H3 : is_uuid "not-a-uuid" = false) by reflexivity.
  split; [exact H1|]. split; [exact H2|]. split; [exact H3|].
  exact (proj2 (parse_relations_uuid_checked _ None) _ _ H1 H2 H3).
Defined.

(** ** Entity store *)

Lemma try_warn_external (outcome : result unit) st :
  try_warn (external outcome) st = Ok (tt, st).
Proof. destruct outcome as [[]|]; reflexivity. Qed.

Lemma file_at_put_file p f st : file_at p (put_file p f st) = Some f.
Proof.
  induction st as [|[q g] st IH]; simpl.
  - rewrite String.eqb_refl. reflexivity.
  - destruct (String.eqb p q) eqn:E; simpl; rewrite E; [reflexivity|exact IH].
Qed.

Lemma stringify_with_filepath c fp : stringify (with_filepath c fp) = stringify c.
Proof. reflexivity. Qed.

Lemma git_add_commit_state autoCommit commit st u st' :
  git_add_commit autoCommit commit st = Ok (u, st') -> st' = st.
Proof.
  unfold git_add_commit. destruct autoCommit; [destruct commit as [[]|]|];
    cbn; intro H; inversion H; reflexivity.
Qed.

Section IndexIrrelevance.
Variable storePath : string.
Variable autoCommit : bool.

Lemma create_index_irrelevant title0 content0 type0 md dir uuid now index commit st :
  create storePath autoCommit title0 content0 type0 md dir uuid now index commit st =
  create storePath autoCommit title0 content0 type0 md dir uuid now (Ok tt) commit st.
Proof.
  unfold create, mbind.
  destruct (writeContext _ _ st) as [[[] st1]|e]; [|reflexivity].
  rewrite !try_warn_external. reflexivity.
Qed.

Lemma update_index_irrelevant i updates now index commit st :
  update autoCommit i updates now index commit st =
  update autoCommit i updates now (Ok tt) commit st.
Proof.
  unfold update, mbind.
  destruct (read i st) as [[[ex|] st1]|e]; [|reflexivity|reflexivity].
  destruct (filepath ex) as [fp|]; [|reflexivity]. unfold mbind.
  destruct (writeContext _ _ st1) as [[[] st2]|e]; [|reflexivity].
  rewrite !try_warn_external. reflexivity.
Qed.

Lemma delete_index_irrelevant i index commit st :
  delete autoCommit i index commit st = delete autoCommit i (Ok tt) commit st.
Proof.
  unfold delete, mbind.
  destruct (findContextFile i st) as [[[path|] st1]|e]; [|reflexivity|reflexivity].
  unfold mbind.
  destruct (read i st1) as [[c st2]|e]; [|reflexivity].
  destruct (unlink path st2) as [[[] st3]|e]; [|reflexivity].
  rewrite !try_warn_external. reflexivity.
Qed.

Lemma create_writes title0 content0 type0 md dir uuid now index commit st c st' :
  create storePath autoCommit title0 content0 type0 md dir uuid now index commit st
    = Ok (c, st') ->
  exists fp f, filepath c = Some fp /\ stringify c = Ok f /\ file_at fp st' = Some f.
Proof.
  unfold create, mbind, writeContext, mbind, lift, writeFile.
  destruct (stringify _) as [f|e] eqn:Hs; [|discriminate].
  rewrite try_warn_external.
  destruct (git_add_commit autoCommit commit _) as [[u st2]|e] eqn:Hg; [|discriminate].
  apply git_add_commit_state in Hg. subst st2.
  unfold ret. intro H. inversion H; subst; clear H.
  eexists; exists f. split; [reflexivity|]. split.
  - rewrite stringify_with_filepath. exact Hs.
  - apply file_at_put_file.
Qed.

Lemma findContextFile_state i st p st' :
  findContextFile i st = Ok (p, st') -> st' = st.
Proof. unfold findContextFile. intro H. inversion H. reflexivity. Qed.

Lemma read_state i st r st' : read i st = Ok (r, st') -> st' = st.
Proof.
  unfold read, mbind.
  destruct (findContextFile i st) as [[[path|] st1]|e] eqn:Hf; [| |discriminate];
    apply findContextFile_state in Hf; subst st1.
  - unfold mbind, readFile. destruct (file_at path st); [|discriminate].
    unfold mbind, lift. destruct (parse _ _); [|discriminate].
    unfold ret. intro H. inversion H. reflexivity.
  - unfold ret. intro H. inversion H. reflexivity.
Qed.

Lemma update_writes i updates now index commit st c st' :
  update autoCommit i updates now index commit st = Ok (Some c, st') ->
  exists fp f, filepath c = Some fp /\ stringify c = Ok f /\ file_at fp st' = Some f.
Proof.
  unfold update, mbind.
  destruct (read i st) as [[[ex|] st1]|e]; [|unfold ret; discriminate|discriminate].
  destruct (filepath ex) as [fp|] eqn:Hfp; [|unfold ret; discriminate].
  unfold mbind, writeContext, mbind, lift, writeFile.
  destruct (stringify _) as [f|e] eqn:Hs; [|discriminate].
  rewrite try_warn_external.
  destruct (git_add_commit autoCommit commit _) as [[u st2]|e] eqn:Hg; [|discriminate].
  apply git_add_commit_state in Hg. subst st2.
  unfold ret. intro H. inversion H; subst; clear H.
  exists fp, f. split; [reflexivity|]. split; [exact Hs|]. apply file_at_put_file.
Qed.

Lemma delete_unlinks i index commit st st' :
  delete autoCommit i index commit st = Ok (true, st') ->
  exists path, findContextFile i st = Ok (Some path, st) /\ st' = remove_file path st.
Proof.
  unfold delete, mbind.
  destruct (findContextFile i st) as [[[path|] st1]|e] eqn:Hf; [|unfold ret; discriminate|discriminate].
  pose proof (findContextFile_state _ _ _ _ Hf); subst st1.
  unfold mbind.
  destruct (read i st) as [[c st2]|e] eqn:Hr; [|discriminate].
  apply read_state in Hr; subst st2.
  unfold unlink. destruct (file_at path st); [|discriminate].
  rewrite try_warn_external.
  destruct c as [c|]; unfold mbind.
  - destruct (git_add_commit autoCommit commit _) as [[u st2]|e] eqn:Hg; [|discriminate].
    apply git_add_commit_state in Hg. subst st2.
    unfold ret. intro H. inversion H; subst. exists path. split; reflexivity.
  - unfold ret. intro H. inversion H; subst. exists path. split; reflexivity.
Qed.
End IndexIrrelevance.

(** C6.  A throwing semantic index never changes what [create], [update] or
    [delete] do: for every index outcome each returns exactly what it returns
    when the index call succeeds, with the same file tree afterwards; and
    whenever it returns, the entity file has been written (create, update)
    or unlinked (delete). *)
Theorem index_failure_is_harmless (storePath : string) (autoCommit : bool) :
  (forall title0 content0 type0 md dir uuid now index commit st,
     create storePath autoCommit title0 content0 type0 md dir uuid now index commit st =
     create storePath autoCommit title0 content0 type0 md dir uuid now (Ok tt) commit st /\
     forall c st',
       create storePath autoCommit title0 content0 type0 md dir uuid now index commit st
         = Ok (c, st') ->
       exists fp f, filepath c = Some fp /\ stringify c = Ok f /\ file_at fp st' = Some f) /\
  (forall i updates now index commit st,
     update autoCommit i updates now index commit st =
     update autoCommit i updates now (Ok tt) commit st /\
     forall c st',
       update autoCommit i updates now index commit st = Ok (Some c, st') ->
       exists fp f, filepath c = Some fp /\ stringify c = Ok f /\ file_at fp st' = Some f) /\
  (forall i index commit st,
     delete autoCommit i index commit st = delete autoCommit i (Ok tt) commit st /\
     forall st',
       delete autoCommit i index commit st = Ok (true, st') ->
       exists path, findContextFile i st = Ok (Some path, st) /\ st' = remove_file path st).
Proof.
  split; [|split]; intros; split.
  - apply create_index_irrelevant.
  - apply create_writes.
  - apply update_index_irrelevant.
  - apply update_writes.
  - apply delete_index_irrelevant.
  - apply delete_unlinks.
Qed.




(** C6 (witness).  On the sample store, with the index throwing, [update]
    of a title writes the entity file. *)
Lemma index_failure_is_harmless_witness :
  exists c st',
    update true sample_id update_title_x sample_now (Err "index down") (Ok tt) store_sample
      = Ok (Some c, st') /\
    exists fp f, filepath c = Some fp /\ stringify c = Ok f /\ file_at fp st' = Some f.
Proof.
  do 2 eexists.
  assert (Hu : update true sample_id update_title_x sample_now (Err "index down") (Ok tt)
                 store_sample = Ok (Some _, _)) by (vm_compute; reflexivity).
  split; [exact Hu|].
  destruct (index_failure_is_harmless "/store" true) as [_ [Hupd _]].
  exact (proj2 (Hupd _ _ _ _ _ _) _ _ Hu).
Defined.

Lemma read_some_filepath i st ex st' :
  read i st = Ok (Some ex, st') -> exists p, filepath ex = Some p.
Proof.
  unfold read, mbind.
  destruct (findContextFile i st) as [[[path|] st1]|e]; [|unfold ret; discriminate|discriminate].
  unfold mbind, readFile. destruct (file_at path st1); [|discriminate].
  unfold mbind, lift. destruct (parse _ (Some path)) as [c|e] eqn:Hp; [|discriminate].
  unfold ret. intro H. inversion H; subst.
  unfold parse in Hp. destruct (ContextMetadataSchema_parse _); [|discriminate].
  cbn in Hp. inversion Hp. eexists. reflexivity.
Qed.

(** C4 (counterexample).  A partial whose metadata carries [id] and
    [created] overwrites both: [update] does not preserve them. *)
Lemma update_overwrites_id :
  match update true sample_id update_id_created sample_now (Ok tt) (Ok tt) store_sample with
  | Ok (Some c, _) => id (metadata c) <> sample_id /\
                      created (metadata c) <> created (metadata ex_sample)
  | _ => False
  end.
Proof. vm_compute. split; discriminate. Qed.

(** C4 (amended).  For an id that [read] does not find, [update] returns
    [null] and leaves the tree alone.  For an id it finds, [update] never
    returns [null]; when it returns the entity, that entity is written at the
    existing filepath and keeps it; its metadata is the existing metadata
    shallow-merged with the partial metadata, then [updated] set to now; its
    [id] and [created] are the existing ones unless the partial metadata
    supplies them; its content is the existing one when the partial gives
    none and the given one when that is a non-empty string. *)
Theorem update_read_modify_write (autoCommit : bool) (i : string) (updates : PartialContext)
  (now : string) (index commit : result unit) (st : Files) :
  (read i st = Ok (None, st) -> update autoCommit i updates now index commit st = Ok (None, st)) /\
  (forall ex, read i st = Ok (Some ex, st) ->
     (forall st', update autoCommit i updates now index commit st <> Ok (None, st')) /\
     forall c st', update autoCommit i updates now index commit st = Ok (Some c, st') ->
       exists fp f,
         filepath ex = Some fp /\ filepath c = Some fp /\
         stringify c = Ok f /\ st' = put_file fp f st /\
         metadata c = with_updated
                        (spread_metadata (metadata ex) (getD no_metadata (u_metadata updates))) now /\
         updated (metadata c) = now /\
         (p_id (getD no_metadata (u_metadata updates)) = None -> id (metadata c) = id (metadata ex)) /\
         (p_created (getD no_metadata (u_metadata updates)) = None ->
            created (metadata c) = created (metadata ex)) /\
         (u_content updates = None -> content c = content ex) /\
         (truthy (u_content updates) = true -> u_content updates = Some (content c))).
Proof.
  split.
  - intro Hr. unfold update, mbind. rewrite Hr. reflexivity.
  - intros ex Hr. destruct (read_some_filepath _ _ _ _ Hr) as [fp Hfp].
    unfold update, mbind. rewrite Hr, Hfp.
    unfold mbind, writeContext, mbind, lift, writeFile.
    destruct (stringify _) as [f|e] eqn:Hs;
      [|split; [intros st' H; discriminate|intros c st' H; discriminate]].
    rewrite try_warn_external.
    destruct (git_add_commit autoCommit commit _) as [[u st2]|e] eqn:Hg;
      [|split; [intros st' H; discriminate|intros c st' H; discriminate]].
    apply git_add_commit_state in Hg. subst st2.
    unfold ret. split; [intros st' H; discriminate|].
    intros c st' H. inversion H; subst; clear H.
    exists fp, f. cbn.
    split; [reflexivity|]. split; [reflexivity|]. split; [exact Hs|]. split; [reflexivity|].
    split; [reflexivity|]. split; [reflexivity|].
    destruct (getD no_metadata (u_metadata updates)) as [pi pt pty ptg pc pu pe pr]; cbn.
    split; [intros ->; reflexivity|]. split; [intros ->; reflexivity|].
    destruct (u_content updates) as [s|]; cbn.
    + split; [discriminate|]. intro Ht. rewrite Ht. reflexivity.
    + split; [reflexivity|discriminate].
Qed.

(** C4 (witness).  Renaming the sample entity keeps its id and filepath. *)
Lemma update_read_modify_write_witness :
  exists c st',
    update true sample_id update_title_x sample_now (Ok tt) (Ok tt) store_sample
      = Ok (Some c, st') /\
    id (metadata c) = sample_id /\ filepath c = Some sample_path.
Proof.
  assert (Hr : read sample_id store_sample = Ok (Some ex_sample, store_sample))
    by (vm_compute; reflexivity).
  do 2 eexists.
  assert (Hu : update true sample_id update_title_x sample_now (Ok tt) (Ok tt)
                 store_sample = Ok (Some _, _)) by (vm_compute; reflexivity).
  split; [exact Hu|].
  destruct (proj2 (proj2 (update_read_modify_write true sample_id update_title_x sample_now
                            (Ok tt) (Ok tt) store_sample) ex_sample Hr) _ _ Hu)
    as (fp & f & Hfp & Hcfp & _ & _ & _ & _ & Hid & _).
  split.
  - apply Hid. reflexivity.
  - rewrite Hcfp. cbn in Hfp. inversion Hfp. reflexivity.
Defined.

(** ** Listing *)

Lemma collect_fold_in filter st acc c :
  In c (fold_left (fun acc (pf : string * MatterFile) =>
      let '(path, file) := pf in
      if endsWith path ".md" then
        match parse file (Some path) with
        | Ok c => if passes filter c then app acc [c] else acc
        | Err _ => acc
        end
      else acc) st acc) <->
  In c acc \/
  exists path file, In (path, file) st /\ endsWith path ".md" = true /\
                    parse file (Some path) = Ok c /\ passes filter c = true.
Proof.
  revert acc. induction st as [|[path file] st IH]; intro acc; cbn [fold_left].
  - split; [intro H; left; exact H|]. intros [H|(p & f & [] & _)]. exact H.
  - rewrite IH. split.
    + intros [H|(p & f & Hin & He & Hp & Hf)].
      * destruct (endsWith path ".md") eqn:He; [|left; exact H].
        destruct (parse file (Some path)) as [c'|e] eqn:Hp; [|left; exact H].
        destruct (passes filter c') eqn:Hf; [|left; exact H].
        apply in_app_or in H. destruct H as [H|[H|[]]]; [left; exact H|].
        subst c'. right. exists path, file. repeat split; auto. left. reflexivity.
      * right. exists p, f. repeat split; auto. right. exact Hin.
    + intros [H|(p & f & [Hin|Hin] & He & Hp & Hf)].
      * left. destruct (endsWith path ".md"); [|exact H].
        destruct (parse file (Some path)) as [c1|e]; [|exact H].
        destruct (passes filter c1); [apply in_or_app; left|]; exact H.
      * inversion Hin; subst. left. rewrite He, Hp, Hf. apply in_or_app. right. left. reflexivity.
      * right. exists p, f. repeat split; auto.
Qed.

Lemma collect_in filter st c :
  In c (collect filter st) <->
  exists path file, In (path, file) st /\ endsWith path ".md" = true /\
                    parse file (Some path) = Ok c /\ passes filter c = true.
Proof.
  unfold collect. rewrite collect_fold_in. split.
  - intros [[]|H]. exact H.
  - intro H. right. exact H.
Qed.

Section ListingLemmas.
Variable getTime : string -> Z.

Lemma insert_by_time_perm x l : Permutation (insert_by_time getTime x l) (x :: l).
Proof.
  induction l as [|y l IH]; cbn; [reflexivity|].
  destruct (Z.leb _ 0); [reflexivity|].
  rewrite IH. apply perm_swap.
Qed.

Lemma sort_by_time_perm l : Permutation (sort_by_time getTime l) l.
Proof.
  induction l as [|x l IH]; cbn; [reflexivity|].
  rewrite insert_by_time_perm. apply perm_skip. exact IH.
Qed.

Lemma insert_by_time_sorted x l :
  Sorted (newer_first getTime) l -> Sorted (newer_first getTime) (insert_by_time getTime x l).
Proof.
  induction l as [|y l IH]; intro Hs; cbn.
  - repeat constructor.
  - destruct (Z.leb (ctx_time getTime y - ctx_time getTime x) 0) eqn:E.
    + apply Z.leb_le in E. constructor; [exact Hs|]. constructor. unfold newer_first, ctx_time in *. lia.
    + apply Z.leb_gt in E. inversion Hs; subst. constructor; [apply IH; assumption|].
      destruct l as [|z l']; cbn.
      * constructor. unfold newer_first, ctx_time in *. lia.
      * destruct (Z.leb (ctx_time getTime z - ctx_time getTime x) 0).
        -- constructor. unfold newer_first, ctx_time in *. lia.
        -- inversion H2; subst. constructor. assumption.
Qed.

Lemma sort_by_time_sorted l : Sorted (newer_first getTime) (sort_by_time getTime l).
Proof.
  induction l as [|x l IH]; cbn; [constructor|]. apply insert_by_time_sorted. exact IH.
Qed.
End ListingLemmas.

(** C5 (counterexample).  The filter type [""] is falsy and filters nothing:
    [list({ type: '' })] returns the sample entity, whose type is [travel]. *)
Lemma list_empty_type_unfiltered :
  match list_contexts (fun _ => 0%Z) (Some {| f_type := Some ""; f_tags := None |}) store_sample with
  | Ok (out, _) => exists c, In c out /\ type (metadata c) <> ""
  | Err _ => False
  end.
Proof.
  vm_compute. eexists. split; [left; reflexivity|]. discriminate.
Qed.

Lemma passes_spec filter c : passes filter c = true <-> filter_holds filter c.
Proof.
  destruct filter as [[fty req]|]; [|cbn; tauto].
  unfold passes, filter_holds. cbn [f_type f_tags]. rewrite andb_true_iff.
  assert (Htags : forall ts, forallb (fun t => existsb (String.eqb t) (tags (metadata c))) ts = true
            <-> forall t, In t ts -> In t (tags (metadata c))).
  { intro ts. rewrite forallb_forall. split; intros H t Ht; specialize (H t Ht).
    - apply existsb_exists in H. destruct H as (t' & Hin & Heq).
      apply String.eqb_eq in Heq. subst. exact Hin.
    - apply existsb_exists. exists t. split; [exact H|apply String.eqb_refl]. }
  split; intros [H1 H2]; split.
  - destruct fty as [ty|]; [|intros ty' [=]].
    intros ty' [= <-] Hne. cbn [truthy getD] in H1.
    destruct (String.eqb ty "") eqn:E; [apply String.eqb_eq in E; contradiction|].
    cbn in H1. apply String.eqb_eq in H1. exact H1.
  - destruct req as [[|t0 ts]|]; cbn [getD]; [intros t []|apply Htags, H2|intros t []].
  - destruct fty as [ty|]; cbn [truthy getD]; [|reflexivity].
    destruct (String.eqb ty "") eqn:E; cbn; [reflexivity|].
    apply String.eqb_eq, H1; [reflexivity|apply String.eqb_neq, E].
  - destruct req as [[|t0 ts]|]; [reflexivity|apply Htags, H2|reflexivity].
Qed.

(** C5 (amended).  For every filter (absent, with a type, with tags or
    with both), [list] leaves the tree alone and returns exactly the
    contexts of the [.md] files that parse and satisfy [filter_holds]: a
    non-empty filter type must equal the entity's type as a string, an
    absent or empty one filters nothing, and every required tag must be
    present.  The list is sorted by [updated], newest first. *)
Theorem list_exact_type_and_tags (getTime : string -> Z) (filter : option ListFilter)
  (st : Files) :
  exists out,
    list_contexts getTime filter st = Ok (out, st) /\
    (forall c, In c out <->
       exists path file, In (path, file) st /\ endsWith path ".md" = true /\
         parse file (Some path) = Ok c /\ filter_holds filter c) /\
    Sorted (fun a b => (getTime (updated (metadata b)) <= getTime (updated (metadata a)))%Z) out.
Proof.
  eexists. split; [reflexivity|]. split.
  - intro c.
    assert (Hp : Permutation (sort_by_time getTime (collect filter st)) (collect filter st))
      by apply sort_by_time_perm.
    split; intro H.
    + apply (Permutation_in _ Hp) in H. revert H. rewrite collect_in.
      intros (p & f & Hin & He & Hp' & Hf); exists p, f; repeat split; auto.
      apply passes_spec, Hf.
    + apply (Permutation_in _ (Permutation_sym Hp)). rewrite collect_in.
      revert H. intros (p & f & Hin & He & Hp' & Hf); exists p, f; repeat split; auto.
      apply passes_spec, Hf.
  - apply (sort_by_time_sorted getTime).
Qed.

(** ** Text scoring *)

Lemma startsWith_spec s p : startsWith s p = true <-> exists t, s = append p t.
Proof.
  revert s. induction p as [|a p IH]; intro s; cbn.
  - split; [intros _; exists s; reflexivity|intros _; destruct s; reflexivity].
  - destruct s as [|b s]; cbn.
    + split; [discriminate|intros [t H]; discriminate].
    + rewrite andb_true_iff, IH. split.
      * intros [Hab [t Ht]]. apply Ascii.eqb_eq in Hab. subst. exists t. reflexivity.
      * intros [t Ht]. inversion Ht; subst. split; [apply Ascii.eqb_refl|exists t; reflexivity].
Qed.

Lemma includes_spec s p : includes s p = true <-> exists u v, s = append u (append p v).
Proof.
  induction s as [|c s IH]; cbn [includes]; rewrite orb_true_iff, startsWith_spec.
  - split.
    + intros [[t Ht]|H]; [|discriminate]. exists EmptyString, t. exact Ht.
    + intros (u & v & H). left. destruct u as [|c u]; [exists v; exact H|discriminate].
  - rewrite IH. split.
    + intros [[t Ht]|(u & v & H)].
      * exists EmptyString, t. exact Ht.
      * exists (String c u), v. cbn. rewrite H. reflexivity.
    + intros (u & v & H). destruct u as [|d u].
      * left. exists v. exact H.
      * right. inversion H; subst. exists u, v. reflexivity.
Qed.

Lemma append_assoc_s a b c : append a (append b c) = append (append a b) c.
Proof. induction a as [|x a IH]; cbn; [reflexivity|rewrite IH; reflexivity]. Qed.

Lemma includes_app_l a b w : includes a w = true -> includes (append a b) w = true.
Proof.
  rewrite !includes_spec. intros (u & v & ->). exists u, (append v b).
  rewrite <- !append_assoc_s. reflexivity.
Qed.

Lemma includes_app_r a b w : includes b w = true -> includes (append a b) w = true.
Proof.
  rewrite !includes_spec. intros (u & v & ->). exists (append a u), v.
  rewrite <- !append_assoc_s. reflexivity.
Qed.

Lemma includes_space_cons c w :
  includes (String c w) " " = false -> c <> " "%char /\ includes w " " = false.
Proof.
  intro H.
  change (includes (String c w) " ") with (startsWith (String c w) " " || includes w " ") in H.
  apply orb_false_iff in H. destruct H as [H1 H2]. split; [|exact H2].
  intro E. subst c. destruct w; cbn in H1; discriminate H1.
Qed.

(** A word without spaces that starts a string containing a space at
    position [length a] fits inside [a]. *)
Lemma prefix_before_space w v a b :
  includes w " " = false -> append w v = append a (String " " b) ->
  exists v', a = append w v'.
Proof.
  revert a. induction w as [|c w IH]; intros a Hw H.
  - exists a. reflexivity.
  - apply includes_space_cons in Hw. destruct Hw as [Hc Hw].
    destruct a as [|d a]; cbn in H; inversion H; subst.
    + contradiction.
    + destruct (IH a Hw H2) as [v' ->]. exists v'. reflexivity.
Qed.

Lemma split_at_space u w v a b :
  includes w " " = false -> append u (append w v) = append a (String " " b) ->
  (exists u' v', a = append u' (append w v')) \/ (exists u' v', b = append u' (append w v')).
Proof.
  revert a. induction u as [|c u IH]; intros a Hw H; cbn in H.
  - left. destruct (prefix_before_space _ _ _ _ Hw H) as [v' ->]. exists EmptyString, v'.
    reflexivity.
  - destruct a as [|d a]; cbn in H; inversion H; subst.
    + right. exists u, v. reflexivity.
    + destruct (IH a Hw H2) as [(u' & v' & ->)|Hb]; [left|right; exact Hb].
      exists (String d u'), v'. reflexivity.
Qed.

(** A word without spaces occurs in [a ++ " " ++ b] iff it occurs in [a] or in [b]. *)
Lemma includes_space_app a b w :
  includes w " " = false ->
  includes (append a (String " " b)) w = includes a w || includes b w.
Proof.
  intro Hw. apply eq_true_iff_eq. rewrite orb_true_iff. split.
  - rewrite includes_spec. intros (u & v & H). symmetry in H.
    destruct (split_at_space _ _ _ _ _ Hw H) as [Ha|Hb]; [left|right]; apply includes_spec; assumption.
  - intros [Ha|Hb].
    + apply includes_app_l. exact Ha.
    + apply includes_app_r. cbn. apply (includes_app_r (String " " EmptyString) b w) in Hb.
      exact Hb.
Qed.

Lemma includes_empty_s w : includes EmptyString w = true -> w = EmptyString.
Proof. destruct w; cbn; [reflexivity|discriminate]. Qed.

Lemma includes_join ts w :
  includes w " " = false -> w <> EmptyString ->
  includes (join " " ts) w = existsb (fun t => includes t w) ts.
Proof.
  intros Hw Hne. induction ts as [|t ts IH].
  - cbn [join existsb]. destruct (includes EmptyString w) eqn:E; [|reflexivity].
    apply includes_empty_s in E. contradiction.
  - destruct ts as [|t' ts'].
    + cbn. rewrite orb_false_r. reflexivity.
    + change (join " " (t :: t' :: ts')) with (append t (append " " (join " " (t' :: ts')))).
      cbn [append]. rewrite includes_space_app by exact Hw. rewrite IH. reflexivity.
Qed.

Lemma toLowerCase_append a b : toLowerCase (append a b) = append (toLowerCase a) (toLowerCase b).
Proof. induction a as [|c a IH]; cbn; [reflexivity|rewrite IH; reflexivity]. Qed.

Lemma toLowerCase_join ts :
  toLowerCase (join " " ts) = join " " (map toLowerCase ts).
Proof.
  induction ts as [|t ts IH]; [reflexivity|].
  destruct ts as [|t' ts']; [reflexivity|].
  change (join " " (t :: t' :: ts')) with (append t (append " " (join " " (t' :: ts')))).
  rewrite !toLowerCase_append, IH. reflexivity.
Qed.

Lemma startsWith_space c w : startsWith (String c w) " " = Ascii.eqb " " c.
Proof.
  change (Ascii.eqb " " c && startsWith w EmptyString = Ascii.eqb " " c).
  destruct w; apply andb_true_r.
Qed.

(** The pieces of [split(/\s+/)] contain no space. *)
Lemma split_go_no_space s b w : In w (split_go s b) -> includes w " " = false.
Proof.
  revert b w. induction s as [|c s IH]; intros b w Hin; cbn in Hin.
  - destruct Hin as [<-|[]]. reflexivity.
  - destruct (is_ws c) eqn:Hc.
    + destruct b.
      * exact (IH true w Hin).
      * destruct Hin as [<-|Hin]; [reflexivity|exact (IH true w Hin)].
    + destruct (split_go s false) as [|h t] eqn:Hs.
      * destruct Hin as [<-|[]]. change (includes (String c EmptyString) " ")
          with (startsWith (String c EmptyString) " " || false).
        rewrite startsWith_space. destruct (Ascii.eqb " " c) eqn:E; [|reflexivity].
        apply Ascii.eqb_eq in E. subst c. discriminate Hc.
      * destruct Hin as [<-|Hin].
        -- change (includes (String c h) " ") with (startsWith (String c h) " " || includes h " ").
           rewrite (IH false h) by (rewrite Hs; left; reflexivity).
           rewrite orb_false_r, startsWith_space.
           destruct (Ascii.eqb " " c) eqn:E; [|reflexivity].
           apply Ascii.eqb_eq in E. subst c. discriminate Hc.
        -- apply (IH false w). rewrite Hs. right. exact Hin.
Qed.

Lemma existsb_map_s {A B} (f : B -> bool) (g : A -> B) l :
  existsb f (map g l) = existsb (fun x => f (g x)) l.
Proof. induction l as [|x l IH]; cbn; [reflexivity|rewrite IH; reflexivity]. Qed.

Lemma coverage_zero (d : Q) : inject_Z (Z.of_nat 0) / d == 0.
Proof. unfold Qdiv. cbn [Z.of_nat]. rewrite Qmult_0_l. reflexivity. Qed.

(** C2 (counterexample).  The scorer compares lower-cased strings: for the
    query [Tokyo], [ctx_beta] (title [Osaka], content [castle and tokyo trip],
    no tags) is returned with score 0.8 + 1/1 * 0.4 although [Tokyo] is a
    substring of none of its fields. *)
Lemma text_search_case_insensitive :
  includes (title (metadata ctx_beta)) "Tokyo" = false /\
  includes (content ctx_beta) "Tokyo" = false /\ tags (metadata ctx_beta) = [] /\
  match performTextSearch "Tokyo" [ctx_beta] with
  | [r] => context r = ctx_beta /\ score r == 6 # 5 /\ matchType r = exact
  | _ => False
  end.
Proof.
  split; [reflexivity|]. split; [reflexivity|]. split; [reflexivity|].
  vm_compute. split; [reflexivity|]. split; reflexivity.
Qed.

(** C2 (amended).  With [q] the lower-cased query, a word [found] when it
    occurs in the lower-cased title, content or one of the lower-cased tags,
    and [words] the pieces of [q.split(/\s+/)] (empty pieces included), the
    score of a context is [1.0] if [q] occurs in its lower-cased title, plus
    [0.8] if in its lower-cased content, plus [0.6] if in some lower-cased
    tag, plus [0.4] times the number of found words longer than 2 over the
    number of [words]; the context is kept, with that score and [exact],
    iff one of these four signals fired. *)
Theorem text_score_rule (query : string) :
  (forall ctx : Context,
     let q := toLowerCase query in
     let words := split_ws q in
     let inTitle w := includes (toLowerCase (title (metadata ctx))) w in
     let inContent w := includes (toLowerCase (content ctx)) w in
     let inTags w := existsb (fun t => includes (toLowerCase t) w) (tags (metadata ctx)) in
     let found := filter (fun w => Nat.ltb 2 (String.length w) &&
                                   (inTitle w || inContent w || inTags w)) words in
     fst (scoreContext query ctx) ==
       (if inTitle q then 1 else 0) + (if inContent q then 8 # 10 else 0) +
       (if inTags q then 6 # 10 else 0) +
       inject_Z (Z.of_nat (length found)) / inject_Z (Z.of_nat (length words)) * (4 # 10) /\
     snd (scoreContext query ctx) =
       (inTitle q || inContent q || inTags q || Nat.ltb 0 (length found))) /\
  (forall corpus : list Context,
     performTextSearch query corpus =
     map (fun ctx => {| context := ctx; score := fst (scoreContext query ctx); matchType := exact |})
         (filter (fun ctx => snd (scoreContext query ctx)) corpus)).
Proof.
  split.
  - intro ctx. cbv zeta. unfold scoreContext. cbv zeta.
    assert (Hf :
      filter (fun word => Nat.ltb 2 (String.length word) &&
        includes (toLowerCase (append (title (metadata ctx)) (append " " (append (content ctx)
                   (append " " (join " " (tags (metadata ctx)))))))) word)
        (split_ws (toLowerCase query)) =
      filter (fun w => Nat.ltb 2 (String.length w) &&
        (includes (toLowerCase (title (metadata ctx))) w || includes (toLowerCase (content ctx)) w ||
         existsb (fun t => includes (toLowerCase t) w) (tags (metadata ctx))))
        (split_ws (toLowerCase query))).
    { apply filter_ext_in. intros w Hw. destruct (Nat.ltb 2 (String.length w)) eqn:L; [|reflexivity]. cbn [andb].
        pose proof (split_go_no_space _ _ _ Hw) as Hsp.
        assert (Hne : w <> EmptyString) by (intros ->; discriminate L).
        rewrite !toLowerCase_append. cbn [toLowerCase lower_ascii].
        change (String (lower_ascii " ") EmptyString) with " ".
        cbn [append]. rewrite !includes_space_app by exact Hsp.
        rewrite toLowerCase_join, includes_join by assumption.
        rewrite existsb_map_s, orb_assoc. reflexivity. }
    rewrite Hf. clear Hf.
    destruct (includes (toLowerCase (title (metadata ctx))) (toLowerCase query));
    destruct (includes (toLowerCase (content ctx)) (toLowerCase query));
    destruct (existsb _ (tags (metadata ctx)));
    match goal with
    | |- context [Nat.ltb 0 (length ?f)] => destruct (Nat.ltb 0 (length f)) eqn:L
    end; cbn [fst snd]; split; try reflexivity; try ring;
    apply Nat.ltb_ge in L; apply Nat.le_0_r in L; rewrite L, coverage_zero; ring.
  - induction corpus as [|ctx rest IH]; [reflexivity|]. cbn [performTextSearch filter].
    destruct (scoreContext query ctx) as [s h] eqn:E. cbn [fst snd].
    destruct h; cbn [map]; rewrite ?E; cbn [fst]; rewrite IH; reflexivity.
Qed.

(** ** Conflict resolution *)

Section Resolution.
Variable o : GitOutcomes.

Lemma resolveFileConflict_effect f t :
  resolveFileConflict o f t =
  (Ok tt, match g_theirs o f with
          | Ok v => map_set f v (match map_get f t with
                                 | Some w => map_set (backup_path o f) w t
                                 | None => t end)
          | Err _ => match map_get f t with
                     | Some w => map_set (backup_path o f) w t
                     | None => t end
          end).
Proof.
  unfold resolveFileConflict, gcatch, gbind, backupConflictedFile, checkout_theirs, gret.
  destruct (map_get f t); destruct (g_theirs o f); reflexivity.
Qed.

Lemma resolveFileConflict_frame f t k :
  k <> f -> k <> backup_path o f ->
  map_get k (snd (resolveFileConflict o f t)) = map_get k t.
Proof.
  intros H1 H2. rewrite resolveFileConflict_effect. cbn [snd].
  apply String.eqb_neq in H1. apply String.eqb_neq in H2.
  destruct (g_theirs o f); destruct (map_get f t);
    rewrite ?map_get_set, ?H1, ?H2, ?map_get_set, ?H2; reflexivity.
Qed.

Lemma for_each_resolve fs t :
  for_each (resolveFileConflict o) fs t = (Ok tt, snd (for_each (resolveFileConflict o) fs t)).
Proof.
  revert t. induction fs as [|f fs IH]; intro t; [reflexivity|].
  cbn [for_each]. unfold gbind. rewrite resolveFileConflict_effect. apply IH.
Qed.

Lemma for_each_resolve_step f fs t :
  snd (for_each (resolveFileConflict o) (f :: fs) t) =
  snd (for_each (resolveFileConflict o) fs (snd (resolveFileConflict o f t))).
Proof.
  cbn [for_each]. unfold gbind. rewrite resolveFileConflict_effect. reflexivity.
Qed.

Lemma for_each_frame fs t k :
  ~ In k fs -> ~ In k (map (backup_path o) fs) ->
  map_get k (snd (for_each (resolveFileConflict o) fs t)) = map_get k t.
Proof.
  revert t. induction fs as [|f fs IH]; intros t H1 H2; [reflexivity|].
  rewrite for_each_resolve_step, IH.
  - apply resolveFileConflict_frame; intro E; subst; [apply H1|apply H2]; left; reflexivity.
  - intro H. apply H1. right. exact H.
  - intro H. apply H2. right. exact H.
Qed.

Lemma for_each_resolves fs t :
  NoDup (map (backup_path o) fs) ->
  (forall f f', In f fs -> In f' fs -> backup_path o f <> f') ->
  forall f, In f fs ->
    (forall v, g_theirs o f = Ok v ->
       map_get f (snd (for_each (resolveFileConflict o) fs t)) = Some v) /\
    (forall w, map_get f t = Some w ->
       map_get (backup_path o f) (snd (for_each (resolveFileConflict o) fs t)) = Some w).
Proof.
  revert t. induction fs as [|f0 fs IH]; intros t Hnd Hdis f Hin; [destruct Hin|].
  cbn [map] in Hnd. apply NoDup_cons_iff in Hnd. destruct Hnd as [Hnot Hnd].
  assert (Hdis' : forall f f', In f fs -> In f' fs -> backup_path o f <> f')
    by (intros g g' Hg Hg'; apply Hdis; right; assumption).
  rewrite for_each_resolve_step.
  destruct (String.eqb f f0) eqn:Ef.
  - apply String.eqb_eq in Ef. subst f.
    assert (Hf0 : ~ In f0 fs)
      by (intro H; apply Hnot; apply in_map; exact H).
    assert (Hf0b : ~ In f0 (map (backup_path o) fs))
      by (intros H; apply in_map_iff in H; destruct H as (g & Hg & Hgin);
          apply (Hdis g f0); [right; exact Hgin|left; reflexivity|exact Hg]).
    assert (Hb0 : ~ In (backup_path o f0) fs)
      by (intro H; apply (Hdis f0 (backup_path o f0)); [left; reflexivity|right; exact H|reflexivity]).
    assert (Hbb : backup_path o f0 <> f0)
      by (apply Hdis; left; reflexivity).
    apply String.eqb_neq in Hbb.
    split.
    + intros v Hv. rewrite for_each_frame by assumption.
      rewrite resolveFileConflict_effect, Hv. cbn [snd].
      rewrite map_get_set, String.eqb_refl. reflexivity.
    + intros w Hw. rewrite for_each_frame by assumption.
      rewrite resolveFileConflict_effect, Hw. cbn [snd].
      destruct (g_theirs o f0); rewrite !map_get_set, ?Hbb, String.eqb_refl;
        reflexivity.
  - destruct Hin as [E|Hin]; [subst; rewrite String.eqb_refl in Ef; discriminate|].
    apply String.eqb_neq in Ef.
    destruct (IH (snd (resolveFileConflict o f0 t)) Hnd Hdis' f Hin) as [IH1 IH2].
    split; [exact IH1|].
    intros w Hw. apply IH2. rewrite resolveFileConflict_frame; [exact Hw|exact Ef|].
    intro E. apply (Hdis f0 f); [left; reflexivity|right; exact Hin|symmetry; exact E].
Qed.
End Resolution.

Lemma pull_returns rc o t : fst (pull rc o t) = Ok tt.
Proof.
  unfold pull, gcatch. destruct (negb rc); [reflexivity|].
  destruct (gbind _ _ t) as [[[]|e] t']; reflexivity.
Qed.

(** C7 (counterexample).  Local and remote both changed [file_a]; with no
    [pull.rebase] or merge strategy configured, git refuses to reconcile the
    divergent branches and reports no conflicted file.  [pull()] logs that it
    resolved the conflicts and returns, but the working tree keeps the local
    text, the remote text is not checked out and no backup is written. *)
Lemma pull_refused_keeps_local :
  pull true o_refused local_tree = (Ok tt, local_tree) /\
  map_get file_a local_tree = Some "local" /\ g_theirs o_refused file_a = Ok "remote" /\
  forallb (fun p => negb (startsWith p ".llmem/conflicts")) (map fst local_tree) = true.
Proof. vm_compute. repeat split. Qed.

(** X17: [pull()] never throws.  When the merge fails and git reports no
    conflicted file, the working tree is left as git left it.  When git
    reports conflicted files [fs], the checkout of the remote version, [add]
    and [commit] succeed, the backup paths of [fs] are pairwise distinct and
    no backup path is itself one of the conflicted files, then each
    conflicted file afterwards holds the remote ([theirs]) version, and its
    backup under [.llmem/conflicts/<timestamp>/] holds the file as the
    stopped merge left it in the working tree. *)
Theorem pull_resolves_reported_conflicts :
  (forall rc o t, fst (pull rc o t) = Ok tt) /\
  (forall o t n e,
     g_ensure o = Ok tt -> g_fetch o = Ok tt -> g_behind o = Ok (S n) -> g_pull o = Err e ->
     g_conflicted o = Ok [] -> pull true o t = (Ok tt, g_stopped o)) /\
  (forall o t n e fs,
     g_ensure o = Ok tt -> g_fetch o = Ok tt -> g_behind o = Ok (S n) -> g_pull o = Err e ->
     g_conflicted o = Ok fs -> g_add o = Ok tt -> g_commit o = Ok tt ->
     NoDup (map (backup_path o) fs) ->
     (forall f f', In f fs -> In f' fs -> backup_path o f <> f') ->
     forall f, In f fs ->
       (forall v, g_theirs o f = Ok v -> map_get f (snd (pull true o t)) = Some v) /\
       (forall w, map_get f (g_stopped o) = Some w ->
          map_get (backup_path o f) (snd (pull true o t)) = Some w)).
Proof.
  split; [exact pull_returns|]. split.
  - intros o t n e He Hf Hb Hp Hc.
    unfold pull, gcatch, gbind, glift. cbn [negb]. rewrite He, Hf, Hb. cbn [Nat.ltb Nat.leb].
    unfold git_pull. rewrite Hp.
    unfold resolveConflictsAutomatically, gcatch, gbind, glift. rewrite Hc. reflexivity.
  - intros o t n e fs He Hf Hb Hp Hc Ha Hm Hnd Hdis f Hin.
    assert (Hpull : snd (pull true o t) =
                    snd (for_each (resolveFileConflict o) fs (g_stopped o))).
    { unfold pull, gcatch, gbind, glift. cbn [negb]. rewrite He, Hf, Hb. cbn [Nat.ltb Nat.leb].
      unfold git_pull. rewrite Hp.
      unfold resolveConflictsAutomatically, gcatch, gbind, glift. rewrite Hc.
      destruct fs as [|f0 fs']; [destruct Hin|].
      rewrite for_each_resolve, Ha, Hm. reflexivity. }
    rewrite Hpull. apply for_each_resolves; assumption.
Qed.

(** X17 (witness).  For the content conflict of [o_conflict], [file_a]
    ends up with the remote text and its backup holds the conflicted file. *)
Lemma pull_resolves_reported_conflicts_witness :
  map_get file_a (snd (pull true o_conflict local_tree)) = Some "remote" /\
  map_get (backup_path o_conflict file_a) (snd (pull true o_conflict local_tree)) =
    Some "<<<<<<< HEAD local ======= remote >>>>>>> origin/main".
Proof.
  destruct pull_resolves_reported_conflicts as [_ [_ H]].
  destruct (H o_conflict local_tree 0%nat
              "CONFLICT (content): Merge conflict in contexts/notes/a-550e8400.md" [file_a]
              eq_refl eq_refl eq_refl eq_refl eq_refl eq_refl eq_refl
              ltac:(repeat constructor; intros [])
              ltac:(intros f f' [<-|[]] [<-|[]]; vm_compute; discriminate)
              file_a (or_introl eq_refl)) as [H1 H2].
  split; [apply H1; reflexivity|apply H2; reflexivity].
Defined.

(** * Further properties of the code *)

(** ** Finding an entity's file *)

Section LastMatch.
Context {A : Type} (g : A -> bool) (key : A -> string).

Lemma last_none l acc :
  (forall x, In x l -> g x = false) -> fold_left (last_step g key) l acc = acc.
Proof.
  revert acc. induction l as [|x l IH]; intros acc H; simpl; [reflexivity|].
  unfold last_step at 2. rewrite (H x (or_introl eq_refl)). apply IH. intros y Hy. apply H; right; exact Hy.
Qed.

Lemma last_hit pre x post acc :
  g x = true -> (forall y, In y post -> g y = false) ->
  fold_left (last_step g key) (app pre (x :: post)) acc = Some (key x).
Proof.
  intros Hx Hpost. rewrite fold_left_app. simpl. unfold last_step at 2. rewrite Hx.
  apply last_none. exact Hpost.
Qed.

Lemma last_split l p :
  fold_left (last_step g key) l None = Some p ->
  exists pre x post, l = app pre (x :: post) /\ key x = p /\ g x = true /\
                     forall y, In y post -> g y = false.
Proof.
  induction l as [|x l IH] using rev_ind; simpl; [discriminate|].
  rewrite fold_left_app. simpl. unfold last_step at 1. destruct (g x) eqn:Hx.
  - intro H. injection H as <-. exists l, x, []. repeat split; auto. intros y [].
  - intro H. destruct (IH H) as (pre & y & post & -> & Hk & Hy & Hpost).
    exists pre, y, (app post [x]). rewrite <- app_assoc. repeat split; auto.
    intros z Hz. apply in_app_or in Hz as [Hz|[<-|[]]]; auto.
Qed.

Lemma last_none_inv l :
  fold_left (last_step g key) l None = None -> forall x, In x l -> g x = false.
Proof.
  induction l as [|x l IH] using rev_ind; simpl; [intros _ _ []|].
  rewrite fold_left_app. simpl. unfold last_step at 1. destruct (g x) eqn:Hx; [discriminate|].
  intros H y Hy. apply in_app_or in Hy as [Hy|[<-|[]]]; auto.
Qed.

(** When every hit has key [p] and there is a hit, the walk ends on [p]. *)
Lemma last_unique l p :
  (forall x, In x l -> g x = true -> key x = p) -> (exists x, In x l /\ g x = true) ->
  fold_left (last_step g key) l None = Some p.
Proof.
  intros Hk [x [Hin Hx]].
  destruct (fold_left (last_step g key) l None) as [q|] eqn:Hf.
  - apply last_split in Hf as (pre & y & post & Hl & <- & Hy & _).
    f_equal. apply Hk; [rewrite Hl; apply in_or_app; right; left; reflexivity|exact Hy].
  - rewrite (last_none_inv l Hf x Hin) in Hx. discriminate.
Qed.
End LastMatch.

Lemma matches_id_iff i p f : matches_id i (p, f) = true <-> names_entity i p f.
Proof.
  unfold matches_id, names_entity. cbn [fst snd].
  rewrite !andb_true_iff. destruct (parse f None) as [c|e].
  - rewrite String.eqb_eq. split.
    + intros [[H1 H2] H3]. eauto.
    + intros (H1 & H2 & c' & Hc & Hid). injection Hc as <-. auto.
  - split; [intros [_ H]; discriminate|intros (_ & _ & c & Hc & _); discriminate].
Qed.

Lemma findContextFile_fold i st :
  findContextFile i st =
  Ok (fold_left (last_step (matches_id i) fst) st None, st).
Proof.
  assert (H : forall acc, fold_left (fun found (pf : string * MatterFile) =>
      let '(path, file) := pf in
      if endsWith path ".md" && includes path (substring 0 8 i) then
        match parse file None with
        | Ok c => if String.eqb (id (metadata c)) i then Some path else found
        | Err _ => found
        end
      else found) st acc = fold_left (last_step (matches_id i) fst) st acc).
  2: unfold findContextFile; rewrite H; reflexivity.
  induction st as [|[p f] st IH]; intro acc; simpl; [reflexivity|].
  rewrite <- IH. f_equal. unfold last_step, matches_id. cbn [fst snd].
  destruct (endsWith p ".md" && includes p (substring 0 8 i)); [|reflexivity].
  destruct (parse f None) as [c|e]; [|reflexivity].
  destruct (String.eqb (id (metadata c)) i); reflexivity.
Qed.

Lemma not_matches i p f : matches_id i (p, f) = false <-> ~ names_entity i p f.
Proof.
  rewrite <- matches_id_iff. destruct (matches_id i (p, f)); split; congruence.
Qed.

Lemma file_at_in p f st : NoDup (map fst st) -> In (p, f) st -> file_at p st = Some f.
Proof.
  induction st as [|[q g] st IH]; simpl; [intros _ []|].
  intros Hnd Hin. inversion Hnd as [|? ? Hnin Hnd']; subst.
  destruct Hin as [Heq|Hin].
  - injection Heq as -> ->. rewrite String.eqb_refl. reflexivity.
  - destruct (String.eqb p q) eqn:E.
    + apply String.eqb_eq in E; subst q. exfalso. apply Hnin.
      apply (in_map fst) in Hin. exact Hin.
    + apply IH; assumption.
Qed.

Lemma in_app_cons {A} (pre post : list A) x : In x (app pre (x :: post)).
Proof. apply in_or_app. right. left. reflexivity. Qed.

(** [findContextFile(id)] reads the tree without changing it and returns
    the last walked file that holds the entity [id] (a [.md] path containing
    the first 8 characters of [id], whose front matter parses with exactly
    that id); it returns [null] when no file holds it. *)
Theorem findContextFile_finds_last i st :
  exists r, findContextFile i st = Ok (r, st) /\
  match r with
  | Some p =>
      exists pre f post, st = app pre ((p, f) :: post) /\ names_entity i p f /\
                         forall p' f', In (p', f') post -> ~ names_entity i p' f'
  | None => forall p f, In (p, f) st -> ~ names_entity i p f
  end.
Proof.
  rewrite findContextFile_fold. eexists. split; [reflexivity|].
  destruct (fold_left (last_step (matches_id i) fst) st None) as [p|] eqn:Hf.
  - apply last_split in Hf as (pre & [q f] & post & -> & Hk & Hx & Hpost). cbn in Hk; subst q.
    exists pre, f, post. split; [reflexivity|]. split; [apply matches_id_iff; exact Hx|].
    intros p' f' Hin. apply not_matches, Hpost, Hin.
  - intros p f Hin. apply not_matches. exact (last_none_inv _ _ _ Hf _ Hin).
Qed.

Lemma parse_filepath f fp c : parse f fp = Ok c -> filepath c = fp.
Proof.
  unfold parse. destruct (ContextMetadataSchema_parse (data f)); [|discriminate].
  cbn. intro H. injection H as <-. reflexivity.
Qed.

Lemma parse_metadata f fp fp' c :
  parse f fp = Ok c -> parse f fp' = Ok (with_filepath c fp').
Proof.
  unfold parse. destruct (ContextMetadataSchema_parse (data f)); [|discriminate].
  cbn. intro H. injection H as <-. reflexivity.
Qed.



Lemma read_none i st :
  (forall p f, In (p, f) st -> ~ names_entity i p f) -> read i st = Ok (None, st).
Proof.
  intro H. unfold read, mbind. rewrite findContextFile_fold, last_none; [reflexivity|].
  intros [p f] Hin. apply not_matches, H, Hin.
Qed.

Lemma in_remove_file p x st :
  NoDup (map fst st) -> In x (remove_file p st) -> In x st /\ fst x <> p.
Proof.
  induction st as [|[q g] st IH]; simpl; [intros _ []|].
  intro Hnd. inversion Hnd as [|? ? Hnin Hnd']; subst.
  destruct (String.eqb p q) eqn:E.
  - apply String.eqb_eq in E; subst q. intro Hin. split; [right; exact Hin|].
    intro Hx. apply Hnin. rewrite <- Hx. apply in_map, Hin.
  - intros [<-|Hin]; [split; [left; reflexivity|]|].
    + cbn. intro Hq. subst q. rewrite String.eqb_refl in E. discriminate.
    + destruct (IH Hnd' Hin). split; [right|]; assumption.
Qed.

Lemma delete_false autoCommit i index commit st st' :
  delete autoCommit i index commit st = Ok (false, st') ->
  st' = st /\ forall p f, In (p, f) st -> ~ names_entity i p f.
Proof.
  destruct (findContextFile_finds_last i st) as [r [Hf Hr]].
  unfold delete, mbind. rewrite Hf. destruct r as [path|].
  - unfold mbind. destruct (read i st) as [[c st2]|e]; [|discriminate].
    destruct (unlink path st2) as [[[] st3]|e]; [|discriminate].
    rewrite try_warn_external. destruct c; unfold mbind;
      [destruct (git_add_commit autoCommit commit st3) as [[[] ?]|e]; [|discriminate]|];
      unfold ret; discriminate.
  - unfold ret. intro H. injection H as <-. split; [reflexivity|exact Hr].
Qed.

(** When at most one file holds the entity [id] and paths are distinct, a
    [delete(id)] that returns leaves no file holding [id]: a following
    [read(id)] returns [null]. [delete] returns [true] exactly when some file
    held the entity. *)
Theorem delete_then_read autoCommit i index commit st b st' :
  NoDup (map fst st) ->
  (forall p1 f1 p2 f2, In (p1, f1) st -> In (p2, f2) st ->
     names_entity i p1 f1 -> names_entity i p2 f2 -> p1 = p2) ->
  delete autoCommit i index commit st = Ok (b, st') ->
  (b = true <-> exists p f, In (p, f) st /\ names_entity i p f) /\
  read i st' = Ok (None, st').
Proof.
  intros Hnd Huniq Hd. destruct b.
  - destruct (delete_unlinks _ _ _ _ _ _ Hd) as [path [Hf ->]].
    destruct (findContextFile_finds_last i st) as [r [Hf' Hr]].
    rewrite Hf in Hf'. injection Hf' as <-.
    destruct Hr as (pre & f & post & Hst & Hn & _).
    assert (Hin : In (path, f) st) by (rewrite Hst; apply in_app_cons).
    split; [split; [intros _; eauto|reflexivity]|].
    apply read_none. intros p g Hpg Hng.
    destruct (in_remove_file _ _ _ Hnd Hpg) as [Hpg' Hne]. apply Hne.
    exact (Huniq p g path f Hpg' Hin Hng Hn).
  - destruct (delete_false _ _ _ _ _ _ Hd) as [-> Hnone].
    split; [split; [discriminate|intros (p & f & Hin & Hn); exact (False_ind _ (Hnone p f Hin Hn))]|].
    apply read_none. exact Hnone.
Qed.

Lemma delete_then_read_witness :
  NoDup (map fst store_sample) /\
  (forall p1 f1 p2 f2, In (p1, f1) store_sample -> In (p2, f2) store_sample ->
     names_entity sample_id p1 f1 -> names_entity sample_id p2 f2 -> p1 = p2) /\
  delete true sample_id (Ok tt) (Ok tt) store_sample = Ok (true, []) /\
  ((true = true <-> exists p f, In (p, f) store_sample /\ names_entity sample_id p f) /\
   read sample_id [] = Ok (None, [])).
Proof.
  assert (Hnd : NoDup (map fst store_sample)) by nodup_strings.
  assert (Hu : forall p1 f1 p2 f2, In (p1, f1) store_sample -> In (p2, f2) store_sample ->
     names_entity sample_id p1 f1 -> names_entity sample_id p2 f2 -> p1 = p2).
  { intros p1 f1 p2 f2 [H1|[]] [H2|[]] _ _. injection H1 as <- _. injection H2 as <- _.
    reflexivity. }
  assert (Hd : delete true sample_id (Ok tt) (Ok tt) store_sample = Ok (true, [])) by (vm_compute; reflexivity).
  split; [exact Hnd|]. split; [exact Hu|]. split; [exact Hd|].
  exact (delete_then_read true sample_id (Ok tt) (Ok tt) store_sample true [] Hnd Hu Hd).
Defined.

(** ** Reading back what [create] and [update] write *)

Lemma stringify_parse_parts ctx f :
  stringify ctx = Ok f ->
  exists cr up x, toISOString (created (metadata ctx)) = Ok cr /\
    toISOString (updated (metadata ctx)) = Ok up /\
    match expires (metadata ctx) with
    | Defined s => (s = ""%string /\ x = Null) \/
                   (s <> ""%string /\ exists y, toISOString s = Ok y /\ x = Defined y)
    | _ => x = Null
    end.
Proof.
  unfold stringify. cbv zeta. destruct (toISOString (created (metadata ctx))) as [cr|e]; [|discriminate].
  destruct (toISOString (updated (metadata ctx))) as [up|e]; [|discriminate].
  cbn [bind]. exists cr, up. destruct (expires (metadata ctx)) as [| |s].
  - exists Null. auto.
  - exists Null. auto.
  - destruct (String.eqb s "") eqn:Es.
    + exists Null. apply String.eqb_eq in Es. auto.
    + destruct (toISOString s) as [y|e] eqn:Hy; [|discriminate].
      exists (Defined y). apply String.eqb_neq in Es. split; [reflexivity|]. split; [reflexivity|].
      right. eauto.
Qed.

(** The file [stringify] writes parses back, with any [filepath]. *)
Lemma stringify_parse ctx f fp :
  let md := metadata ctx in
  is_uuid (id md) = true -> forallb is_uuid (relations md) = true ->
  stringify ctx = Ok f ->
  exists cr up x, toISOString (created md) = Ok cr /\ toISOString (updated md) = Ok up /\
    match expires md with
    | Defined s => (s = ""%string /\ x = Null) \/
                   (s <> ""%string /\ exists y, toISOString s = Ok y /\ x = Defined y)
    | _ => x = Null
    end /\
    parse f fp =
    Ok {| metadata := {| id := id md; title := title md; type := type md; tags := tags md;
                         created := cr; updated := up; expires := x;
                         relations := relations md |};
          content := trim (content ctx); filepath := fp |}.
Proof.
  intros md Hid Hrel Hs.
  destruct (stringify_parse_parts _ _ Hs) as (cr & up & x & Hc & Hu & Hx).
  change (metadata ctx) with md in Hc, Hu, Hx.
  exists cr, up, x. split; [exact Hc|]. split; [exact Hu|]. split; [exact Hx|].
  revert Hs. unfold stringify. cbv zeta. fold md. rewrite Hc, Hu. cbn [bind].
  assert (Hex : exists j, (match expires md with
               | Defined s => if String.eqb s "" then Ok JNull
                              else bind (toISOString s) (fun y => Ok (JStr y))
               | _ => Ok JNull end) = Ok j /\ zod_expires (Some j) = Ok x).
  { destruct (expires md) as [| |s].
    - exists JNull. subst x. auto.
    - exists JNull. subst x. auto.
    - destruct Hx as [[-> ->]|[Hne [y [Hy ->]]]].
      + exists JNull. auto.
      + exists (JStr y). apply String.eqb_neq in Hne. rewrite Hne, Hy. split; [reflexivity|].
        simpl. rewrite (toISOString_datetime _ _ Hy). reflexivity. }
  destruct Hex as [j [Hj Hzj]]. rewrite Hj. cbn [bind]. intro Hs. injection Hs as <-.
  unfold parse, ContextMetadataSchema_parse, required.
  cbn -[is_uuid is_datetime trim zod_array zod_expires ensure_newline].
  rewrite Hid, (toISOString_datetime _ _ Hc), (toISOString_datetime _ _ Hu).
  cbn [bind]. rewrite zod_array_strings. cbn [bind]. rewrite Hzj. cbn [bind].
  rewrite (zod_array_uuids _ Hrel). cbn [bind]. rewrite trim_ensure_newline. reflexivity.
Qed.

Lemma append_empty_s s : append s EmptyString = s.
Proof. induction s as [|c s IH]; cbn; [reflexivity|rewrite IH; reflexivity]. Qed.

Lemma string_rev_append a b : string_rev (append a b) = append (string_rev b) (string_rev a).
Proof.
  induction a as [|c a IH]; cbn [append string_rev].
  - symmetry. apply append_empty_s.
  - rewrite IH. symmetry. apply append_assoc_s.
Qed.

Lemma startsWith_append a b p : startsWith a p = true -> startsWith (append a b) p = true.
Proof.
  rewrite !startsWith_spec. intros [t ->]. exists (append t b). symmetry. apply append_assoc_s.
Qed.

Lemma endsWith_append u x : endsWith (append u x) x = true.
Proof.
  unfold endsWith. rewrite string_rev_append. apply startsWith_append.
  apply startsWith_spec. exists EmptyString. symmetry. apply append_empty_s.
Qed.

Lemma endsWith_append_l u x w : endsWith x w = true -> endsWith (append u x) w = true.
Proof.
  unfold endsWith. rewrite string_rev_append. apply startsWith_append.
Qed.

Lemma includes_self w : includes w w = true.
Proof.
  apply includes_spec. exists EmptyString, EmptyString. cbn. symmetry. apply append_empty_s.
Qed.

Lemma join_cons_ne sep y rest : rest <> [] -> join sep (y :: rest) = append y (append sep (join sep rest)).
Proof. destruct rest; [contradiction|reflexivity]. Qed.

Lemma join_snoc sep xs x : exists u, join sep (app xs [x]) = append u x.
Proof.
  induction xs as [|y xs IH]; cbn [app].
  - exists EmptyString. reflexivity.
  - rewrite join_cons_ne by (destruct xs; discriminate). destruct IH as [u ->].
    exists (append y (append sep u)). rewrite <- !append_assoc_s. reflexivity.
Qed.

Lemma all_chars_append ok a b : all_chars ok (append a b) = all_chars ok a && all_chars ok b.
Proof. induction a as [|c a IH]; cbn; [reflexivity|rewrite IH; apply andb_assoc]. Qed.

Lemma all_chars_rev ok s : all_chars ok (string_rev s) = all_chars ok s.
Proof.
  induction s as [|c s IH]; cbn [string_rev]; [reflexivity|].
  rewrite all_chars_append, IH. cbn. rewrite andb_true_r. apply andb_comm.
Qed.

Lemma all_chars_strip_leading ok ch s : all_chars ok s = true -> all_chars ok (strip_leading ch s) = true.
Proof.
  induction s as [|c s IH]; cbn; [reflexivity|].
  intros H. destruct (Ascii.eqb c ch); [apply IH; apply andb_true_iff in H; apply H|exact H].
Qed.

Lemma all_chars_substring ok n m s : all_chars ok s = true -> all_chars ok (substring n m s) = true.
Proof.
  revert n m. induction s as [|c s IH]; intros n m H.
  - destruct n, m; reflexivity.
  - apply andb_true_iff in H as [Hc Hs]. destruct n as [|n]; cbn.
    + destruct m as [|m]; [reflexivity|]. cbn. rewrite Hc. apply IH. exact Hs.
    + apply IH. exact Hs.
Qed.

Lemma length_substring0 m s : (String.length (substring 0 m s) <= m)%nat.
Proof.
  revert m. induction s as [|c s IH]; intros [|m]; cbn; try lia.
  specialize (IH m). lia.
Qed.

Lemma replace_non_alnum_slug s b : all_chars is_slug_char (replace_non_alnum s b) = true.
Proof.
  revert b. induction s as [|c s IH]; intros b; cbn; [reflexivity|].
  destruct (is_lower_alnum c) eqn:E.
  - cbn. unfold is_slug_char. rewrite E. apply IH.
  - destruct b; [apply IH|]. cbn. apply IH.
Qed.

Lemma remove_dotdot_cons c s :
  remove_dotdot (String c s) =
  if Ascii.eqb c "." then
    match s with
    | String d s' => if Ascii.eqb d "." then remove_dotdot s' else String c (remove_dotdot s)
    | EmptyString => String c EmptyString
    end
  else String c (remove_dotdot s).
Proof.
  destruct c as [[] [] [] [] [] [] [] []]; try reflexivity.
  destruct s as [|d s']; [reflexivity|].
  destruct d as [[] [] [] [] [] [] [] []]; reflexivity.
Qed.

Lemma includes_cons c s p : includes (String c s) p = startsWith (String c s) p || includes s p.
Proof. reflexivity. Qed.

Lemma remove_dotdot_no_dotdot s : includes (remove_dotdot s) ".." = false.
Proof.
  induction s as [s IH] using (well_founded_induction
    (Wf_nat.well_founded_ltof _ String.length)).
  destruct s as [|c s]; [reflexivity|]. rewrite remove_dotdot_cons.
  destruct (Ascii.eqb c ".") eqn:Hc.
  - destruct s as [|d s']; [apply Ascii.eqb_eq in Hc; subst c; reflexivity|].
    destruct (Ascii.eqb d ".") eqn:Hd.
    + apply IH. unfold Wf_nat.ltof. cbn. lia.
    + pose proof (IH (String d s') ltac:(unfold Wf_nat.ltof; cbn; lia)) as Hrec.
      rewrite remove_dotdot_cons, Hd in Hrec |- *. apply Ascii.eqb_eq in Hc. subst c.
      rewrite includes_cons, Hrec, orb_false_r. cbn [startsWith].
      rewrite (Ascii.eqb_sym "." d), Hd. reflexivity.
  - rewrite includes_cons, (IH s ltac:(unfold Wf_nat.ltof; cbn; lia)), orb_false_r.
    cbn [startsWith]. rewrite Ascii.eqb_sym, Hc. reflexivity.
Qed.

Lemma sanitized_title_slug s :
  all_chars is_slug_char (substring 0 50 (strip_both "-" (replace_non_alnum s false))) = true.
Proof.
  apply all_chars_substring. unfold strip_both. rewrite all_chars_rev.
  apply all_chars_strip_leading. rewrite all_chars_rev.
  apply all_chars_strip_leading, replace_non_alnum_slug.
Qed.

Lemma all_chars_impl (ok1 ok2 : ascii -> bool) s :
  (forall c, ok1 c = true -> ok2 c = true) -> all_chars ok1 s = true -> all_chars ok2 s = true.
Proof.
  intros Himp. induction s as [|c s IH]; cbn; [reflexivity|].
  intros H. apply andb_true_iff in H as [Hc Hs]. rewrite (Himp c Hc), (IH Hs). reflexivity.
Qed.

Lemma split_on_nonempty sep s : split_on sep s <> [].
Proof.
  destruct s as [|c s]; cbn; [discriminate|].
  destruct (Ascii.eqb c sep); [discriminate|]. destruct (split_on sep s); discriminate.
Qed.

Lemma split_on_no_sep sep s :
  all_chars (fun c => negb (Ascii.eqb c sep)) s = true -> split_on sep s = [s].
Proof.
  induction s as [|c s IH]; cbn; [reflexivity|].
  intros H. apply andb_true_iff in H as [Hc Hs]. apply negb_true_iff in Hc.
  rewrite Hc, (IH Hs). reflexivity.
Qed.

Lemma split_on_app_sep sep a b :
  exists ws, ws <> [] /\ split_on sep (append a (String sep b)) = app ws (split_on sep b).
Proof.
  induction a as [|c a IH]; cbn [append split_on].
  - exists [EmptyString]. rewrite Ascii.eqb_refl. split; [discriminate|reflexivity].
  - destruct IH as [ws [Hne ->]]. destruct (Ascii.eqb c sep).
    + exists (EmptyString :: ws). split; [discriminate|reflexivity].
    + destruct ws as [|w ws]; [contradiction|]. exists (String c w :: ws).
      split; [discriminate|reflexivity].
Qed.

Lemma last_app_ne {A} (ws l : list A) d : l <> [] -> last (app ws l) d = last l d.
Proof.
  intros Hl. induction ws as [|w ws IH]; [reflexivity|].
  cbn [app]. rewrite <- IH. destruct (app ws l) eqn:E; [|reflexivity].
  apply app_eq_nil in E as [_ E]. contradiction.
Qed.

Lemma join_snoc_sep sep xs x :
  exists u, join sep (app xs [x]) = append u x /\
            (u = EmptyString \/ exists v, u = append v sep).
Proof.
  induction xs as [|y xs IH]; cbn [app].
  - exists EmptyString. split; [reflexivity|left; reflexivity].
  - rewrite join_cons_ne by (destruct xs; discriminate). destruct IH as [u [-> Hu]].
    exists (append y (append sep u)). split; [rewrite <- !append_assoc_s; reflexivity|].
    right. destruct Hu as [->|[v ->]].
    + exists y. rewrite append_empty_s. reflexivity.
    + exists (append y (append sep v)). rewrite <- !append_assoc_s. reflexivity.
Qed.

Lemma last_segment_no_slash w :
  all_chars (fun c => negb (Ascii.eqb c "/")) w = true ->
  last (split_on "/" w) EmptyString = w.
Proof. intros H. rewrite (split_on_no_sep _ _ H). reflexivity. Qed.

Lemma last_segment_after_slash v w :
  all_chars (fun c => negb (Ascii.eqb c "/")) w = true ->
  last (split_on "/" (append (append v "/") w)) EmptyString = w.
Proof.
  intros H. rewrite <- append_assoc_s. cbn [append].
  destruct (split_on_app_sep "/" v w) as [ws [_ ->]].
  rewrite last_app_ne by apply split_on_nonempty. apply last_segment_no_slash, H.
Qed.

Lemma substring_append_len a b m : substring (String.length a) m (append a b) = substring 0 m b.
Proof. induction a as [|c a IH]; [reflexivity|exact IH]. Qed.

Lemma substring_full b : substring 0 (String.length b) b = b.
Proof. induction b as [|c b IH]; cbn; [reflexivity|rewrite IH; reflexivity]. Qed.

Lemma take_class_all ok w r :
  all_chars ok w = true -> take_class ok (String.length w) (append w r) = Some (w, r).
Proof.
  induction w as [|c w IH]; cbn; [reflexivity|].
  intros H. apply andb_true_iff in H as [Hc Hw]. rewrite Hc, (IH Hw). reflexivity.
Qed.

(** The watcher's pattern recognises a file name [<t>-<w>.md] whose [w] is
    eight lowercase hex digits, and captures [w]. *)
Lemma short_id_match_name t w :
  String.length w = 8%nat -> all_chars is_lower_hex w = true ->
  short_id_match (append t (append "-" (append w ".md"))) = Some w.
Proof.
  intros Hl Hw. unfold short_id_match.
  assert (Hn : String.length (append "-" (append w ".md")) = 12%nat)
    by (cbn [append String.length]; rewrite length_append, Hl; reflexivity).
  rewrite length_append, Hn. replace (String.length t + 12 - 12)%nat with (String.length t) by lia.
  destruct (Nat.leb 12 (String.length t + 12)) eqn:E; [|apply Nat.leb_gt in E; lia].
  rewrite substring_append_len, <- Hn, substring_full. cbn [append].
  rewrite Ascii.eqb_refl, <- Hl, take_class_all by exact Hw. reflexivity.
Qed.

Ltac ascii_cases :=
  let c := fresh "c" in
  intros c; destruct c as [[] [] [] [] [] [] [] []]; vm_compute;
  first [reflexivity | intros H; first [reflexivity | discriminate H | exact H]].

Lemma slug_not_slash c : is_slug_char c = true -> negb (Ascii.eqb c "/") = true.
Proof. revert c. ascii_cases. Qed.

Lemma lower_hex_not_slash c : is_lower_hex c = true -> negb (Ascii.eqb c "/") = true.
Proof. revert c. ascii_cases. Qed.


Lemma no_slash_not_trailing w x :
  all_chars (fun c => negb (Ascii.eqb c "/")) x = true -> x <> EmptyString ->
  endsWith (append w x) "/" = false.
Proof.
  intros Hx Hne. unfold endsWith. rewrite string_rev_append.
  rewrite <- (all_chars_rev _ x) in Hx.
  destruct (string_rev x) as [|c r] eqn:E.
  - exfalso. apply Hne. destruct x as [|c x]; [reflexivity|].
    cbn in E. destruct (string_rev x); discriminate.
  - cbn [append startsWith string_rev]. cbn [all_chars] in Hx.
    apply andb_true_iff in Hx as [Hc _]. apply negb_true_iff in Hc.
    rewrite Ascii.eqb_sym, Hc. reflexivity.
Qed.

Lemma norm_seg_plain a st x : (3 <= String.length x)%nat -> norm_seg a st x = x :: st.
Proof.
  intros Hl. unfold norm_seg.
  destruct (String.eqb x "") eqn:E1; [apply String.eqb_eq in E1; subst; cbn in Hl; lia|].
  destruct (String.eqb x ".") eqn:E2; [apply String.eqb_eq in E2; subst; cbn in Hl; lia|].
  destruct (String.eqb x "..") eqn:E3; [apply String.eqb_eq in E3; subst; cbn in Hl; lia|].
  reflexivity.
Qed.

(** [path.join] keeps a last argument of three or more characters without
    [/] as the last segment: the result is that argument after a prefix
    that is empty or ends in [/]. *)
Lemma path_join_snoc segs x :
  all_chars (fun c => negb (Ascii.eqb c "/")) x = true -> (3 <= String.length x)%nat ->
  exists u, path_join (app segs [x]) = append u x /\
            (u = EmptyString \/ exists v, u = append v "/").
Proof.
  intros Hx Hl.
  assert (Hne : x <> EmptyString) by (intros ->; cbn in Hl; lia).
  unfold path_join. rewrite filter_app. cbn [filter].
  destruct (String.eqb x "") eqn:Ex; [apply String.eqb_eq in Ex; contradiction|]. cbn [negb].
  destruct (join_snoc_sep "/" (filter (fun s => negb (String.eqb s "")) segs) x) as [w [Hw Hw']].
  assert (Hm : forall l : list string, l <> [] ->
            match l with [] => "." | s :: l' => normalize (join "/" (s :: l')) end
            = normalize (join "/" l)) by (intros [|] H; [contradiction|reflexivity]).
  rewrite Hm by (destruct (filter _ segs); discriminate). rewrite Hw. clear Hm Hw.
  assert (Hsplit : exists ws, split_on "/" (append w x) = app ws [x]).
  { rewrite <- (split_on_no_sep _ _ Hx). destruct Hw' as [->|[v ->]].
    - exists []. reflexivity.
    - rewrite <- append_assoc_s. cbn [append].
      destruct (split_on_app_sep "/" v x) as [ws [_ ->]]. exists ws. reflexivity. }
  destruct Hsplit as [ws Hsplit].
  unfold normalize, normalizeString.
  assert (Hnz : String.eqb (append w x) "" = false).
  { destruct (String.eqb (append w x) "") eqn:E; [|reflexivity].
    apply String.eqb_eq in E. destruct w; [contradiction|discriminate]. }
  rewrite Hnz, (no_slash_not_trailing w x Hx Hne), Hsplit, fold_left_app. cbn [fold_left].
  rewrite norm_seg_plain by exact Hl. cbn [rev].
  destruct (join_snoc_sep "/" (rev (fold_left (norm_seg (negb (startsWith (append w x) "/"))) ws []))
              x) as [u [Hu Hu']].
  rewrite Hu.
  assert (Hnz' : String.eqb (append u x) "" = false).
  { destruct (String.eqb (append u x) "") eqn:E; [|reflexivity].
    apply String.eqb_eq in E. destruct u; [contradiction|discriminate]. }
  rewrite Hnz'. destruct (startsWith (append w x) "/").
  - exists (String "/" u). split; [reflexivity|right].
    destruct Hu' as [->|[v ->]]; [exists EmptyString; reflexivity|exists (String "/" v); reflexivity].
  - exists u. split; [reflexivity|exact Hu'].
Qed.

(** When the id prefix has no [/], the path [generateFilepath] builds is
    a prefix that is empty or ends in [/], followed by the file name. *)
Lemma generateFilepath_suffix storePath ctx dir :
  all_chars (fun c => negb (Ascii.eqb c "/")) (substring 0 8 (id (metadata ctx))) = true ->
  exists u, generateFilepath storePath ctx dir =
    append u (append (substring 0 50 (strip_both "-" (replace_non_alnum
                        (toLowerCase (title (metadata ctx))) false)))
               (append "-" (append (substring 0 8 (id (metadata ctx))) ".md"))) /\
    (u = EmptyString \/ exists v, u = append v "/").
Proof.
  intros Hid. unfold generateFilepath. cbv zeta.
  match goal with |- context [path_join [?a; ?b; ?c; ?d]] =>
    change [a; b; c; d] with (app [a; b; c] [d]) end.
  apply path_join_snoc.
  - rewrite !all_chars_append, Hid, andb_true_r.
    rewrite (all_chars_impl _ _ _ slug_not_slash (sanitized_title_slug _)). reflexivity.
  - rewrite !length_append. cbn [String.length]. lia.
Qed.

Lemma generateFilepath_names storePath ctx dir :
  all_chars (fun c => negb (Ascii.eqb c "/")) (substring 0 8 (id (metadata ctx))) = true ->
  let p := generateFilepath storePath ctx dir in
  endsWith p ".md" = true /\ includes p (substring 0 8 (id (metadata ctx))) = true.
Proof.
  intros Hid. cbv zeta. destruct (generateFilepath_suffix storePath ctx dir Hid) as [u [-> _]].
  split.
  - rewrite !append_assoc_s. apply endsWith_append.
  - apply includes_app_r, includes_app_r, includes_app_r, includes_app_l, includes_self.
Qed.

Lemma take_class_some ok k s w r :
  take_class ok k s = Some (w, r) -> s = append w r /\ String.length w = k /\ all_chars ok w = true.
Proof.
  revert s w r. induction k as [|k IH]; intros s w r H; cbn in H.
  - injection H as <- <-. split; [reflexivity|split; reflexivity].
  - destruct s as [|c s]; [discriminate|]. destruct (ok c) eqn:Hc; [|discriminate].
    destruct (take_class ok k s) as [[w' r']|] eqn:E; [|discriminate].
    injection H as <- <-. destruct (IH _ _ _ E) as (-> & Hl & Hw).
    split; [reflexivity|]. split; [cbn; rewrite Hl; reflexivity|cbn; rewrite Hc, Hw; reflexivity].
Qed.

Lemma substring_prefix w r : substring 0 (String.length w) (append w r) = w.
Proof. induction w as [|c w IH]; cbn; [destruct r; reflexivity|rewrite IH; reflexivity]. Qed.

Lemma hex_not_slash c : is_hex c = true -> negb (Ascii.eqb c "/") = true.
Proof. revert c. ascii_cases. Qed.

(** The first eight characters of a UUID contain no [/]. *)
Lemma uuid_prefix_no_slash u :
  is_uuid u = true -> all_chars (fun c => negb (Ascii.eqb c "/")) (substring 0 8 u) = true.
Proof.
  unfold is_uuid. destruct (take_class is_hex 8 u) as [[w r]|] eqn:E; [|discriminate].
  intros _. apply take_class_some in E as (-> & Hl & Hw). rewrite <- Hl, substring_prefix.
  exact (all_chars_impl _ _ _ hex_not_slash Hw).
Qed.

Lemma split_on_app_exact sep a b :
  split_on sep (append a (String sep b)) = app (split_on sep a) (split_on sep b).
Proof.
  induction a as [|c a IH]; cbn [append split_on].
  - rewrite Ascii.eqb_refl. reflexivity.
  - rewrite IH. destruct (Ascii.eqb c sep); [reflexivity|].
    pose proof (split_on_nonempty sep a) as Hne.
    destruct (split_on sep a) as [|w ws]; [contradiction|reflexivity].
Qed.

Lemma join_app_ne sep xs ys :
  xs <> [] -> ys <> [] -> join sep (app xs ys) = append (join sep xs) (append sep (join sep ys)).
Proof.
  intros Hx Hy. induction xs as [|a xs IH]; [contradiction|].
  destruct xs as [|b xs].
  - cbn [app]. apply join_cons_ne, Hy.
  - change (app (a :: b :: xs) ys) with (a :: app (b :: xs) ys).
    rewrite join_cons_ne by (cbn; discriminate).
    rewrite (join_cons_ne sep a (b :: xs)) by discriminate.
    rewrite IH by discriminate. rewrite <- !append_assoc_s. reflexivity.
Qed.

Lemma startsWith_append_ne a b p :
  a <> EmptyString -> startsWith (append a b) (String p EmptyString) =
                      startsWith a (String p EmptyString).
Proof. intros H. destruct a as [|c a]; [contradiction|]. cbn. destruct a, b; reflexivity. Qed.

Lemma eqb_empty_len s : (0 < String.length s)%nat -> String.eqb s "" = false.
Proof. destruct s; [cbn; lia|reflexivity]. Qed.

Lemma split_on_head sep d w ws : split_on sep d = w :: ws -> exists v, d = append w v.
Proof.
  revert w ws. induction d as [|c d IH]; intros w ws H; cbn in H.
  - injection H as <- _. exists EmptyString. reflexivity.
  - destruct (Ascii.eqb c sep).
    + injection H as <- _. exists (String c d). reflexivity.
    + destruct (split_on sep d) as [|w' ws'] eqn:E.
      * injection H as <- _. exists d. reflexivity.
      * injection H as <- _. destruct (IH _ _ eq_refl) as [v ->]. exists v. reflexivity.
Qed.

Lemma split_on_in sep d s : In s (split_on sep d) -> exists u v, d = append u (append s v).
Proof.
  induction d as [|c d IH]; cbn [split_on].
  - intros [<-|[]]. exists EmptyString, EmptyString. reflexivity.
  - destruct (Ascii.eqb c sep).
    + intros [<-|Hin].
      * exists EmptyString, (String c d). reflexivity.
      * destruct (IH Hin) as [u [v ->]]. exists (String c u), v. reflexivity.
    + destruct (split_on sep d) as [|w ws] eqn:E.
      * intros [<-|[]]. exists EmptyString, d. reflexivity.
      * intros [<-|Hin].
        -- destruct (split_on_head sep d w ws E) as [v ->]. exists EmptyString, v. reflexivity.
        -- destruct (IH (or_intror Hin)) as [u [v ->]]. exists (String c u), v. reflexivity.
Qed.

Lemma split_on_no_dotdot d s :
  includes d ".." = false -> In s (split_on "/" d) -> includes s ".." = false.
Proof.
  intros Hd Hin. destruct (includes s "..") eqn:E; [|reflexivity].
  destruct (split_on_in _ _ _ Hin) as [u [v ->]].
  rewrite (includes_app_r u _ _ (includes_app_l _ v _ E)) in Hd. discriminate.
Qed.

Lemma norm_fold_no_up a segs st :
  (forall s, In s segs -> s <> "..") ->
  fold_left (norm_seg a) segs st =
  app (rev (filter (fun s => negb (String.eqb s "" || String.eqb s ".")) segs)) st.
Proof.
  revert st. induction segs as [|s segs IH]; intros st H; [reflexivity|].
  cbn [fold_left filter]. rewrite IH by (intros s' Hs'; apply H; right; exact Hs').
  unfold norm_seg. destruct (String.eqb s "" || String.eqb s "."); [reflexivity|].
  destruct (String.eqb s "..") eqn:E; [apply String.eqb_eq in E; exfalso; exact (H s (or_introl eq_refl) E)|].
  cbn [negb rev]. rewrite <- app_assoc. reflexivity.
Qed.

(** [path.join(storePath, 'contexts', d, x)] for a directory [d] without
    [".."] and a file name [x] without [/] is the store's [contexts]
    directory, as [path.join(storePath, 'contexts')] gives it, followed by
    the non-empty, non-[.] segments of [d] and by [x]. *)
Lemma path_join_inside sp d x :
  includes d ".." = false ->
  all_chars (fun c => negb (Ascii.eqb c "/")) x = true -> (3 <= String.length x)%nat ->
  path_join [sp; "contexts"; d; x] =
    append (path_join [sp; "contexts"])
      (append "/" (join "/" (app (filter (fun s => negb (String.eqb s "" || String.eqb s "."))
                                          (split_on "/" d)) [x]))).
Proof.
  intros Hd Hx Hl.
  assert (Hxne : x <> EmptyString) by (intros ->; cbn in Hl; lia).
  set (keep := fun s => negb (String.eqb s "" || String.eqb s ".")).
  set (L := filter (fun s => negb (String.eqb s "")) [sp]).
  set (Ld := filter (fun s => negb (String.eqb s "")) [d]).
  assert (HJ : path_join [sp; "contexts"; d; x] =
               normalize (join "/" (app (app L ["contexts"]) (app Ld [x])))).
  { unfold path_join, L, Ld. cbn [filter].
    destruct (String.eqb x "") eqn:Ex; [apply String.eqb_eq in Ex; contradiction|].
    destruct (String.eqb sp ""), (String.eqb d ""); reflexivity. }
  assert (H0 : path_join [sp; "contexts"] = normalize (join "/" (app L ["contexts"]))).
  { unfold path_join, L. cbn [filter]. destruct (String.eqb sp ""); reflexivity. }
  rewrite HJ, H0, join_app_ne by (intros E; apply app_eq_nil in E as [_ E]; discriminate).
  clear HJ H0.
  (* the store's contexts directory *)
  destruct (join_snoc_sep "/" L "contexts") as [w0 [Hw0 Hw0']].
  set (J0 := join "/" (app L ["contexts"])) in *.
  assert (HJ0ne : J0 <> EmptyString) by (rewrite Hw0; destruct w0; discriminate).
  assert (Hs0 : exists ws, split_on "/" J0 = app ws ["contexts"]).
  { rewrite Hw0. destruct Hw0' as [->|[v ->]].
    - exists []. reflexivity.
    - rewrite <- append_assoc_s. cbn [append]. rewrite split_on_app_exact.
      exists (split_on "/" v). reflexivity. }
  destruct Hs0 as [ws Hs0].
  (* the rest of the path *)
  set (J1 := join "/" (app Ld [x])).
  assert (Hs1 : exists segs1, split_on "/" J1 = app segs1 [x] /\
                  filter keep segs1 = filter keep (split_on "/" d) /\
                  (forall s, In s segs1 -> s <> "..")).
  { unfold J1, Ld. cbn [filter]. destruct (String.eqb d "") eqn:Ed.
    - apply String.eqb_eq in Ed. subst d. exists []. cbn [negb app join].
      rewrite (split_on_no_sep _ _ Hx). split; [reflexivity|]. split; [reflexivity|]. intros s [].
    - cbn [negb app]. rewrite join_cons_ne by discriminate. cbn [join append].
      rewrite split_on_app_exact, (split_on_no_sep _ _ Hx).
      exists (split_on "/" d). split; [reflexivity|]. split; [reflexivity|].
      intros s Hs E. subst s. pose proof (split_on_no_dotdot d ".." Hd Hs) as E'. cbn in E'.
      discriminate. }
  destruct Hs1 as [segs1 [Hs1 [Hk Hup]]].
  destruct (join_snoc_sep "/" Ld x) as [w1 [Hw1 _]]. fold J1 in Hw1.
  unfold normalize, normalizeString.
  rewrite (eqb_empty_len J0) by (destruct J0; [contradiction|cbn; lia]).
  rewrite (eqb_empty_len (append J0 (append "/" J1)))
    by (rewrite length_append; destruct J0; [contradiction|cbn; lia]).
  rewrite startsWith_append_ne by exact HJ0ne.
  rewrite Hw1, !append_assoc_s, (no_slash_not_trailing _ x Hx Hxne).
  rewrite <- !append_assoc_s, <- Hw1.
  assert (HT0 : endsWith J0 "/" = false).
  { rewrite Hw0. apply no_slash_not_trailing; [reflexivity|discriminate]. }
  rewrite HT0.
  cbn [append]. rewrite split_on_app_exact, Hs0, Hs1.
  set (a := negb (startsWith J0 "/")).
  rewrite !fold_left_app. cbn [fold_left].
  rewrite (norm_seg_plain a _ "contexts") by (cbn; lia).
  rewrite norm_fold_no_up by exact Hup. rewrite norm_seg_plain by exact Hl.
  fold keep. rewrite Hk.
  set (S0 := fold_left (norm_seg a) ws []).
  set (D := filter keep (split_on "/" d)).
  replace (rev (x :: app (rev D) ("contexts" :: S0)))
    with (app (rev ("contexts" :: S0)) (app D [x]))
    by (cbn [rev]; rewrite rev_app_distr, rev_involutive; cbn [rev];
        rewrite <- !app_assoc; reflexivity).
  rewrite (join_app_ne "/" (rev ("contexts" :: S0)) (app D [x]))
    by (cbn [rev]; intros E; apply app_eq_nil in E as [_ E]; discriminate).
  assert (Hl0 : (0 < String.length (join "/" (rev ("contexts" :: S0))))%nat).
  { destruct (join_snoc_sep "/" (rev S0) "contexts") as [u [Hu _]].
    cbn [rev]. rewrite Hu. rewrite length_append. cbn. lia. }
  rewrite (eqb_empty_len _ Hl0), (eqb_empty_len (append _ _))
    by (rewrite length_append; lia).
  destruct (startsWith J0 "/"); reflexivity.
Qed.

Lemma split_on_in_no_sep sep d s :
  In s (split_on sep d) -> all_chars (fun c => negb (Ascii.eqb c sep)) s = true.
Proof.
  revert s. induction d as [|c d IH]; intros s; cbn [split_on].
  - intros [<-|[]]. reflexivity.
  - destruct (Ascii.eqb c sep) eqn:Hc.
    + intros [<-|Hin]; [reflexivity|exact (IH s Hin)].
    + pose proof (split_on_nonempty sep d) as Hne.
      destruct (split_on sep d) as [|w ws] eqn:E; [contradiction|].
      intros [<-|Hin].
      * cbn [all_chars]. rewrite Hc. exact (IH w (or_introl eq_refl)).
      * exact (IH s (or_intror Hin)).
Qed.

(** X12: for an id whose first eight characters contain no [/],
    [generateFilepath] builds a path inside the store's [contexts]
    directory: the normalised [path.join(storePath, 'contexts')], then [/],
    then zero or more plain directory names (non-empty, not [.], without
    [/] or [..]), then the file name [<title>-<id8>.md], where the title
    part is at most 50 characters from [a-z0-9-]. *)
Theorem generateFilepath_shape storePath ctx dir :
  all_chars (fun c => negb (Ascii.eqb c "/")) (substring 0 8 (id (metadata ctx))) = true ->
  exists ds t,
    generateFilepath storePath ctx dir =
      append (path_join [storePath; "contexts"])
        (append "/" (join "/" (app ds [append t (append "-"
                                 (append (substring 0 8 (id (metadata ctx))) ".md"))]))) /\
    (forall s, In s ds -> s <> "" /\ s <> "." /\ includes s ".." = false /\
                          all_chars (fun c => negb (Ascii.eqb c "/")) s = true) /\
    all_chars is_slug_char t = true /\ (String.length t <= 50)%nat.
Proof.
  intros Hid. unfold generateFilepath. cbv zeta.
  set (t := substring 0 50 (strip_both "-" (replace_non_alnum
              (toLowerCase (title (metadata ctx))) false))).
  set (dr := remove_dotdot (strip_both "/" (if truthy dir then getD "" dir
                                             else type (metadata ctx)))).
  set (keep := fun s => negb (String.eqb s "" || String.eqb s ".")).
  exists (filter keep (split_on "/" dr)), t. split; [|split; [|split]].
  - apply path_join_inside.
    + apply remove_dotdot_no_dotdot.
    + unfold t. rewrite !all_chars_append, Hid, andb_true_r.
      rewrite (all_chars_impl _ _ _ slug_not_slash (sanitized_title_slug _)). reflexivity.
    + rewrite !length_append. cbn [String.length]. lia.
  - intros s Hs. apply filter_In in Hs as [Hin Hk]. unfold keep in Hk.
    apply negb_true_iff, orb_false_iff in Hk as [H1 H2].
    split; [apply String.eqb_neq, H1|]. split; [apply String.eqb_neq, H2|].
    split; [exact (split_on_no_dotdot dr s (remove_dotdot_no_dotdot _) Hin)|].
    exact (split_on_in_no_sep _ _ _ Hin).
  - apply sanitized_title_slug.
  - apply length_substring0.
Qed.

Lemma generateFilepath_shape_witness :
  all_chars (fun c => negb (Ascii.eqb c "/")) (substring 0 8 (id (metadata ctx_alpha))) = true /\
  exists ds t,
    generateFilepath "/store" ctx_alpha (Some "../../etc/") =
      append (path_join ["/store"; "contexts"])
        (append "/" (join "/" (app ds [append t (append "-"
                                 (append (substring 0 8 (id (metadata ctx_alpha))) ".md"))]))) /\
    (forall s, In s ds -> s <> "" /\ s <> "." /\ includes s ".." = false /\
                          all_chars (fun c => negb (Ascii.eqb c "/")) s = true) /\
    all_chars is_slug_char t = true /\ (String.length t <= 50)%nat.
Proof.
  split; [vm_compute; reflexivity|].
  apply generateFilepath_shape. vm_compute. reflexivity.
Defined.

Lemma in_put_file p f x st : In x (put_file p f st) -> x = (p, f) \/ In x st.
Proof.
  induction st as [|[q g] st IH]; cbn.
  - intros [<-|[]]. left. reflexivity.
  - destruct (String.eqb p q) eqn:E.
    + apply String.eqb_eq in E; subst q. intros [<-|Hin]; [left|right; right]; auto.
    + intros [<-|Hin]; [right; left; reflexivity|].
      destruct (IH Hin); [left|right; right]; assumption.
Qed.

Lemma in_put_file_self p f st : In (p, f) (put_file p f st).
Proof.
  induction st as [|[q g] st IH]; cbn; [left; reflexivity|].
  destruct (String.eqb p q) eqn:E; [apply String.eqb_eq in E; subst q; left; reflexivity|].
  right. exact IH.
Qed.

(** The walk finds [p] when [p] holds the entity and no other entry does. *)
Lemma findContextFile_only i st p :
  (exists f, In (p, f) st /\ names_entity i p f) ->
  (forall q g, In (q, g) st -> names_entity i q g -> q = p) ->
  findContextFile i st = Ok (Some p, st).
Proof.
  intros [f [Hin Hn]] Honly. rewrite findContextFile_fold. do 3 f_equal.
  apply last_unique.
  - intros [q g] Hq Hm. apply matches_id_iff in Hm. exact (Honly q g Hq Hm).
  - exists (p, f). split; [exact Hin|apply matches_id_iff, Hn].
Qed.

(** For a fresh UUID (no file yet holds it), [read] right after
    [create(title, content, type)] finds the new entity. Everything comes
    back as given, except that [created] and [updated] are the [toISOString]
    form of the creation time, [expires] is [null], and the content is
    trimmed. The returned [filepath] is the one [create] returned. *)
Theorem create_then_read storePath autoCommit title0 content0 type0 dir uuid now index commit
  st c st' :
  is_uuid uuid = true ->
  (forall p f, In (p, f) st -> ~ names_entity uuid p f) ->
  create storePath autoCommit title0 content0 type0 None dir uuid now index commit st
    = Ok (c, st') ->
  exists n, toISOString now = Ok n /\
  read uuid st' =
    Ok (Some {| metadata := {| id := uuid; title := title0; type := type0; tags := [];
                               created := n; updated := n; expires := Null;
                               relations := [] |};
                content := trim content0; filepath := filepath c |}, st').
Proof.
  intros Huuid Hfresh Hc.
  set (ctx0 := createNewContext title0 content0 type0 None uuid now) in Hc.
  set (fp := generateFilepath storePath ctx0 dir) in Hc.
  unfold create, mbind, writeContext, mbind, lift, writeFile in Hc. fold ctx0 fp in Hc.
  destruct (stringify ctx0) as [f|e] eqn:Hs; [|discriminate].
  rewrite try_warn_external in Hc.
  destruct (git_add_commit autoCommit commit (put_file fp f st)) as [[u st2]|e] eqn:Hg;
    [|discriminate].
  apply git_add_commit_state in Hg. subst st2. unfold ret in Hc. injection Hc as <- <-.
  assert (Hmd : metadata ctx0 = {| id := uuid; title := title0; type := type0; tags := [];
                                   created := now; updated := now; expires := Undefined;
                                   relations := [] |}) by reflexivity.
  destruct (stringify_parse ctx0 f None) as (cr & up & x & Hcr & Hup & Hx & Hp0);
    [rewrite Hmd; exact Huuid|rewrite Hmd; reflexivity|exact Hs|].
  destruct (stringify_parse ctx0 f (Some fp)) as (cr' & up' & x' & Hcr' & Hup' & Hx' & Hp1);
    [rewrite Hmd; exact Huuid|rewrite Hmd; reflexivity|exact Hs|].
  rewrite Hmd in Hcr, Hup, Hx, Hp0, Hcr', Hup', Hx', Hp1. cbn [created updated expires] in *.
  rewrite Hcr in Hcr', Hup. rewrite Hcr in Hup'. injection Hcr' as <-. injection Hup as <-.
  injection Hup' as <-. subst x x'.
  exists cr. split; [exact Hcr|].
  assert (Hfind : findContextFile uuid (put_file fp f st) = Ok (Some fp, put_file fp f st)).
  { apply findContextFile_only.
    - exists f. split; [apply in_put_file_self|].
      destruct (generateFilepath_names storePath ctx0 dir
                  ltac:(rewrite Hmd; apply uuid_prefix_no_slash, Huuid)) as [He Hi].
      rewrite Hmd in Hi.
      split; [exact He|]. split; [exact Hi|]. eexists. split; [exact Hp0|reflexivity].
    - intros q g Hq Hn. apply in_put_file in Hq as [Hq|Hq]; [injection Hq as -> _; reflexivity|].
      exfalso. exact (Hfresh q g Hq Hn). }
  unfold read, mbind. rewrite Hfind. unfold readFile. rewrite file_at_put_file.
  unfold mbind, lift. rewrite Hp1. reflexivity.
Qed.

Lemma create_then_read_witness :
  is_uuid fresh_id = true /\
  (forall p f, In (p, f) store_sample -> ~ names_entity fresh_id p f) /\
  match create "/store" true "Kyoto notes" " temples " "travel" None None fresh_id sample_now
          (Ok tt) (Ok tt) store_sample with
  | Ok (c, st') =>
      exists n, toISOString sample_now = Ok n /\
      read fresh_id st' =
        Ok (Some {| metadata := {| id := fresh_id; title := "Kyoto notes"; type := "travel";
                                   tags := []; created := n; updated := n; expires := Null;
                                   relations := [] |};
                    content := trim " temples "; filepath := filepath c |}, st')
  | Err _ => False
  end.
Proof.
  assert (Hu : is_uuid fresh_id = true) by (vm_compute; reflexivity).
  assert (Hf : forall p f, In (p, f) store_sample -> ~ names_entity fresh_id p f).
  { intros p f [H|[]] (_ & Hi & _). injection H as <- _. vm_compute in Hi. discriminate. }
  split; [exact Hu|]. split; [exact Hf|].
  destruct (create "/store" true "Kyoto notes" " temples " "travel" None None fresh_id sample_now
              (Ok tt) (Ok tt) store_sample) as [[c st']|e] eqn:Hc.
  - exact (create_then_read "/store" true "Kyoto notes" " temples " "travel" None fresh_id
             sample_now (Ok tt) (Ok tt) store_sample c st' Hu Hf Hc).
  - vm_compute in Hc. discriminate.
Defined.

Lemma zod_check_ok ok v s : zod_check ok v = Ok s -> v = JStr s /\ ok s = true.
Proof.
  destruct v; cbn; try discriminate.
  match goal with |- context [ok ?x] => destruct (ok x) eqn:E end; [|discriminate].
  intro H. injection H as <-. auto.
Qed.

Lemma zod_array_check_ok ok xs l :
  zod_array (zod_check ok) xs = Ok l -> xs = map JStr l /\ forallb ok l = true.
Proof.
  revert l. induction xs as [|x xs IH]; intros l; cbn.
  - intro H. injection H as <-. auto.
  - destruct (zod_check ok x) as [s|e] eqn:Hx, (zod_array (zod_check ok) xs) as [ss|e'];
      try discriminate.
    intro H. injection H as <-. apply zod_check_ok in Hx as [-> Hs].
    destruct (IH ss eq_refl) as [-> Hss]. cbn. rewrite Hs, Hss. auto.
Qed.

Lemma zod_array_default_check_ok ok v l :
  zod_array_default (zod_check ok) v = Ok l ->
  (v = None /\ l = []) \/ (v = Some (JArr (map JStr l)) /\ forallb ok l = true).
Proof.
  destruct v as [[]|]; cbn; try discriminate.
  - intro H. apply zod_array_check_ok in H as [-> H]. right. auto.
  - intro H. injection H as <-. left. auto.
Qed.

Lemma map_JStr_inj a b : map JStr a = map JStr b -> a = b.
Proof.
  revert b. induction a as [|x a IH]; intros [|y b]; cbn; try discriminate; [reflexivity|].
  intro H. injection H as -> H. f_equal. apply IH, H.
Qed.

Ltac split_binds H :=
  repeat match type of H with
         | bind ?r _ = Ok _ =>
             let E := fresh "E" in
             destruct r eqn:E; cbn [bind] in H; [|discriminate]
         end.

(** A successful [parse] has checked the id and every relation to be UUIDs,
    and reports the id stored in the front matter. *)
Lemma parse_fields f fp c :
  parse f fp = Ok c ->
  is_uuid (id (metadata c)) = true /\ forallb is_uuid (relations (metadata c)) = true /\
  (forall s, lookup "id" (data f) = Some (JStr s) -> id (metadata c) = s) /\
  (forall rs, lookup "relations" (data f) = Some (JArr (map JStr rs)) ->
              relations (metadata c) = rs).
Proof.
  unfold parse. intro H. apply bind_ok in H as [md [H0 H]]. injection H as <-.
  cbn [metadata]. unfold ContextMetadataSchema_parse in H0.
  split_binds H0. injection H0 as <-. cbn [id relations].
  match goal with E : bind (required "id" _) _ = Ok _ |- _ => rename E into Ei end.
  match goal with E : zod_array_default (zod_check is_uuid) _ = Ok _ |- _ => rename E into Er end.
  unfold required in Ei. destruct (lookup "id" (data f)) as [v|] eqn:Hv; cbn [bind] in Ei;
    [|discriminate]. apply zod_check_ok in Ei as [-> Hs].
  apply zod_array_default_check_ok in Er as [[Hn ->]|[Hr Hl]].
  - repeat split; [exact Hs| |].
    + intros s' H'. injection H' as <-. reflexivity.
    + intros rs H'. rewrite Hn in H'. discriminate.
  - repeat split; [exact Hs|exact Hl| |].
    + intros s' H'. injection H' as <-. reflexivity.
    + intros rs H'. rewrite Hr in H'. injection H' as H'.
      apply map_JStr_inj. exact H'.
Qed.

Lemma stringify_data ctx f :
  stringify ctx = Ok f ->
  lookup "id" (data f) = Some (JStr (id (metadata ctx))) /\
  lookup "relations" (data f) = Some (JArr (map JStr (relations (metadata ctx)))).
Proof.
  unfold stringify. cbv zeta. intro H. split_binds H. injection H as <-. cbn. auto.
Qed.

Lemma put_file_app p f f0 pre post :
  ~ In p (map fst pre) -> put_file p f (app pre ((p, f0) :: post)) = app pre ((p, f) :: post).
Proof.
  induction pre as [|[q g] pre IH]; cbn; intro Hn.
  - rewrite String.eqb_refl. reflexivity.
  - destruct (String.eqb p q) eqn:E.
    + apply String.eqb_eq in E. exfalso. apply Hn. left. symmetry. exact E.
    + rewrite IH; [reflexivity|]. intro H. apply Hn. right. exact H.
Qed.

Lemma nodup_not_in_pre p (f0 : MatterFile) (pre post : Files) :
  NoDup (map fst (app pre ((p, f0) :: post))) -> ~ In p (map fst pre).
Proof.
  rewrite map_app. cbn [map fst]. intros Hnd Hin.
  apply NoDup_remove_2 in Hnd. apply Hnd, in_or_app. left. exact Hin.
Qed.

(** What [update] does on a tree with distinct paths: it rewrites, in
    place, the last file holding the entity. *)
Lemma update_found autoCommit i u now index commit st c st' :
  NoDup (map fst st) ->
  update autoCommit i u now index commit st = Ok (Some c, st') ->
  exists pre p f0 post c0 f',
    st = app pre ((p, f0) :: post) /\ names_entity i p f0 /\
    (forall q g, In (q, g) post -> ~ names_entity i q g) /\
    parse f0 None = Ok c0 /\
    c = {| metadata := with_updated
             (spread_metadata (metadata c0) (getD no_metadata (u_metadata u))) now;
           content := if truthy (u_content u) then getD "" (u_content u) else content c0;
           filepath := Some p |} /\
    stringify c = Ok f' /\ st' = put_file p f' st /\ st' = app pre ((p, f') :: post).
Proof.
  intros Hnd Hu. destruct (findContextFile_finds_last i st) as [r [Hf Hr]].
  destruct r as [p|].
  - destruct Hr as (pre & f0 & post & Hst & Hn & Hpost).
    pose proof Hn as (He & Hi & c0 & Hc0 & Hid).
    assert (Hread : read i st = Ok (Some (with_filepath c0 (Some p)), st)).
    { unfold read, mbind. rewrite Hf. unfold readFile.
      rewrite (file_at_in p f0 st Hnd) by (rewrite Hst; apply in_app_cons).
      unfold mbind, lift. rewrite (parse_metadata _ _ _ _ Hc0). reflexivity. }
    unfold update, mbind in Hu. rewrite Hread in Hu. cbn [with_filepath filepath metadata content] in Hu.
    unfold writeContext, mbind, lift, writeFile in Hu.
    match type of Hu with context [stringify ?x] => destruct (stringify x) as [f'|e] eqn:Hs end;
      [|discriminate].
    rewrite try_warn_external in Hu.
    match type of Hu with context [git_add_commit ?a ?b ?s] =>
      destruct (git_add_commit a b s) as [[v st2]|e] eqn:Hg end; [|discriminate].
    apply git_add_commit_state in Hg. subst st2. unfold ret in Hu. injection Hu as <- <-.
    exists pre, p, f0, post, c0, f'.
    split; [exact Hst|]. split; [exact Hn|]. split; [exact Hpost|]. split; [exact Hc0|].
    split; [reflexivity|]. split; [exact Hs|]. split; [reflexivity|].
    rewrite Hst. apply put_file_app. apply (nodup_not_in_pre p f0 pre post). rewrite <- Hst.
    exact Hnd.
  - unfold update, mbind in Hu. rewrite (read_none i st Hr) in Hu. unfold ret in Hu. discriminate.
Qed.

Lemma names_entity_rewrite i p f f' c :
  names_entity i p f -> parse f' None = Ok c -> id (metadata c) = i -> names_entity i p f'.
Proof. intros (He & Hi & _) Hp Hid. split; [exact He|]. split; [exact Hi|]. eauto. Qed.

(** With distinct paths, when the update keeps the id (the partial
    metadata gives no [id], or the same one) and gives only UUIDs as
    [relations], [read(id)] right after [update] finds the updated entity at
    the same path. It comes back with [created] and [updated] in
    [toISOString] form, [expires] normalised, and the content trimmed. *)
Theorem update_then_read autoCommit i u now index commit st c st' :
  NoDup (map fst st) ->
  (forall pm, u_metadata u = Some pm ->
     (p_id pm = None \/ p_id pm = Some i) /\
     (forall rs, p_relations pm = Some rs -> forallb is_uuid rs = true)) ->
  update autoCommit i u now index commit st = Ok (Some c, st') ->
  id (metadata c) = i /\
  exists cr up x,
    toISOString (created (metadata c)) = Ok cr /\ toISOString (updated (metadata c)) = Ok up /\
    match expires (metadata c) with
    | Defined s => (s = ""%string /\ x = Null) \/
                   (s <> ""%string /\ exists y, toISOString s = Ok y /\ x = Defined y)
    | _ => x = Null
    end /\
    read i st' =
      Ok (Some {| metadata := {| id := i; title := title (metadata c); type := type (metadata c);
                                 tags := tags (metadata c); created := cr; updated := up;
                                 expires := x; relations := relations (metadata c) |};
                  content := trim (content c); filepath := filepath c |}, st').
Proof.
  intros Hnd Hpm Hu.
  destruct (update_found _ _ _ _ _ _ _ _ _ Hnd Hu)
    as (pre & p & f0 & post & c0 & f' & Hst & Hn & Hpost & Hc0 & -> & Hs & Hst1 & Hst2).
  destruct (parse_fields _ _ _ Hc0) as (Huu & Hrel & _ & _).
  pose proof Hn as (_ & _ & c1 & Hc1 & Hid). rewrite Hc0 in Hc1. injection Hc1 as <-.
  set (c := {| metadata := _; content := _; filepath := Some p |}) in *.
  assert (Hidc : id (metadata c) = i /\ forallb is_uuid (relations (metadata c)) = true).
  { subst c. cbn. destruct (u_metadata u) as [pm|]; cbn; [|auto].
    destruct (Hpm pm eq_refl) as [[Hi|Hi] Hr]; rewrite Hi; cbn; split; auto;
      destruct (p_relations pm) as [rs|]; cbn; auto. }
  destruct Hidc as [Hidc Hrelc].
  split; [exact Hidc|].
  destruct (stringify_parse c f' None) as (cr & up & x & Hcr & Hup & Hx & Hp0);
    [rewrite Hidc, <- Hid; exact Huu|exact Hrelc|exact Hs|].
  destruct (stringify_parse c f' (Some p)) as (cr' & up' & x' & Hcr' & Hup' & Hx' & Hp1);
    [rewrite Hidc, <- Hid; exact Huu|exact Hrelc|exact Hs|].
  rewrite Hcr in Hcr'. injection Hcr' as <-. rewrite Hup in Hup'. injection Hup' as <-.
  assert (x' = x) as ->.
  { destruct (expires (metadata c)) as [| |s]; [congruence|congruence|].
    destruct Hx as [[-> ->]|[Hne [y [Hy ->]]]], Hx' as [[Hs' ->]|[Hne' [y' [Hy' ->]]]];
      congruence. }
  exists cr, up, x. split; [exact Hcr|]. split; [exact Hup|]. split; [exact Hx|].
  assert (Hn' : names_entity i p f') by (apply (names_entity_rewrite i p f0 f' _ Hn Hp0); exact Hidc).
  assert (Hfind : fold_left (last_step (matches_id i) fst) st' None = Some p).
  { rewrite Hst2. apply (last_hit (matches_id i) fst pre (p, f') post None).
    - apply matches_id_iff, Hn'.
    - intros [q g] Hq. apply not_matches, Hpost, Hq. }
  unfold read, mbind. rewrite findContextFile_fold, Hfind. unfold readFile. rewrite Hst1, file_at_put_file, <- Hst1.
  unfold mbind, lift. rewrite Hp1. rewrite <- Hidc. reflexivity.
Qed.

Lemma update_then_read_witness :
  NoDup (map fst store_sample) /\
  (forall pm, u_metadata update_title_x = Some pm ->
     (p_id pm = None \/ p_id pm = Some sample_id) /\
     (forall rs, p_relations pm = Some rs -> forallb is_uuid rs = true)) /\
  match update true sample_id update_title_x sample_now (Ok tt) (Ok tt) store_sample with
  | Ok (Some c, st') =>
      id (metadata c) = sample_id /\
      exists cr up x,
        toISOString (created (metadata c)) = Ok cr /\
        toISOString (updated (metadata c)) = Ok up /\
        match expires (metadata c) with
        | Defined s => (s = ""%string /\ x = Null) \/
                       (s <> ""%string /\ exists y, toISOString s = Ok y /\ x = Defined y)
        | _ => x = Null
        end /\
        read sample_id st' =
          Ok (Some {| metadata := {| id := sample_id; title := title (metadata c);
                                     type := type (metadata c); tags := tags (metadata c);
                                     created := cr; updated := up; expires := x;
                                     relations := relations (metadata c) |};
                      content := trim (content c); filepath := filepath c |}, st')
  | _ => False
  end.
Proof.
  assert (Hnd : NoDup (map fst store_sample)) by nodup_strings.
  assert (Hpm : forall pm, u_metadata update_title_x = Some pm ->
     (p_id pm = None \/ p_id pm = Some sample_id) /\
     (forall rs, p_relations pm = Some rs -> forallb is_uuid rs = true)).
  { intros pm H. injection H as <-. cbn. split; [left; reflexivity|discriminate]. }
  split; [exact Hnd|]. split; [exact Hpm|].
  destruct (update true sample_id update_title_x sample_now (Ok tt) (Ok tt) store_sample)
    as [[[c|] st']|e] eqn:Hu.
  - exact (update_then_read true sample_id update_title_x sample_now (Ok tt) (Ok tt)
             store_sample c st' Hnd Hpm Hu).
  - vm_compute in Hu. discriminate.
  - vm_compute in Hu. discriminate.
Defined.

Lemma in_other_entry p (f : MatterFile) (pre post : Files) q g :
  NoDup (map fst (app pre ((p, f) :: post))) -> In (q, g) (app pre ((p, f) :: post)) ->
  (q, g) = (p, f) \/ (In (q, g) (app pre post) /\ q <> p).
Proof.
  intros Hnd Hin. rewrite map_app in Hnd. cbn [map fst] in Hnd.
  apply NoDup_remove_2 in Hnd. rewrite <- map_app in Hnd.
  apply in_app_or in Hin as [Hin|[Heq|Hin]].
  - right. split; [apply in_or_app; left; exact Hin|].
    intros ->. apply Hnd. apply in_map_iff.
    exists (p, g). split; [reflexivity|]. apply in_or_app. left. exact Hin.
  - left. symmetry. exact Heq.
  - right. split; [apply in_or_app; right; exact Hin|].
    intros ->. apply Hnd. apply in_map_iff. exists (p, g). split; [reflexivity|].
    apply in_or_app. right. exact Hin.
Qed.

(** An [update] that returns the entity can still lose it. Suppose one file
    holds the entity [id] and the paths are distinct. If the partial metadata
    sets another [id], or a [relations] list with a non-UUID string, then the
    rewritten file no longer holds [id]: [update] resolves, but a following
    [read(id)] returns [null]. *)
Theorem update_can_orphan autoCommit i u now index commit st c st' pm :
  NoDup (map fst st) ->
  (forall p1 f1 p2 f2, In (p1, f1) st -> In (p2, f2) st ->
     names_entity i p1 f1 -> names_entity i p2 f2 -> p1 = p2) ->
  u_metadata u = Some pm ->
  (exists j, p_id pm = Some j /\ j <> i) \/
  (exists rs, p_relations pm = Some rs /\ forallb is_uuid rs = false) ->
  update autoCommit i u now index commit st = Ok (Some c, st') ->
  read i st' = Ok (None, st').
Proof.
  intros Hnd Huniq Hpm Hbad Hu.
  destruct (update_found _ _ _ _ _ _ _ _ _ Hnd Hu)
    as (pre & p & f0 & post & c0 & f' & Hst & Hn & Hpost & Hc0 & Hc & Hs & Hst1 & Hst2).
  apply read_none. intros q g Hin Hng.
  assert (Hnd' : NoDup (map fst (app pre ((p, f') :: post)))).
  { rewrite Hst in Hnd. rewrite map_app in *. exact Hnd. }
  rewrite Hst2 in Hin. destruct (in_other_entry _ _ _ _ _ _ Hnd' Hin) as [Heq|[Hin' Hne]].
  - injection Heq as -> ->. destruct Hng as (_ & _ & c2 & Hc2 & Hid2).
    destruct (stringify_data _ _ Hs) as [Hdi Hdr].
    destruct (parse_fields _ _ _ Hc2) as (_ & Hrel2 & Hfi & Hfr).
    rewrite (Hfi _ Hdi) in Hid2. rewrite (Hfr _ Hdr) in Hrel2.
    rewrite Hc in Hid2, Hrel2. cbn in Hid2, Hrel2. rewrite Hpm in Hid2, Hrel2. cbn in Hid2, Hrel2.
    destruct Hbad as [(j & Hj & Hji)|(rs & Hrs & Hbad)].
    + rewrite Hj in Hid2. exact (Hji Hid2).
    + rewrite Hrs in Hrel2. cbn in Hrel2. congruence.
  - apply Hne. apply (Huniq q g p f0); [| |exact Hng|exact Hn].
    + rewrite Hst. apply in_app_or in Hin' as [H|H]; apply in_or_app; [left|right; right]; exact H.
    + rewrite Hst. apply in_app_cons.
Qed.

Lemma update_can_orphan_witness :
  NoDup (map fst store_sample) /\
  (forall p1 f1 p2 f2, In (p1, f1) store_sample -> In (p2, f2) store_sample ->
     names_entity sample_id p1 f1 -> names_entity sample_id p2 f2 -> p1 = p2) /\
  exists pm, u_metadata update_id_created = Some pm /\
  ((exists j, p_id pm = Some j /\ j <> sample_id) \/
   (exists rs, p_relations pm = Some rs /\ forallb is_uuid rs = false)) /\
  match update true sample_id update_id_created sample_now (Ok tt) (Ok tt) store_sample with
  | Ok (Some c, st') => read sample_id st' = Ok (None, st')
  | _ => False
  end.
Proof.
  assert (Hnd : NoDup (map fst store_sample)) by nodup_strings.
  assert (Hu : forall p1 f1 p2 f2, In (p1, f1) store_sample -> In (p2, f2) store_sample ->
     names_entity sample_id p1 f1 -> names_entity sample_id p2 f2 -> p1 = p2).
  { intros p1 f1 p2 f2 [H1|[]] [H2|[]] _ _. injection H1 as <- _. injection H2 as <- _.
    reflexivity. }
  split; [exact Hnd|]. split; [exact Hu|].
  eexists. split; [reflexivity|].
  assert (Hbad : (exists j, Some "550e8400-e29b-41d4-a716-446655440001" = Some j /\
                            j <> sample_id) \/
                 (exists rs, @None (list string) = Some rs /\ forallb is_uuid rs = false)).
  { left. eexists. split; [reflexivity|]. vm_compute. discriminate. }
  split; [exact Hbad|].
  destruct (update true sample_id update_id_created sample_now (Ok tt) (Ok tt) store_sample)
    as [[[c|] st']|e] eqn:Hup.
  - exact (update_can_orphan true sample_id update_id_created sample_now (Ok tt) (Ok tt)
             store_sample c st' _ Hnd Hu eq_refl Hbad Hup).
  - vm_compute in Hup. discriminate.
  - vm_compute in Hup. discriminate.
Defined.

(** ** The results of the hybrid search *)

Lemma nodup_firstn {A} (l : list A) n : NoDup l -> NoDup (firstn n l).
Proof.
  intro H. rewrite <- (firstn_skipn n l) in H. apply NoDup_app_remove_r in H. exact H.
Qed.

Lemma combineResults_nodup vr tr sw eb : NoDup (map res_id (combineResults vr tr sw eb)).
Proof.
  unfold combineResults.
  destruct (fold_vector_inv sw vr [] ltac:(constructor) ltac:(intros ? ? [])) as [Hn1 Hk1].
  destruct (fold_text_inv eb tr _ Hn1 Hk1) as [Hn2 Hk2].
  apply nodup_values_ids; assumption.
Qed.

(** [HybridSearch.search] returns at most [limit] results (10 by default).
    When the semantic channel answers, no id occurs twice among them, even if
    the corpus or the semantic hits repeat an id. On the text-only fallback,
    no id occurs twice when the corpus has distinct ids. *)
Theorem search_ids_unique searchSimilar query corpus options rs :
  search searchSimilar query corpus options = Ok rs ->
  (exists hits, searchSimilar query (getD 10%nat (opt_limit options) * 2)%nat = Ok hits) \/
  NoDup (map ctx_id corpus) ->
  NoDup (map res_id rs) /\ (length rs <= getD 10%nat (opt_limit options))%nat.
Proof.
  unfold search. destruct (searchSimilar query _) as [hits|e] eqn:Hs; intros H Hcase;
    injection H as <-; (split; [rewrite <- firstn_map; apply nodup_firstn|apply firstn_le_length]).
  - apply (Permutation_NoDup (Permutation_map res_id (Permutation_sym (sort_by_score_perm _)))).
    apply combineResults_nodup.
  - destruct Hcase as [[hits Hh]|Hnd]; [congruence|]. apply performTextSearch_nodup, Hnd.
Qed.

Lemma search_ids_unique_witness :
  ((exists hits, semantic_alpha "alpha" (getD 10%nat (opt_limit default_options) * 2)%nat = Ok hits) \/
   NoDup (map ctx_id [ctx_alpha; ctx_beta])) /\
  match search semantic_alpha "alpha" [ctx_alpha; ctx_beta] default_options with
  | Ok rs => NoDup (map res_id rs) /\ (length rs <= getD 10%nat (opt_limit default_options))%nat
  | Err _ => False
  end.
Proof.
  assert (Hc : (exists hits, semantic_alpha "alpha" (getD 10%nat (opt_limit default_options) * 2)%nat
                             = Ok hits) \/ NoDup (map ctx_id [ctx_alpha; ctx_beta])).
  { left. eexists. reflexivity. }
  split; [exact Hc|].
  destruct (search semantic_alpha "alpha" [ctx_alpha; ctx_beta] default_options) as [rs|e] eqn:Hs.
  - exact (search_ids_unique _ _ _ _ _ Hs Hc).
  - vm_compute in Hs. discriminate.
Defined.

(** ** [list()] without a filter *)



(** ** [RemoteGitStore.pull] when there is nothing to merge *)

(** [pull()] leaves the working tree exactly as it was (and returns
    normally) when no remote is configured, when initialisation, the fetch
    or the status call fails, or when the status reports the branch is not
    behind. *)
Theorem pull_noop_unless_behind remoteConfigured o t :
  remoteConfigured = false \/ (exists e, g_ensure o = Err e) \/
  (exists e, g_fetch o = Err e) \/ (exists e, g_behind o = Err e) \/ g_behind o = Ok 0%nat ->
  pull remoteConfigured o t = (Ok tt, t).
Proof.
  unfold pull. intros [->|[[e He]|[[e Hf]|[[e Hb]|Hb]]]]; [reflexivity| | | |];
    destruct remoteConfigured; try reflexivity; cbn [negb];
    unfold gcatch, gbind, glift.
  - rewrite He. reflexivity.
  - destruct (g_ensure o) as [[]|]; [|reflexivity]. rewrite Hf. reflexivity.
  - destruct (g_ensure o) as [[]|]; [|reflexivity]. destruct (g_fetch o) as [[]|]; [|reflexivity].
    rewrite Hb. reflexivity.
  - destruct (g_ensure o) as [[]|]; [|reflexivity]. destruct (g_fetch o) as [[]|]; [|reflexivity].
    rewrite Hb. reflexivity.
Qed.

Lemma pull_noop_unless_behind_witness :
  (true = false \/ (exists e, g_ensure o_up_to_date = Err e) \/
   (exists e, g_fetch o_up_to_date = Err e) \/ (exists e, g_behind o_up_to_date = Err e) \/
   g_behind o_up_to_date = Ok 0%nat) /\
  pull true o_up_to_date local_tree = (Ok tt, local_tree).
Proof.
  assert (H : true = false \/ (exists e, g_ensure o_up_to_date = Err e) \/
    (exists e, g_fetch o_up_to_date = Err e) \/ (exists e, g_behind o_up_to_date = Err e) \/
    g_behind o_up_to_date = Ok 0%nat) by (right; right; right; right; reflexivity).
  split; [exact H|]. exact (pull_noop_unless_behind true o_up_to_date local_tree H).
Defined.

(** ** A conflicted file without a remote version *)

Lemma for_each_keeps_failed o fs t k e :
  g_theirs o k = Err e -> (forall f, In f fs -> backup_path o f <> k) ->
  map_get k (snd (for_each (resolveFileConflict o) fs t)) = map_get k t.
Proof.
  intro Hk. revert t. induction fs as [|f fs IH]; intros t Hb; [reflexivity|].
  rewrite for_each_resolve_step, IH by (intros g Hg; apply Hb; right; exact Hg).
  destruct (String.eqb k f) eqn:E.
  - apply String.eqb_eq in E. subst f. rewrite resolveFileConflict_effect, Hk. cbn [snd].
    destruct (map_get k t) as [w|] eqn:Hw; [|exact Hw].
    rewrite map_get_set. destruct (String.eqb k (backup_path o k)) eqn:E'; [|exact Hw].
    apply String.eqb_eq in E'. exfalso. apply (Hb k); [left; reflexivity|symmetry; exact E'].
  - apply resolveFileConflict_frame; [apply String.eqb_neq, E|].
    intro H. apply (Hb f); [left; reflexivity|symmetry; exact H].
Qed.

(** When the merge stops on conflicts and the checkout of the remote
    version fails for one conflicted file [f], [pull()] carries on.
    Afterwards [f] still holds what the stopped merge left in it, and its
    backup holds the same text. Every other conflicted file whose checkout
    succeeds holds the remote version. *)
Theorem pull_failed_checkout_keeps_merge o t n e fs f e' :
  g_ensure o = Ok tt -> g_fetch o = Ok tt -> g_behind o = Ok (S n) -> g_pull o = Err e ->
  g_conflicted o = Ok fs -> g_add o = Ok tt -> g_commit o = Ok tt ->
  NoDup (map (backup_path o) fs) ->
  (forall f1 f2, In f1 fs -> In f2 fs -> backup_path o f1 <> f2) ->
  In f fs -> g_theirs o f = Err e' ->
  fst (pull true o t) = Ok tt /\
  map_get f (snd (pull true o t)) = map_get f (g_stopped o) /\
  (forall w, map_get f (g_stopped o) = Some w ->
     map_get (backup_path o f) (snd (pull true o t)) = Some w) /\
  (forall f' v, In f' fs -> g_theirs o f' = Ok v -> map_get f' (snd (pull true o t)) = Some v).
Proof.
  intros He Hf Hb Hp Hc Ha Hm Hnd Hdis Hin Ht.
  assert (Hpull : pull true o t = (Ok tt, snd (for_each (resolveFileConflict o) fs (g_stopped o)))).
  { unfold pull, gcatch, gbind, glift. cbn [negb]. rewrite He, Hf, Hb. cbn [Nat.ltb Nat.leb].
    unfold git_pull. rewrite Hp.
    unfold resolveConflictsAutomatically, gcatch, gbind, glift. rewrite Hc.
    destruct fs as [|f0 fs']; [destruct Hin|].
    rewrite for_each_resolve, Ha, Hm. reflexivity. }
  rewrite Hpull. cbn [fst snd]. split; [reflexivity|]. split.
  - apply (for_each_keeps_failed o fs _ f e' Ht). intros g Hg. apply Hdis; assumption.
  - split.
    + intro w. apply (for_each_resolves o fs (g_stopped o) Hnd Hdis f Hin).
    + intros f' v Hf' Hv. apply (for_each_resolves o fs (g_stopped o) Hnd Hdis f' Hf'). exact Hv.
Qed.

Lemma pull_failed_checkout_keeps_merge_witness :
  fst (pull true o_deleted_theirs local_tree) = Ok tt /\
  map_get file_a (snd (pull true o_deleted_theirs local_tree)) = Some "local" /\
  map_get file_b (snd (pull true o_deleted_theirs local_tree)) = Some "remote b".
Proof.
  assert (Hnd : NoDup (map (backup_path o_deleted_theirs) [file_a; file_b])) by nodup_strings.
  assert (Hdis : forall f1 f2, In f1 [file_a; file_b] -> In f2 [file_a; file_b] ->
                 backup_path o_deleted_theirs f1 <> f2).
  { intros f1 f2 [<-|[<-|[]]] [<-|[<-|[]]]; vm_compute; discriminate. }
  destruct (pull_failed_checkout_keeps_merge o_deleted_theirs local_tree 1%nat
              "CONFLICT (modify/delete): contexts/notes/a-550e8400.md deleted in origin/main"
              [file_a; file_b] file_a
              "error: path 'contexts/notes/a-550e8400.md' does not have their version"
              eq_refl eq_refl eq_refl eq_refl eq_refl eq_refl eq_refl Hnd Hdis
              (or_introl eq_refl) eq_refl) as (H0 & H1 & _ & H3).
  split; [exact H0|]. split; [rewrite H1; reflexivity|].
  apply H3; [right; left; reflexivity|reflexivity].
Defined.

(** When the id of a memory starts with eight lowercase hex digits (as a
    [crypto.randomUUID] does), deleting the file that [generateFilepath]
    names for it makes [handleFileDelete] extract exactly that 8-character
    prefix, wherever the directory and whatever the title. *)
Theorem handleFileDelete_short_id storePath ctx dir :
  String.length (substring 0 8 (id (metadata ctx))) = 8%nat ->
  all_chars is_lower_hex (substring 0 8 (id (metadata ctx))) = true ->
  handleFileDelete (generateFilepath storePath ctx dir) = Some (substring 0 8 (id (metadata ctx))).
Proof.
  intros Hl Hw. unfold handleFileDelete.
  pose proof (all_chars_impl _ _ _ lower_hex_not_slash Hw) as Hid.
  rewrite (proj1 (generateFilepath_names storePath ctx dir Hid)).
  destruct (generateFilepath_suffix storePath ctx dir Hid) as [u [-> Hu]].
  set (w := substring 0 8 (id (metadata ctx))) in *.
  set (t := substring 0 50 _).
  assert (Hns : all_chars (fun c => negb (Ascii.eqb c "/"))
                  (append t (append "-" (append w ".md"))) = true).
  { rewrite !all_chars_append. rewrite (all_chars_impl _ _ t slug_not_slash).
    - rewrite (all_chars_impl _ _ w lower_hex_not_slash Hw). reflexivity.
    - apply sanitized_title_slug. }
  destruct Hu as [->|[v ->]].
  - cbn [append]. rewrite last_segment_no_slash by exact Hns. apply short_id_match_name; assumption.
  - rewrite last_segment_after_slash by exact Hns. apply short_id_match_name; assumption.
Qed.

Lemma handleFileDelete_short_id_witness :
  String.length (substring 0 8 (id (metadata ctx_alpha))) = 8%nat /\
  all_chars is_lower_hex (substring 0 8 (id (metadata ctx_alpha))) = true /\
  handleFileDelete (generateFilepath "/store" ctx_alpha None) = Some "550e8400".
Proof.
  split; [reflexivity|]. split; [vm_compute; reflexivity|].
  apply (handleFileDelete_short_id "/store" ctx_alpha None); [reflexivity|vm_compute; reflexivity].
Defined.

Lemma all_chars_trimStart ok s : all_chars ok s = true -> all_chars ok (trimStart s) = true.
Proof.
  induction s as [|c s IH]; cbn; [reflexivity|].
  intros H. destruct (is_ws c); [apply IH; apply andb_true_iff in H; apply H|exact H].
Qed.

Lemma all_chars_trim ok s : all_chars ok s = true -> all_chars ok (trim s) = true.
Proof.
  intros H. unfold trim, trimEnd. apply all_chars_trimStart. rewrite all_chars_rev.
  apply all_chars_trimStart. rewrite all_chars_rev. exact H.
Qed.

Lemma remove_fmt_clean s : all_chars (fun c => negb (is_fmt c)) (remove_fmt s) = true.
Proof.
  induction s as [|c s IH]; cbn; [reflexivity|].
  destruct (is_fmt c) eqn:E; [exact IH|]. cbn. rewrite E. exact IH.
Qed.

Lemma nl_to_space_clean s b :
  all_chars (fun c => negb (is_fmt c)) s = true ->
  all_chars (fun c => negb (is_fmt c || Ascii.eqb c newline_char)) (nl_to_space s b) = true.
Proof.
  revert b. induction s as [|c s IH]; intros b H; cbn [nl_to_space]; [reflexivity|].
  cbn [all_chars] in H. apply andb_true_iff in H as [Hc Hs].
  destruct (Ascii.eqb c newline_char) eqn:E.
  - destruct b; [apply IH, Hs|]. cbn [all_chars]. apply IH, Hs.
  - cbn [all_chars]. apply negb_true_iff in Hc. rewrite Hc, E. apply IH, Hs.
Qed.

Lemma plainText_clean content :
  all_chars (fun c => negb (is_fmt c || Ascii.eqb c newline_char)) (plainText content) = true.
Proof. apply all_chars_trim, nl_to_space_clean, remove_fmt_clean. Qed.

(** The summary is a single line free of the markers [*], [_], [~] and
    [`], whatever the content and the length limit. *)
Theorem extractSummary_single_line content maxLength :
  all_chars (fun c => negb (is_fmt c || Ascii.eqb c newline_char))
    (extractSummary content maxLength) = true.
Proof.
  pose proof (plainText_clean content) as Hp. unfold extractSummary. cbv zeta.
  destruct (_ <=? maxLength)%Z; [exact Hp|].
  destruct (0 <? _)%Z; rewrite all_chars_append;
    rewrite ?all_chars_substring; try reflexivity; try exact Hp;
    apply all_chars_substring; exact Hp.
Qed.

Lemma length_substring0_le m s : (String.length (substring 0 m s) <= String.length s)%nat.
Proof.
  revert m. induction s as [|c s IH]; intros [|m]; cbn; try lia.
  specialize (IH m). lia.
Qed.

Lemma startsWith_substring0 m s : startsWith s (substring 0 m s) = true.
Proof.
  revert m. induction s as [|c s IH]; intros [|m]; cbn; try reflexivity.
  rewrite Ascii.eqb_refl. apply IH.
Qed.

Lemma startsWith_trans s p q : startsWith s p = true -> startsWith p q = true -> startsWith s q = true.
Proof.
  rewrite !startsWith_spec. intros [t ->] [u ->]. exists (append u t). symmetry. apply append_assoc_s.
Qed.

Lemma length_dots : String.length "..." = 3%nat.
Proof. reflexivity. Qed.

(** With a limit of at least 3, the summary fits the limit. It is the
    plain text itself when that fits; otherwise it is a prefix of the plain
    text followed by ["..."]. *)
Theorem extractSummary_bounded content maxLength :
  (3 <= maxLength)%Z ->
  (Z.of_nat (String.length (extractSummary content maxLength)) <= maxLength)%Z /\
  ((Z.of_nat (String.length (plainText content)) <= maxLength)%Z ->
     extractSummary content maxLength = plainText content) /\
  ((maxLength < Z.of_nat (String.length (plainText content)))%Z ->
     exists p, extractSummary content maxLength = append p "..." /\
               startsWith (plainText content) p = true).
Proof.
  intros H3. unfold extractSummary. cbv zeta.
  set (plain := plainText content).
  destruct (Z.of_nat (String.length plain) <=? maxLength)%Z eqn:Hfit.
  - apply Z.leb_le in Hfit. split; [exact Hfit|]. split; [reflexivity|]. lia.
  - apply Z.leb_gt in Hfit.
    set (t := substring 0 (Z.to_nat (maxLength - 3)) plain).
    assert (Ht : (String.length t <= Z.to_nat (maxLength - 3))%nat) by apply length_substring0.
    assert (Hpt : startsWith plain t = true) by apply startsWith_substring0.
    split; [|split; [lia|intros _]].
    + destruct (0 <? lastIndexOf t " ")%Z; rewrite length_append, length_dots.
      * pose proof (length_substring0_le (Z.to_nat (lastIndexOf t " ")) t). lia.
      * lia.
    + destruct (0 <? lastIndexOf t " ")%Z.
      * eexists. split; [reflexivity|]. eapply startsWith_trans; [exact Hpt|].
        apply startsWith_substring0.
      * exists t. split; [reflexivity|exact Hpt].
Qed.

Lemma extractSummary_bounded_witness :
  (3 <= 30)%Z /\
  (Z.of_nat (String.length (extractSummary "This is a test sentence with multiple words" 30)) <= 30)%Z.
Proof.
  split; [lia|]. apply (extractSummary_bounded "This is a test sentence with multiple words" 30); lia.
Defined.

(** With a limit below 3, a plain text that does not fit gives the summary
    ["..."], which is longer than the limit. *)
Theorem extractSummary_short_limit content maxLength :
  (maxLength < 3)%Z ->
  (maxLength < Z.of_nat (String.length (plainText content)))%Z ->
  extractSummary content maxLength = "...".
Proof.
  intros H3 Hlong. unfold extractSummary. cbv zeta.
  destruct (Z.of_nat (String.length (plainText content)) <=? maxLength)%Z eqn:Hfit;
    [apply Z.leb_le in Hfit; lia|].
  replace (Z.to_nat (maxLength - 3)) with 0%nat by lia.
  destruct (plainText content); reflexivity.
Qed.

Lemma extractSummary_short_limit_witness :
  (2 < 3)%Z /\ (2 < Z.of_nat (String.length (plainText "hello")))%Z /\
  extractSummary "hello" 2 = "...".
Proof.
  split; [lia|]. split; [vm_compute; reflexivity|].
  apply extractSummary_short_limit; [lia|vm_compute; reflexivity].
Defined.
